(** * Red/black tree balancing engine of swoc::detail::RBNode

    A shallow embedding of [swoc++/src/RBTree.cc].  Nodes live in a heap
    indexed by node identities; a pointer is an optional identity, the
    absent pointer being [nullptr].  Every member function of [RBNode] is a
    computation in a small state-and-fault monad over that heap, so that
    aliasing, stale back-references and null dereferences are visible. *)

From stdpp Require Import gmap list strings sorting.



(** ** Data model *)

Inductive Color := RED | BLACK.
Inductive Direction := NONE | LEFT | RIGHT.

#[global] Instance Color_eq_dec : EqDecision Color.
Proof. solve_decision. Defined.
#[global] Instance Direction_eq_dec : EqDecision Direction.
Proof. solve_decision. Defined.

(** [RBNode *]: [None] is [nullptr]. *)
Abbreviation ptr := (option nat) (only parsing).

(** The linkage fields of [RBNode]. *)
Record RBNode := mkNode {
  _color : Color;
  _parent : ptr;
  _left : ptr;
  _right : ptr
}.

#[global] Instance RBNode_eq_dec : EqDecision RBNode.
Proof. solve_decision. Defined.

Definition with_color (c : Color) (n : RBNode) : RBNode :=
  mkNode c (_parent n) (_left n) (_right n).
Definition with_parent (p : ptr) (n : RBNode) : RBNode :=
  mkNode (_color n) p (_left n) (_right n).
Definition with_left (l : ptr) (n : RBNode) : RBNode :=
  mkNode (_color n) (_parent n) l (_right n).
Definition with_right (r : ptr) (n : RBNode) : RBNode :=
  mkNode (_color n) (_parent n) (_left n) r.

(** One invocation of the virtual [structure_fixup] hook: the node it was
    invoked on, and the parent reference and the children that node had at
    that moment. *)
Record HookCall := mkHook {
  hook_node : nat;
  hook_parent : ptr;
  hook_left : ptr;
  hook_right : ptr
}.

#[global] Instance HookCall_eq_dec : EqDecision HookCall.
Proof. solve_decision. Defined.

(** The machine state: node storage and the hook invocations so far
    (oldest first). *)
Record State := mkState {
  heap : gmap nat RBNode;
  hooks : list HookCall
}.

(** ** The monad *)

(** A computation ends normally, dereferences an absent or dangling
    pointer ([Fault]), or exhausts the fuel of a loop ([Timeout]). *)
Inductive outcome (A : Type) :=
| Done (a : A) (s : State)
| Fault
| Timeout.
Arguments Done {A} a s.
Arguments Fault {A}.
Arguments Timeout {A}.

Definition M (A : Type) := State -> outcome A.

Definition ret {A} (a : A) : M A := fun s => Done a s.
Definition bind {A B} (m : M A) (k : A -> M B) : M B :=
  fun s => match m s with
           | Done a s' => k a s'
           | Fault => Fault
           | Timeout => Timeout
           end.
Definition fault {A} : M A := fun _ => Fault.
Definition timeout {A} : M A := fun _ => Timeout.

Declare Scope rb_scope.
Delimit Scope rb_scope with rb.
Notation "x <- m ;; k" := (bind m (fun x => k))
  (at level 100, m at next level, right associativity) : rb_scope.
Notation "m ;;; k" := (bind m (fun _ => k))
  (at level 100, right associativity) : rb_scope.
Open Scope rb_scope.

(** [p->...] on a pointer value. *)
Definition deref (p : ptr) : M nat :=
  match p with Some i => ret i | None => fault end.

Definition load (x : nat) : M RBNode :=
  fun s => match heap s !! x with
           | Some n => Done n s
           | None => Fault
           end.

Definition modify (x : nat) (f : RBNode -> RBNode) : M unit :=
  fun s => match heap s !! x with
           | Some n => Done tt (mkState (<[x := f n]> (heap s)) (hooks s))
           | None => Fault
           end.

Definition get {A} (f : RBNode -> A) (x : nat) : M A :=
  n <- load x ;; ret (f n).

Definition set_color (x : nat) (c : Color) : M unit := modify x (with_color c).
Definition set_parent (x : nat) (p : ptr) : M unit := modify x (with_parent p).
Definition set_left (x : nat) (p : ptr) : M unit := modify x (with_left p).
Definition set_right (x : nat) (p : ptr) : M unit := modify x (with_right p).

(** ** Members declared in the header *)

(** Modelled from the spec: [RBNode::color] is declared in [swoc/RBTree.h],
    which is not part of the sources; it reads the colour field. *)
Definition color (x : nat) : M Color := get _color x.

(** Modelled from the spec: [RBNode::flip] is declared in [swoc/RBTree.h];
    LEFT and RIGHT are exchanged and NONE is kept. *)
Definition flip (d : Direction) : Direction :=
  match d with
  | LEFT => RIGHT
  | RIGHT => LEFT
  | NONE => NONE
  end.

(** Modelled from the spec: [RBNode::direction_of] is declared in
    [swoc/RBTree.h]; a derived relation computed by identity comparison of
    the argument against the left and the right link. *)
Definition node_direction (nd : RBNode) (n : ptr) : Direction :=
  if decide (n = _left nd) then LEFT
  else if decide (n = _right nd) then RIGHT
  else NONE.

Definition direction_of (this : nat) (n : ptr) : M Direction :=
  nd <- load this ;; ret (node_direction nd n).

(** Modelled from the spec: [RBNode::clear_child] is declared in
    [swoc/RBTree.h]; it resets the left or the right link and is a no-op
    for NONE. *)
Definition clear_child (this : nat) (dir : Direction) : M unit :=
  match dir with
  | LEFT => set_left this None
  | RIGHT => set_right this None
  | NONE => load this ;;; ret tt
  end.

(** Modelled from the spec: [RBNode::structure_fixup] is the virtual hook of
    [swoc/RBTree.h]; the base method is empty.  The invocation is recorded
    with the parent reference and the children the node has when the hook
    runs. *)
Definition structure_fixup (this : nat) : M unit :=
  fun s => match heap s !! this with
           | Some n => Done tt (mkState (heap s)
                                  (hooks s ++ [mkHook this (_parent n) (_left n)
                                                 (_right n)]))
           | None => Fault
           end.

(** ** RBTree.cc *)

(** [operator==(RBNode *n, RBNode::Color c)]: an absent node is BLACK. *)
Definition color_is (n : ptr) (c : Color) : M bool :=
  match n with
  | Some i => nc <- color i ;; ret (bool_decide (c = nc))
  | None => ret (bool_decide (c = BLACK))
  end.

Definition node_child (nd : RBNode) (d : Direction) : ptr :=
  match d with
  | RIGHT => _right nd
  | LEFT => _left nd
  | NONE => None
  end.

Definition child_at (this : nat) (d : Direction) : M ptr :=
  nd <- load this ;; ret (node_child nd d).

Definition set_child (this : nat) (child : ptr) (dir : Direction) : M ptr :=
  match child with
  | Some c => set_parent c (Some this)
  | None => ret tt
  end ;;;
  match dir with
  | RIGHT => set_right this child
  | LEFT => set_left this child
  | NONE => load this ;;; ret tt
  end ;;;
  ret child.

Definition rotate (this : nat) (dir : Direction) : M nat :=
  parent <- get _parent this ;;
  child_dir <- match parent with
               | Some p => direction_of p (Some this)
               | None => ret NONE
               end ;;
  let other_dir := flip dir in
  oc <- child_at this other_dir ;;
  match oc with
  | Some child =>
      if decide (dir = NONE) then ret this
      else
        clear_child this other_dir ;;;
        cd <- child_at child dir ;;
        set_child this cd other_dir ;;;
        clear_child child dir ;;;
        set_child child (Some this) dir ;;;
        structure_fixup child ;;;
        structure_fixup this ;;;
        match parent with
        | Some p =>
            clear_child p child_dir ;;;
            set_child p (Some child) child_dir ;;;
            ret tt
        | None => set_parent child None
        end ;;;
        ret child
  | None => ret this
  end.

(** The [while (p)] loop of [ripple_structure_fixup]. *)
Fixpoint ripple_loop (fuel : nat) (root : nat) (p : ptr) : M nat :=
  match p with
  | None => ret root
  | Some pi =>
      match fuel with
      | 0 => timeout
      | S fuel' =>
          structure_fixup pi ;;;
          pp <- get _parent pi ;;
          ripple_loop fuel' pi pp
      end
  end.

Definition ripple_structure_fixup (fuel : nat) (this : nat) : M nat :=
  ripple_loop fuel this (Some this).

Definition replace_with (this : nat) (n : nat) : M unit :=
  c <- get _color this ;;
  set_color n c ;;;
  parent <- get _parent this ;;
  match parent with
  | Some p =>
      d <- direction_of p (Some this) ;;
      set_child p None d ;;;
      if decide (p = n) then ret tt
      else set_child p (Some n) d ;;; ret tt
  | None => set_parent n None
  end ;;;
  set_right n None ;;;
  set_left n None ;;;
  l <- get _left this ;;
  match l with
  | Some li => if decide (li = n) then ret tt
               else set_child n l LEFT ;;; ret tt
  | None => ret tt
  end ;;;
  r <- get _right this ;;
  match r with
  | Some ri => if decide (ri = n) then ret tt
               else set_child n r RIGHT ;;; ret tt
  | None => ret tt
  end ;;;
  set_right this None ;;;
  set_left this None.

(** The [while] loop of [left_most_descendant]. *)
Fixpoint left_most_descendant (fuel : nat) (n : nat) : M nat :=
  l <- get _left n ;;
  match l with
  | None => ret n
  | Some li =>
      match fuel with
      | 0 => timeout
      | S fuel' => left_most_descendant fuel' li
      end
  end.

(** The [while (x && x->_parent == Color::RED)] loop of
    [rebalance_after_insert]. *)
Fixpoint insert_loop (fuel : nat) (x : ptr) : M unit :=
  match x with
  | None => ret tt
  | Some xi =>
      xp <- get _parent xi ;;
      red <- color_is xp RED ;;
      if negb red then ret tt
      else
        match fuel with
        | 0 => timeout
        | S fuel' =>
            p <- deref xp ;;
            pp <- get _parent p ;;
            match pp with
            | None => ret tt
            | Some g =>
                child_dir <- direction_of g (Some p) ;;
                let other_dir := flip child_dir in
                y <- child_at g other_dir ;;
                yred <- color_is y RED ;;
                if yred then
                  set_color p BLACK ;;;
                  yi <- deref y ;;
                  set_color yi BLACK ;;;
                  set_color g RED ;;;
                  insert_loop fuel' (Some g)
                else
                  pc <- child_at p other_dir ;;
                  x' <- (if decide (pc = Some xi)
                         then rotate p child_dir ;;; ret p
                         else ret xi) ;;
                  p1 <- get _parent x' ;;
                  p1 <- deref p1 ;;
                  set_color p1 BLACK ;;;
                  p2 <- get _parent x' ;;
                  p2 <- deref p2 ;;
                  g2 <- get _parent p2 ;;
                  g2 <- deref g2 ;;
                  set_color g2 RED ;;;
                  p3 <- get _parent x' ;;
                  p3 <- deref p3 ;;
                  g3 <- get _parent p3 ;;
                  g3 <- deref g3 ;;
                  rotate g3 other_dir ;;;
                  insert_loop fuel' (Some x')
            end
        end
  end.

Definition rebalance_after_insert (fuel : nat) (this : nat) : M nat :=
  insert_loop fuel (Some this) ;;;
  root <- ripple_structure_fixup fuel this ;;
  set_color root BLACK ;;;
  ret root.

(** The [while (parent)] loop of [rebalance_after_remove]. *)
Fixpoint remove_loop (fuel : nat) (n : ptr) (parent : ptr) (d : Direction)
  : M unit :=
  match parent with
  | None => ret tt
  | Some p =>
      match fuel with
      | 0 => timeout
      | S fuel' =>
          nred <- match n with
                  | Some _ => color_is n RED
                  | None => ret false
                  end ;;
          if nred then
            ni <- deref n ;;
            set_color ni BLACK
          else
            right_side <- (if decide (d = NONE)
                           then dn <- direction_of p n ;;
                                ret (bool_decide (dn = RIGHT))
                           else ret (bool_decide (d = RIGHT))) ;;
            let near := if right_side then RIGHT else LEFT in
            let far := if right_side then LEFT else RIGHT in
            w <- child_at p far ;;
            w <- deref w ;;
            wc <- get _color w ;;
            w <- (if decide (wc = RED) then
                    set_color w BLACK ;;;
                    set_color p RED ;;;
                    rotate p near ;;;
                    w' <- child_at p far ;;
                    deref w'
                  else ret w) ;;
            wfc <- child_at w far ;;
            wnc <- child_at w near ;;
            nblack <- color_is wnc BLACK ;;
            both <- (if nblack then color_is wfc BLACK else ret false) ;;
            if both then
              set_color w RED ;;;
              pp <- get _parent p ;;
              remove_loop fuel' (Some p) pp NONE
            else
              fblack <- color_is wfc BLACK ;;
              ww <- (if fblack then
                              wn <- child_at w near ;;
                              wn <- deref wn ;;
                              set_color wn BLACK ;;;
                              set_color w RED ;;;
                              rotate w far ;;;
                              w' <- child_at p far ;;
                              w' <- deref w' ;;
                              wfc' <- child_at w' far ;;
                              ret (w', wfc')
                            else ret (w, wfc)) ;;
              let '(w, wfc) := ww in
              pc <- get _color p ;;
              set_color w pc ;;;
              set_color p BLACK ;;;
              wf <- deref wfc ;;
              set_color wf BLACK ;;;
              rotate p near ;;;
              ret tt
      end
  end.

Definition rebalance_after_remove (fuel : nat) (this : nat) (c : Color)
  (d : Direction) : M nat :=
  (if decide (BLACK = c) then
     parent <- get _parent this ;;
     if decide (NONE = d) then remove_loop fuel (Some this) parent d
     else remove_loop fuel None (Some this) d
   else ret tt) ;;;
  ripple_structure_fixup fuel this.

(** Line 204 of [remove]: the node physically detached is the successor of
    a node with two children, and the node itself otherwise. *)
Definition remove_target (fuel : nat) (this : nat) : M nat :=
  l <- get _left this ;;
  r <- get _right this ;;
  match l, r with
  | Some _, Some ri => left_most_descendant fuel ri
  | _, _ => ret this
  end.

(** Lines 204-242 of [remove]: the choice of the node physically detached,
    the promotion of its child or its clipping, and the move of the detached
    node into the place of the target.  The result is the triple handed to
    [rebalance_after_remove]: the anchor [splice_node], [remove_color] and
    the direction [d]. *)
Definition remove_splice (fuel : nat) (this : nat)
  : M (nat * Color * Direction) :=
  remove_node <- remove_target fuel this ;;
  remove_color <- get _color remove_node ;;
  rl <- get _left remove_node ;;
  rr <- get _right remove_node ;;
  let splice := match rl with Some _ => rl | None => rr end in
  anchor <-
    match splice with
    | Some sp =>
        c <- get _color sp ;;
        replace_with remove_node sp ;;;
        ret (sp, c, NONE)
    | None =>
        sp <- get _parent remove_node ;;
        sp <- deref sp ;;
        d <- direction_of sp (Some remove_node) ;;
        set_child sp None d ;;;
        ret (sp, remove_color, d)
    end ;;
  let '(splice_node, remove_color, d) := anchor in
  if decide (remove_node = this) then ret (splice_node, remove_color, d)
  else
    let splice_node := if decide (splice_node = this) then remove_node
                       else splice_node in
    replace_with this remove_node ;;;
    ret (splice_node, remove_color, d).

Definition remove (fuel : nat) (this : nat) : M ptr :=
  nd <- load this ;;
  match _parent nd, _left nd, _right nd with
  | None, Some l, None =>
      set_parent l None ;;;
      set_color l BLACK ;;;
      ret (Some l)
  | None, None, Some r =>
      set_parent r None ;;;
      set_color r BLACK ;;;
      ret (Some r)
  | None, None, None => ret None
  | _, _, _ =>
      anchor <- remove_splice fuel this ;;
      let '(splice_node, remove_color, d) := anchor in
      root <- rebalance_after_remove fuel splice_node remove_color d ;;
      set_color root BLACK ;;;
      ret (Some root)
  end.

(** [validate]: the recursive check is compiled out ([#if 0]); the body that
    is compiled returns 0 and prints nothing.  The result is paired with the
    findings written to the output stream. *)
Definition validate (this : nat) : M (Z * list string) :=
  ret (0%Z, []).

(** ** Auxiliary definitions for the statements *)

Definition with_child (d : Direction) (c : ptr) (nd : RBNode) : RBNode :=
  match d with
  | LEFT => with_left c nd
  | RIGHT => with_right c nd
  | NONE => nd
  end.

(** Update of the node a pointer refers to, if any. *)
Definition alter_at (p : ptr) (f : RBNode -> RBNode) (h : gmap nat RBNode)
  : gmap nat RBNode :=
  match p with
  | Some i => alter f i h
  | None => h
  end.

(** The heap after a successful rotation of [x] toward [dir], where [nx] is
    the record of [x] and [nc] the record of its child [c] opposite to
    [dir]: the inner grandchild moves under [x], [x] moves under [c], and
    the former parent of [x] refers to [c]. *)
Definition rotated (h : gmap nat RBNode) (x : nat) (dir : Direction)
  (c : nat) (nx nc : RBNode) : gmap nat RBNode :=
  alter_at (_parent nx)
    (fun np => with_child (node_direction np (Some x)) (Some c) np)
    (<[c := with_parent (_parent nx) (with_child dir (Some x) nc)]>
       (<[x := with_parent (Some c)
                 (with_child (flip dir) (node_child nc dir) nx)]>
          (alter_at (node_child nc dir) (with_parent (Some x)) h))).

(** A link of the replaced node as the replacement takes it over: a link to
    the replacement itself is dropped. *)
Definition other_than (n : nat) (l : ptr) : ptr :=
  if decide (l = Some n) then None else l.

(** The heap after [t.replace_with(n)], where [nt] is the record of [t]:
    the parent of [t] refers to [n], [n] takes the colour, the parent and
    the children of [t], these children refer back to [n], and [t] loses
    its left and right links (its parent reference stays). *)
Definition replaced (h : gmap nat RBNode) (t n : nat) (nt : RBNode)
  : gmap nat RBNode :=
  <[t := with_left None (with_right None nt)]>
    (alter_at (other_than n (_right nt)) (with_parent (Some n))
       (alter_at (other_than n (_left nt)) (with_parent (Some n))
          (<[n := mkNode (_color nt) (_parent nt)
                    (other_than n (_left nt)) (other_than n (_right nt))]>
             (alter_at (_parent nt)
                (fun np => with_child (node_direction np (Some t)) (Some n) np)
                h)))).





(** In-order sequence of the nodes below a pointer, read through the left
    and right links. *)
Fixpoint inorder_from (fuel : nat) (h : gmap nat RBNode) (p : ptr) : list nat :=
  match fuel, p with
  | S fuel', Some i =>
      match h !! i with
      | Some nd => inorder_from fuel' h (_left nd) ++ i :: inorder_from fuel' h (_right nd)
      | None => []
      end
  | _, _ => []
  end.

(** The child promoted into the place of a detached node: the left child if
    there is one, else the right child ([remove], line 216). *)
Definition promoted_child (nd : RBNode) : ptr :=
  match _left nd with
  | Some _ => _left nd
  | None => _right nd
  end.

(** The nodes from [x] up to the root, following the parent references. *)
Fixpoint path_to_root (fuel : nat) (h : gmap nat RBNode) (x : nat)
  : option (list nat) :=
  match fuel with
  | 0 => None
  | S fuel' =>
      match h !! x with
      | None => None
      | Some nd =>
          match _parent nd with
          | None => Some [x]
          | Some p => cons x <$> path_to_root fuel' h p
          end
      end
  end.

(** The hook invocation a node gives rise to in heap [h]. *)
Definition hook_of (h : gmap nat RBNode) (x : nat) : HookCall :=
  match h !! x with
  | Some nd => mkHook x (_parent nd) (_left nd) (_right nd)
  | None => mkHook x None None None
  end.

(** A small red/black tree used to exercise the statements:
    10 (BLACK) over 5 (RED) and 15 (BLACK); 3 and 7 (BLACK) below 5;
    6 and 8 (RED) below 7; 12 (RED) left of 15. *)
Definition demo_heap : gmap nat RBNode :=
  list_to_map
    [ (10, mkNode BLACK None (Some 5) (Some 15));
      (5, mkNode RED (Some 10) (Some 3) (Some 7));
      (15, mkNode BLACK (Some 10) (Some 12) None);
      (12, mkNode RED (Some 15) None None);
      (3, mkNode BLACK (Some 5) None None);
      (7, mkNode BLACK (Some 5) (Some 6) (Some 8));
      (6, mkNode RED (Some 7) None None);
      (8, mkNode RED (Some 7) None None) ].

Definition demo : State := mkState demo_heap [].

(** A tree with a red node below a red node and unequal black heights:
    10 (BLACK) over 5 (RED), 3 (RED) below 5, 2 (BLACK) below 3. *)
Definition defective_heap : gmap nat RBNode :=
  list_to_map
    [ (10, mkNode BLACK None (Some 5) None);
      (5, mkNode RED (Some 10) (Some 3) None);
      (3, mkNode RED (Some 5) (Some 2) None);
      (2, mkNode BLACK (Some 3) None None) ].

(** ** Trees held by a heap *)

(** The shape a heap is read as: a binary tree of coloured node
    identities. *)
Inductive tree :=
| E
| T (c : Color) (l : tree) (x : nat) (r : tree).

(** One step of a path from a subtree up to the root: the parent node, with
    its colour and its other subtree; [FL] when the subtree hangs on the
    left of the parent, [FR] when it hangs on the right. *)
Inductive frame :=
| FL (c : Color) (x : nat) (r : tree)
| FR (c : Color) (l : tree) (x : nat).

Definition root_of (t : tree) : ptr :=
  match t with
  | E => None
  | T _ _ x _ => Some x
  end.

(** An absent child counts as BLACK. *)
Definition color_of (t : tree) : Color :=
  match t with
  | E => BLACK
  | T c _ _ _ => c
  end.

Fixpoint inorder (t : tree) : list nat :=
  match t with
  | E => []
  | T _ l x r => inorder l ++ x :: inorder r
  end.

Definition fill (f : frame) (t : tree) : tree :=
  match f with
  | FL c x r => T c t x r
  | FR c l x => T c l x t
  end.

(** A context is the list of frames from a subtree up to the root. *)
Fixpoint plug (k : list frame) (t : tree) : tree :=
  match k with
  | [] => t
  | f :: up => plug up (fill f t)
  end.

Definition frame_node (f : frame) : nat :=
  match f with
  | FL _ x _ => x
  | FR _ _ x => x
  end.

Definition frame_color (f : frame) : Color :=
  match f with
  | FL c _ _ => c
  | FR c _ _ => c
  end.

Definition cparent (k : list frame) : ptr :=
  match k with
  | [] => None
  | f :: _ => Some (frame_node f)
  end.

(** [rep h t par]: the heap holds the tree [t] below a node whose parent
    reference is [par]; every record has the colour, the parent and the
    children the tree prescribes, so parent and child links agree. *)
Fixpoint rep (h : gmap nat RBNode) (t : tree) (par : ptr) : Prop :=
  match t with
  | E => True
  | T c l x r =>
      h !! x = Some (mkNode c par (root_of l) (root_of r)) /\
      rep h l (Some x) /\ rep h r (Some x)
  end.

Definition frep (h : gmap nat RBNode) (f : frame) (hole par : ptr) : Prop :=
  match f with
  | FL c x r => h !! x = Some (mkNode c par hole (root_of r)) /\ rep h r (Some x)
  | FR c l x => h !! x = Some (mkNode c par (root_of l) hole) /\ rep h l (Some x)
  end.

(** [crep h k hole]: the heap holds the context [k] around a subtree whose
    root pointer is [hole]. *)
Fixpoint crep (h : gmap nat RBNode) (k : list frame) (hole : ptr) : Prop :=
  match k with
  | [] => True
  | f :: up => frep h f hole (cparent up) /\ crep h up (Some (frame_node f))
  end.

(** The nodes of a context that come before, and after, the hole in
    in-order. *)
Fixpoint cin_l (k : list frame) : list nat :=
  match k with
  | [] => []
  | FL _ _ _ :: up => cin_l up
  | FR _ l x :: up => cin_l up ++ inorder l ++ [x]
  end.

Fixpoint cin_r (k : list frame) : list nat :=
  match k with
  | [] => []
  | FL _ x r :: up => x :: inorder r ++ cin_r up
  | FR _ _ _ :: up => cin_r up
  end.

(** The heap holds the tree [plug k t], read with the focus on [t]; no node
    occurs twice. *)
Definition zrep (h : gmap nat RBNode) (k : list frame) (t : tree) : Prop :=
  rep h t (cparent k) /\ crep h k (root_of t) /\
  NoDup (cin_l k ++ inorder t ++ cin_r k).

(** ** The red/black invariants *)

Definition black (c : Color) : nat :=
  match c with
  | BLACK => 1
  | RED => 0
  end.

(** Black nodes on the leftmost path down to an absent child. *)
Fixpoint bh (t : tree) : nat :=
  match t with
  | E => 0
  | T c l _ _ => bh l + black c
  end.

(** Equal black height on both sides of every node. *)
Fixpoint balanced (t : tree) : Prop :=
  match t with
  | E => True
  | T _ l _ r => bh l = bh r /\ balanced l /\ balanced r
  end.

(** No RED node has a RED child. *)
Fixpoint no_red_red (t : tree) : Prop :=
  match t with
  | E => True
  | T c l _ r =>
      (c = RED -> color_of l = BLACK /\ color_of r = BLACK) /\
      no_red_red l /\ no_red_red r
  end.

Definition red_black (t : tree) : Prop :=
  color_of t = BLACK /\ no_red_red t /\ balanced t.

(** The number of BLACK nodes on each path from the root to an absent child,
    the absent child counted as one BLACK node. *)
Fixpoint black_counts (t : tree) : list nat :=
  match t with
  | E => [1]
  | T c l _ r => map (fun n => n + black c) (black_counts l ++ black_counts r)
  end.

(** ** The rebalancing walks, on trees *)

Definition blacken (t : tree) : tree :=
  match t with
  | E => E
  | T _ l x r => T BLACK l x r
  end.

Definition recolor_frame (c : Color) (f : frame) : frame :=
  match f with
  | FL _ x r => FL c x r
  | FR _ l x => FR c l x
  end.

(** The loop of [rebalance_after_insert] on the tree [plug k t] with the
    unbalanced node at the root of [t]; the result is the whole tree when
    the loop ends, [None] when the fuel runs out. *)
Fixpoint ins_fix (fuel : nat) (k : list frame) (t : tree) {struct k}
  : option tree :=
  match k with
  | [] => Some t
  | f :: up =>
      match frame_color f with
      | BLACK => Some (plug k t)
      | RED =>
          match fuel with
          | 0 => None
          | S fuel' =>
              match up with
              | [] => Some (plug k t)
              | FL gc g u :: up' =>
                  match color_of u with
                  | RED =>
                      ins_fix fuel' up'
                        (T RED (fill (recolor_frame BLACK f) t) g (blacken u))
                  | BLACK =>
                      match f, t with
                      | FR _ pl p, T xc xl x xr =>
                          Some (plug up' (T BLACK (T RED pl p xl) x (T RED xr g u)))
                      | FL _ p pr, _ =>
                          Some (plug up' (T BLACK t p (T RED pr g u)))
                      | _, _ => None
                      end
                  end
              | FR gc u g :: up' =>
                  match color_of u with
                  | RED =>
                      ins_fix fuel' up'
                        (T RED (blacken u) g (fill (recolor_frame BLACK f) t))
                  | BLACK =>
                      match f, t with
                      | FL _ p pr, T xc xl x xr =>
                          Some (plug up' (T BLACK (T RED u g xl) x (T RED xr p pr)))
                      | FR _ pl p, _ =>
                          Some (plug up' (T BLACK (T RED u g pl) p t))
                      | _, _ => None
                      end
                  end
              end
          end
      end
  end.

(** [rebalance_after_insert] on trees: the walk, then the root forced
    BLACK. *)
Definition ins_rebalance (fuel : nat) (k : list frame) (t : tree) : option tree :=
  blacken <$> ins_fix fuel k t.

(** [yields o Q]: the outcome is a normal end whose result and state satisfy
    [Q]. *)
Definition yields {A} (o : outcome A) (Q : A -> State -> Prop) : Prop :=
  match o with
  | Done a s => Q a s
  | _ => False
  end.

(** ** Invariants of a context *)

Definition sibling (f : frame) : tree :=
  match f with
  | FL _ _ r => r
  | FR _ l _ => l
  end.

(** The context is balanced around a hole of black height [n]. *)
Fixpoint cbal (k : list frame) (n : nat) : Prop :=
  match k with
  | [] => True
  | f :: up =>
      bh (sibling f) = n /\ balanced (sibling f) /\
      cbal up (n + black (frame_color f))
  end.

(** The context has no RED node with a RED child, around a hole whose root
    has colour [hc]. *)
Fixpoint cnrr (k : list frame) (hc : Color) : Prop :=
  match k with
  | [] => True
  | f :: up =>
      (frame_color f = RED -> hc = BLACK /\ color_of (sibling f) = BLACK) /\
      no_red_red (sibling f) /\ cnrr up (frame_color f)
  end.

Definition frame_side (f : frame) : Direction :=
  match f with
  | FL _ _ _ => LEFT
  | FR _ _ _ => RIGHT
  end.

(** The last branch of the loop of [rebalance_after_remove], for a node
    short of one BLACK on the left of [p] with sibling [s]: a BLACK far
    child of the sibling is first replaced by rotating the sibling; then
    the sibling takes the colour [pc] of the parent, parent and far child
    become BLACK and the parent is rotated.  [None] where the code would
    go through an absent node. *)
Definition del_rotate_L (pc : Color) (t : tree) (p : nat) (s : tree)
  : option tree :=
  match s with
  | E => None
  | T _ wl w wr =>
      let s2 := match color_of wr with
                | BLACK =>
                    match wl with
                    | T _ a y b => Some (T BLACK a y (T RED b w wr))
                    | E => None
                    end
                | RED => Some s
                end in
      match s2 with
      | Some (T _ l2 w2 (T _ fl f fr)) =>
          Some (T pc (T BLACK t p l2) w2 (T BLACK fl f fr))
      | _ => None
      end
  end.

Definition del_rotate_R (pc : Color) (s : tree) (p : nat) (t : tree)
  : option tree :=
  match s with
  | E => None
  | T _ wl w wr =>
      let s2 := match color_of wl with
                | BLACK =>
                    match wr with
                    | T _ a y b => Some (T BLACK (T RED wl w a) y b)
                    | E => None
                    end
                | RED => Some s
                end in
      match s2 with
      | Some (T _ (T _ fl f fr) w2 r2) =>
          Some (T pc (T BLACK fl f fr) w2 (T BLACK r2 p t))
      | _ => None
      end
  end.

(** The loop of [rebalance_after_remove] on the tree [plug k t], where the
    subtree [t] is short of one BLACK node; the result is the whole tree
    when the loop ends, [None] when the code goes through an absent node or
    the fuel runs out. *)
Fixpoint del_fix (fuel : nat) (k : list frame) (t : tree) {struct fuel}
  : option tree :=
  match k with
  | [] => Some t
  | f :: up =>
      match fuel with
      | 0 => None
      | S fuel' =>
          match t with
          | T RED l x r => Some (plug k (T BLACK l x r))
          | _ =>
              match f with
              | FL pc p s =>
                  match s with
                  | E => None
                  | T wc wl w wr =>
                      (* the sibling after the first test, with the colour
                         of the parent and the context above it *)
                      let '(pc1, s1, up1) :=
                        match wc with
                        | RED => (RED, wl, FL BLACK w wr :: up)
                        | BLACK => (pc, s, up)
                        end in
                      match s1 with
                      | E => None
                      | T _ wl1 w1 wr1 =>
                          match color_of wl1, color_of wr1 with
                          | BLACK, BLACK =>
                              del_fix fuel' up1 (T pc1 t p (T RED wl1 w1 wr1))
                          | _, _ => plug up1 <$> del_rotate_L pc1 t p s1
                          end
                      end
                  end
              | FR pc s p =>
                  match s with
                  | E => None
                  | T wc wl w wr =>
                      let '(pc1, s1, up1) :=
                        match wc with
                        | RED => (RED, wr, FR BLACK wl w :: up)
                        | BLACK => (pc, s, up)
                        end in
                      match s1 with
                      | E => None
                      | T _ wl1 w1 wr1 =>
                          match color_of wr1, color_of wl1 with
                          | BLACK, BLACK =>
                              del_fix fuel' up1 (T pc1 (T RED wl1 w1 wr1) p t)
                          | _, _ => plug up1 <$> del_rotate_R pc1 s1 p t
                          end
                      end
                  end
              end
          end
      end
  end.

(** The direction handed to [rebalance_after_remove] fits the focus: the
    side of an absent subtree, NONE for a present one. *)
Definition dir_ok (d : Direction) (k : list frame) (t : tree) : Prop :=
  match t with
  | E => match k with
         | f :: _ => d = frame_side f
         | [] => True
         end
  | T _ _ _ _ => d = NONE
  end.

(** The node [rebalance_after_remove] is called on: the root of the subtree
    in focus, or its parent when the subtree is absent. *)
Definition anchor_of (k : list frame) (t : tree) : ptr :=
  match t with
  | T _ _ x _ => Some x
  | E => cparent k
  end.

(** The demo of a removal: 10 (BLACK) over 5 and 15 (BLACK), after the
    leaf 5 has been clipped off the left of 10. *)
Definition clipped_heap : gmap nat RBNode :=
  list_to_map
    [ (10, mkNode BLACK None None (Some 15));
      (15, mkNode BLACK (Some 10) None None) ].

(** What the walk of [rebalance_after_remove] is known to do with a given
    amount of fuel: it follows the tree version [del_fix]. *)
Definition remove_loop_spec (fuel : nat) : Prop :=
  forall k t h hk res d,
    zrep h k t -> dir_ok d k t ->
    del_fix fuel k t = Some res ->
    forall B (kont : unit -> M B) Q,
      (forall h' hk', rep h' res None -> yields (kont tt (mkState h' hk')) Q) ->
      yields (bind (remove_loop fuel (root_of t) (cparent k) d) kont
                (mkState h hk)) Q.

(** ** The red/black invariants of a tree held by the heap *)

(** Every path from the root to an absent child counts the same number of
    BLACK nodes. *)
Definition uniform_black_height (t : tree) : Prop :=
  exists n, Forall (fun m => m = n) (black_counts t).

(** The keys of the nodes, read in order, are strictly ascending under the
    comparator of the caller: [key] gives the key stored with a node and
    [lt] is the strict order of the comparator. *)
Definition ascending {K : Type} (lt : K -> K -> Prop) (key : nat -> K)
  (t : tree) : Prop :=
  Sorted lt (map key (inorder t)).

(** The heap holds, below [root] and with consistent parent and child links,
    a tree in key order with a BLACK root, no RED node below a RED node, and
    one black height. *)
Definition rb_invariants {K : Type} (lt : K -> K -> Prop) (key : nat -> K)
  (h : gmap nat RBNode) (root : ptr) (t : tree) : Prop :=
  rep h t None /\ root_of t = root /\ ascending lt key t /\
  color_of t = BLACK /\ no_red_red t /\ uniform_black_height t.

(** The state [rebalance_after_insert] is called in: the node [x] has been
    linked as a RED leaf, at the place its key has in the order, into a tree
    that satisfied the invariants; [k] is the path from that place to the
    root. *)
Definition leaf_linked {K : Type} (lt : K -> K -> Prop) (key : nat -> K)
  (h : gmap nat RBNode) (k : list frame) (x : nat) : Prop :=
  zrep h k (T RED E x E) /\
  ascending lt key (plug k (T RED E x E)) /\
  color_of (plug k E) = BLACK /\ no_red_red (plug k E) /\
  uniform_black_height (plug k E).

(** The tree of [demo_heap]. *)
Definition demo_tree : tree :=
  T BLACK
    (T RED (T BLACK E 3 E) 5 (T BLACK (T RED E 6 E) 7 (T RED E 8 E)))
    10
    (T BLACK (T RED E 12 E) 15 E).

(** The demo tree with the node 1 linked as a RED leaf on the left of 3. *)
Definition linked_heap : gmap nat RBNode :=
  <[1 := mkNode RED (Some 3) None None]>
    (<[3 := mkNode BLACK (Some 5) (Some 1) None]> demo_heap).

(** The number of nodes on the longest path from the root to an absent
    child. *)
Fixpoint height (t : tree) : nat :=
  match t with
  | E => 0
  | T _ l _ r => S (Nat.max (height l) (height r))
  end.

(** ** Symbolic execution of the monad *)

Lemma bind_ret {A B} (a : A) (f : A -> M B) s : bind (ret a) f s = f a s.
Proof. reflexivity. Qed.

Lemma bind_bind {A B C} (m : M A) (f : A -> M B) (g : B -> M C) s :
  bind (bind m f) g s = bind m (fun a => bind (f a) g) s.
Proof. unfold bind. destruct (m s); reflexivity. Qed.

Lemma bind_load {B} x (f : RBNode -> M B) h k n :
  h !! x = Some n ->
  bind (load x) f (mkState h k) = f n (mkState h k).
Proof. intros H. unfold bind, load. simpl. rewrite H. reflexivity. Qed.

Lemma bind_get {B C} (g : RBNode -> C) x (f : C -> M B) h k n :
  h !! x = Some n ->
  bind (get g x) f (mkState h k) = f (g n) (mkState h k).
Proof.
  intros H. unfold get. rewrite bind_bind, (bind_load _ _ _ _ n H).
  reflexivity.
Qed.

Lemma bind_modify {B} x g (f : unit -> M B) h k n :
  h !! x = Some n ->
  bind (modify x g) f (mkState h k) = f tt (mkState (<[x := g n]> h) k).
Proof. intros H. unfold bind, modify. simpl. rewrite H. reflexivity. Qed.

Lemma bind_structure_fixup {B} x (f : unit -> M B) h k n :
  h !! x = Some n ->
  bind (structure_fixup x) f (mkState h k)
  = f tt (mkState h (k ++ [mkHook x (_parent n) (_left n) (_right n)])).
Proof.
  intros H. unfold bind, structure_fixup. simpl. rewrite H. reflexivity.
Qed.

Lemma bind_ret_r {A} (m : M A) s : bind m ret s = m s.
Proof. unfold bind. destruct (m s); reflexivity. Qed.

Lemma bind_deref {B} i (f : nat -> M B) s : bind (deref (Some i)) f s = f i s.
Proof. reflexivity. Qed.

#[global] Arguments bind : simpl never.
#[global] Arguments load : simpl never.
#[global] Arguments modify : simpl never.
#[global] Arguments get : simpl never.
#[global] Arguments structure_fixup : simpl never.

(** Resolution of a lookup in a heap built from updates. *)
Ltac solve_lookup :=
  repeat first
    [ rewrite lookup_insert_eq
    | rewrite lookup_insert_ne by congruence ];
  first [ eassumption | reflexivity ].

Ltac exec_unfold :=
  unfold color_is, color, child_at, set_child, clear_child, direction_of,
    set_color, set_parent, set_left, set_right.

Ltac exec_step :=
  first
    [ rewrite bind_bind
    | rewrite bind_ret
    | rewrite bind_deref
    | erewrite bind_get by solve_lookup
    | erewrite bind_load by solve_lookup
    | erewrite bind_modify by solve_lookup
    | erewrite bind_structure_fixup by solve_lookup ].

Ltac exec := repeat (exec_unfold; repeat exec_step; simpl).

(** ** Rotation *)

(** C5. [rotate] with direction NONE, or on a node whose opposite-direction
    child is absent, returns the node itself and leaves every colour, every
    link and the hook record as they were. *)
Theorem rotate_noop (this : nat) (dir : Direction) (s : State) (nd : RBNode) :
  heap s !! this = Some nd ->
  (forall p, _parent nd = Some p -> is_Some (heap s !! p)) ->
  dir = NONE \/ node_child nd (flip dir) = None ->
  rotate this dir s = Done this s.
Proof.
  intros Hthis Hpar Hno. destruct s as [h k]. simpl in *.
  rewrite <- bind_ret_r. unfold rotate.
  destruct nd as [c p l r]. simpl in *.
  assert (Hoc : dir <> NONE -> node_child (mkNode c p l r) (flip dir) = None)
    by (intros ?; destruct Hno; [congruence | assumption]).
  destruct p as [p|].
  - destruct (Hpar p eq_refl) as [np Hp].
    exec. destruct dir; simpl in *.
    + reflexivity.
    + rewrite Hoc by discriminate. reflexivity.
    + rewrite Hoc by discriminate. reflexivity.
  - exec. destruct dir; simpl in *.
    + reflexivity.
    + rewrite Hoc by discriminate. reflexivity.
    + rewrite Hoc by discriminate. reflexivity.
Qed.

(** Pointwise comparison of two heaps built from updates. *)
Ltac heap_eq :=
  apply map_eq; intros ?i;
  unfold alter_at;
  repeat first
    [ rewrite lookup_insert
    | rewrite lookup_alter
    | case_decide; subst; try congruence ];
  repeat match goal with
         | H : ?h !! ?i = Some _ |- context [?h !! ?i] => rewrite H
         end;
  simpl; repeat (case_decide; simpl in * ); try reflexivity; try congruence.

Lemma rotate_exec {B} (k : nat -> M B) h hk x dir c nx nc :
  dir <> NONE ->
  h !! x = Some nx ->
  node_child nx (flip dir) = Some c ->
  h !! c = Some nc ->
  x <> c ->
  (forall b, node_child nc dir = Some b ->
             b <> x /\ b <> c /\ _parent nx <> Some b /\ is_Some (h !! b)) ->
  (forall p, _parent nx = Some p -> p <> x /\ p <> c /\ is_Some (h !! p)) ->
  bind (rotate x dir) k (mkState h hk)
  = k c (mkState (rotated h x dir c nx nc)
           (hk ++ [mkHook c (_parent nc)
                           (_left (with_child dir (Some x) nc))
                           (_right (with_child dir (Some x) nc))]
               ++ [mkHook x (Some c)
                           (_left (with_child (flip dir) (node_child nc dir) nx))
                           (_right (with_child (flip dir) (node_child nc dir) nx))])).
Proof.
  intros Hdir Hx Hc Hnc Hxc Hb Hp.
  unfold rotate, rotated.
  destruct nx as [cx px lx rx], nc as [cc pc lc rc].
  destruct dir; [congruence | |]; simpl in Hc, Hb, Hp; subst.
  - (* toward LEFT: the right child comes up *)
    destruct px as [p|]; [destruct (Hp p eq_refl) as (? & ? & [np Hnp])|];
      (destruct lc as [b|]; [destruct (Hb b eq_refl) as (? & ? & ? & [nb Hnb])|]).
    all: exec.
    all: try (destruct np as [cp pp lp rp]; unfold node_direction; simpl;
              repeat case_decide; exec).
    all: f_equal; f_equal; [heap_eq | by rewrite <- app_assoc].
  - destruct px as [p|]; [destruct (Hp p eq_refl) as (? & ? & [np Hnp])|];
      (destruct rc as [b|]; [destruct (Hb b eq_refl) as (? & ? & ? & [nb Hnb])|]).
    all: exec.
    all: try (destruct np as [cp pp lp rp]; unfold node_direction; simpl;
              repeat case_decide; exec).
    all: f_equal; f_equal; [heap_eq | by rewrite <- app_assoc].
Qed.

Lemma rotate_noop_witness : rotate 15 LEFT demo = Done 15 demo.
Proof.
  apply (rotate_noop 15 LEFT demo (mkNode BLACK (Some 10) (Some 12) None)).
  - reflexivity.
  - intros p [= <-]. vm_compute. eauto.
  - right. reflexivity.
Defined.

Lemma lookup_alter_at_ne (h : gmap nat RBNode) p f i :
  p <> Some i -> alter_at p f h !! i = h !! i.
Proof.
  destruct p as [j|]; simpl; [|reflexivity].
  intros Hne. apply lookup_alter_ne. congruence.
Qed.

Lemma lookup_rotated_x h x dir c nx nc :
  x <> c -> _parent nx <> Some x ->
  rotated h x dir c nx nc !! x
  = Some (with_parent (Some c) (with_child (flip dir) (node_child nc dir) nx)).
Proof.
  intros Hxc Hp. unfold rotated.
  rewrite lookup_alter_at_ne by assumption.
  rewrite lookup_insert_ne by congruence.
  apply lookup_insert_eq.
Qed.

Lemma lookup_rotated_c h x dir c nx nc :
  _parent nx <> Some c ->
  rotated h x dir c nx nc !! c
  = Some (with_parent (_parent nx) (with_child dir (Some x) nc)).
Proof.
  intros Hp. unfold rotated.
  rewrite lookup_alter_at_ne by assumption.
  apply lookup_insert_eq.
Qed.




(** C8. Rotating a node toward [dir] and then the returned local root toward
    the opposite direction gives back the heap it started from: every
    parent, left and right link (and, beyond the claim, every colour) is as
    before, hence so is the in-order sequence below any node. *)
Theorem rotate_rotate_back (x : nat) (dir : Direction) (s : State)
  (c : nat) (nx nc : RBNode) :
  dir <> NONE ->
  heap s !! x = Some nx ->
  node_child nx (flip dir) = Some c ->
  heap s !! c = Some nc ->
  _parent nc = Some x ->
  x <> c ->
  (forall b, node_child nc dir = Some b ->
             b <> x /\ b <> c /\ _parent nx <> Some b /\
             exists nb, heap s !! b = Some nb /\ _parent nb = Some c) ->
  (forall p, _parent nx = Some p ->
             p <> x /\ p <> c /\
             exists np, heap s !! p = Some np /\
                        node_direction np (Some x) <> NONE /\
                        node_direction np (Some c) = NONE) ->
  exists s1 s2,
    rotate x dir s = Done c s1 /\
    rotate c (flip dir) s1 = Done x s2 /\
    heap s2 = heap s /\
    forall fuel r, inorder_from fuel (heap s2) r = inorder_from fuel (heap s) r.
Proof.
  intros Hdir Hx Hc Hnc Hpc Hxc Hb Hp. destruct s as [h hk]. simpl in *.
  assert (Hpx : _parent nx <> Some x) by (intros E; destruct (Hp _ E); tauto).
  assert (Hpcc : _parent nx <> Some c) by (intros E; destruct (Hp _ E); tauto).
  assert (Hfwd : exists k1, rotate x dir (mkState h hk)
                             = Done c (mkState (rotated h x dir c nx nc) k1)).
  { eexists. rewrite <- bind_ret_r.
    erewrite rotate_exec; try eassumption; [reflexivity| |].
    - intros b E. destruct (Hb b E) as (? & ? & ? & nb & ? & ?). eauto.
    - intros p E. destruct (Hp p E) as (? & ? & np & ? & ?). eauto. }
  assert (Hback : forall k0,
    exists s2, rotate c (flip dir)
             (mkState (rotated h x dir c nx nc) k0) = Done x s2 /\ heap s2 = h).
  { intros k0. eexists. split.
    - rewrite <- bind_ret_r. erewrite rotate_exec; [reflexivity | ..].
      + destruct dir; simpl; congruence.
      + apply lookup_rotated_c; assumption.
      + destruct nc, dir; simpl; congruence.
      + apply lookup_rotated_x; assumption.
      + congruence.
      + intros b E. assert (node_child nc dir = Some b) as E'
          by (destruct nx, nc, dir; simpl in *; congruence).
        destruct (Hb b E') as (? & ? & ? & nb & Hnb & ?).
        repeat split; try congruence.
        * destruct nx, nc, dir; simpl in *; congruence.
        * unfold rotated. rewrite lookup_alter_at_ne by congruence.
          rewrite !lookup_insert_ne by congruence.
          rewrite E'. simpl. rewrite lookup_alter_eq, Hnb. eauto.
      + intros p E. assert (_parent nx = Some p) as E'
          by (destruct nx, nc, dir; simpl in *; congruence).
        destruct (Hp p E') as (? & ? & np & Hnp & ? & ?).
        repeat split; try congruence.
        unfold rotated. rewrite E'. simpl. rewrite lookup_alter_eq.
        rewrite !lookup_insert_ne by congruence.
        destruct (node_child nc dir) as [b|] eqn:Eb; simpl.
        * destruct (Hb b eq_refl) as (? & ? & ? & _).
          rewrite lookup_alter_ne by congruence. rewrite Hnp. eauto.
        * rewrite Hnp. eauto.
    - simpl. unfold rotated.
      destruct nx as [cx px lx rx], nc as [cc pc lc rc]. simpl in *. subst pc.
      destruct px as [p|];
        [destruct (Hp p eq_refl) as (? & ? & [cp pp lp rp] & Hnp & Hd1 & Hd2)|].
      all: destruct dir; [congruence|..]; simpl in *; subst.
      all: try (destruct lc as [b|];
                [destruct (Hb b eq_refl) as (? & ? & ? & [cb pb lb rb] & Hnb & ?)|]).
      all: try (destruct rc as [b|];
                [destruct (Hb b eq_refl) as (? & ? & ? & [cb pb lb rb] & Hnb & ?)|]).
      all: simpl in *; subst.
      all: unfold node_direction in *; simpl in *.
      all: repeat case_decide; try congruence; subst.
      all: heap_eq. }
  destruct Hfwd as (k1 & Hfwd). destruct (Hback k1) as (s2 & Hr & Hh).
  exists (mkState (rotated h x dir c nx nc) k1), s2.
  split; [assumption|]. split; [assumption|]. split; [assumption|].
  intros fuel r. rewrite Hh. reflexivity.
Qed.

Lemma rotate_rotate_back_witness :
  exists s1 s2,
    rotate 5 LEFT demo = Done 7 s1 /\
    rotate 7 (flip LEFT) s1 = Done 5 s2 /\
    heap s2 = heap demo /\
    forall fuel r, inorder_from fuel (heap s2) r = inorder_from fuel (heap demo) r.
Proof.
  apply (rotate_rotate_back 5 LEFT demo 7
           (mkNode RED (Some 10) (Some 3) (Some 7))
           (mkNode BLACK (Some 5) (Some 6) (Some 8))).
  - discriminate.
  - reflexivity.
  - reflexivity.
  - reflexivity.
  - reflexivity.
  - lia.
  - intros b [= <-]. repeat split; try lia; try discriminate.
    exists (mkNode RED (Some 7) None None). split; reflexivity.
  - intros p [= <-]. repeat split; try lia.
    exists (mkNode BLACK None (Some 5) (Some 15)). repeat split.
    discriminate.
Defined.

(** ** Linking a child *)




(** ** Replacing a node *)

Lemma replace_with_exec {B} (k : unit -> M B) h hk t n nt nn :
  h !! t = Some nt ->
  h !! n = Some nn ->
  t <> n ->
  (forall p, _parent nt = Some p -> p <> t /\ p <> n /\ is_Some (h !! p)) ->
  (forall c, _left nt = Some c \/ _right nt = Some c ->
             c <> t /\ _parent nt <> Some c /\ is_Some (h !! c)) ->
  bind (replace_with t n) k (mkState h hk)
  = k tt (mkState (replaced h t n nt) hk).
Proof.
  intros Ht Hn Htn Hp Hc. unfold replace_with, replaced.
  destruct nt as [ct pt lt rt], nn as [cn pn ln rn]. simpl in *.
  destruct pt as [p|];
    [destruct (Hp p eq_refl) as (? & ? & [[cp pp lp rp] Hnp])|].
  all: (destruct lt as [l|];
        [destruct (Hc l (or_introl eq_refl)) as (? & ? & [[cl pl ll rl] Hnl])|]).
  all: (destruct rt as [r|];
        [destruct (Hc r (or_intror eq_refl)) as (? & ? & [[cr pr lr rr] Hnr])|]).
  all: try (destruct (decide (l = r)); [simplify_eq|]).
  all: repeat (exec; unfold other_than, node_direction; simpl;
               try (case_decide; simplify_eq)).
  all: f_equal; f_equal; unfold node_direction; heap_eq.
Qed.





(** ** Rippling the hook to the root *)

Lemma last_nonempty_default {A} (a : A) (l : list A) (d1 d2 : A) :
  List.last (a :: l) d1 = List.last (a :: l) d2.
Proof.
  revert a. induction l as [|b l IH]; intros a; [reflexivity|].
  change (List.last (b :: l) d1 = List.last (b :: l) d2). apply IH.
Qed.

Lemma ripple_loop_exec {B} (k : nat -> M B) fuel h hk x l root0 :
  path_to_root fuel h x = Some l ->
  bind (ripple_loop fuel root0 (Some x)) k (mkState h hk)
  = k (List.last l x) (mkState h (hk ++ map (hook_of h) l)).
Proof.
  revert hk x l root0. induction fuel as [|fuel IH]; intros hk x l root0 Hl.
  - discriminate.
  - simpl in Hl. destruct (h !! x) as [nd|] eqn:Hx; [|discriminate].
    simpl. exec.
    destruct (_parent nd) as [p|] eqn:Hp.
    + destruct (path_to_root fuel h p) as [l'|] eqn:Hl'; [|discriminate].
      injection Hl as <-. rewrite (IH _ _ _ _ Hl').
      simpl. unfold hook_of at 2. rewrite Hx, <- app_assoc. simpl.
      rewrite ?Hp.
      destruct l'; [destruct fuel; simpl in Hl'; [discriminate|];
                    destruct (h !! p) as [np|]; [|discriminate];
                    destruct (_parent np); [|discriminate];
                    destruct (path_to_root fuel h n); discriminate|].
      f_equal. apply last_nonempty_default.
    + injection Hl as <-. simpl. unfold hook_of. rewrite Hx, ?Hp.
      destruct fuel; reflexivity.
Qed.

(** C6. With removed colour RED, [rebalance_after_remove] leaves every
    colour and every link as it was: it only runs the hook on the anchor and
    on each of its ancestors, bottom-up, and returns the root. *)
Theorem rebalance_after_remove_red (fuel : nat) (this : nat) (d : Direction)
  (s : State) (l : list nat) :
  path_to_root fuel (heap s) this = Some l ->
  rebalance_after_remove fuel this RED d s
  = Done (List.last l this)
      (mkState (heap s) (hooks s ++ map (hook_of (heap s)) l)).
Proof.
  intros Hl. destruct s as [h hk]. simpl in *.
  unfold rebalance_after_remove. simpl.
  rewrite bind_ret. unfold ripple_structure_fixup.
  rewrite <- bind_ret_r. rewrite (ripple_loop_exec _ _ _ _ _ _ _ Hl).
  reflexivity.
Qed.

Lemma rebalance_after_remove_red_witness :
  rebalance_after_remove 4 6 RED LEFT demo
  = Done (List.last [6; 7; 5; 10] 6)
      (mkState (heap demo) (hooks demo ++ map (hook_of (heap demo)) [6; 7; 5; 10])).
Proof.
  apply (rebalance_after_remove_red 4 6 LEFT demo [6; 7; 5; 10]).
  reflexivity.
Defined.

(** ** The diagnostic *)

(** C9, as the code has it.  The recursive check is compiled out: [validate]
    returns 0 on every node of every heap, reports no finding and changes
    nothing. *)
Theorem validate_inert (this : nat) (s : State) :
  validate this s = Done (0%Z, []) s.
Proof. reflexivity. Qed.

(** C9, as stated (defective trees are reported and told apart from valid
    ones), fails: the tree of [defective_heap] has the red node 3 below the
    red node 5 and unequal black heights under 10, and [validate] answers on
    it exactly as on the valid demo tree, with no finding. *)
Lemma validate_detects_counterexample :
  (exists n5 n3, defective_heap !! 5 = Some n5 /\ _color n5 = RED /\
                 _left n5 = Some 3 /\
                 defective_heap !! 3 = Some n3 /\ _color n3 = RED) /\
  (exists r f s', validate 10 (mkState defective_heap []) = Done (r, f) s' /\
                  f = [] /\
                  exists s'', validate 10 demo = Done (r, f) s'').
Proof.
  split.
  - exists (mkNode RED (Some 10) (Some 3) None), (mkNode RED (Some 5) (Some 2) None).
    repeat split; reflexivity.
  - eexists _, _, _. split; [reflexivity|]. split; [reflexivity|].
    eexists. reflexivity.
Qed.

(** ** Removal: the colour handed to the rebalancing *)

Lemma bind_Done_inv {A B} (m : M A) (k : A -> M B) s b s' :
  bind m k s = Done b s' ->
  exists a s1, m s = Done a s1 /\ k a s1 = Done b s'.
Proof.
  unfold bind. destruct (m s) as [a s1| |]; [eauto|discriminate..].
Qed.

Lemma get_Done_inv {A} (f : RBNode -> A) x s a s' :
  get f x s = Done a s' ->
  s' = s /\ exists nd, heap s !! x = Some nd /\ a = f nd.
Proof.
  unfold get, bind, load. destruct (heap s !! x) as [nd|]; [|discriminate].
  intros [= <- <-]. eauto.
Qed.

Lemma left_most_descendant_pure fuel n s r s' :
  left_most_descendant fuel n s = Done r s' -> s' = s.
Proof.
  revert n. induction fuel as [|fuel IH]; intros n H; simpl in H.
  - apply bind_Done_inv in H as (l & s1 & Hg & H).
    apply get_Done_inv in Hg as (-> & _).
    destruct l; [discriminate|]. injection H as _ <-. reflexivity.
  - apply bind_Done_inv in H as (l & s1 & Hg & H).
    apply get_Done_inv in Hg as (-> & _).
    destruct l; [eauto|]. injection H as _ <-. reflexivity.
Qed.

Lemma remove_target_pure fuel this s r s' :
  remove_target fuel this s = Done r s' -> s' = s.
Proof.
  unfold remove_target. intros H.
  apply bind_Done_inv in H as (l & s1 & Hg & H).
  apply get_Done_inv in Hg as (-> & _).
  apply bind_Done_inv in H as (r0 & s1 & Hg & H).
  apply get_Done_inv in Hg as (-> & _).
  destruct l, r0; try (injection H as _ <-; reflexivity).
  eapply left_most_descendant_pure; eassumption.
Qed.

(** The colour in the triple that lines 204-242 of [remove] compute: the
    original colour of the promoted child when the detached node has a
    child (and the direction is then NONE), and the colour of the detached
    node itself when it has none. *)
Lemma remove_splice_color (fuel : nat) (this : nat) (s s' : State)
  (splice_node : nat) (remove_color : Color) (d : Direction) :
  remove_splice fuel this s = Done (splice_node, remove_color, d) s' ->
  exists remove_node nr,
    remove_target fuel this s = Done remove_node s /\
    heap s !! remove_node = Some nr /\
    match promoted_child nr with
    | Some child =>
        exists nc, heap s !! child = Some nc /\
                   remove_color = _color nc /\ d = NONE
    | None => remove_color = _color nr
    end.
Proof.
  unfold remove_splice. intros H.
  apply bind_Done_inv in H as (remove_node & s1 & Ht & H).
  pose proof (remove_target_pure _ _ _ _ _ Ht) as ->.
  apply bind_Done_inv in H as (c0 & s1 & Hg & H).
  apply get_Done_inv in Hg as (-> & nr & Hnr & ->).
  apply bind_Done_inv in H as (rl & s1 & Hg & H).
  apply get_Done_inv in Hg as (-> & nr' & Hnr' & ->).
  apply bind_Done_inv in H as (rr & s1 & Hg & H).
  apply get_Done_inv in Hg as (-> & nr'' & Hnr'' & ->).
  assert (nr' = nr) as -> by congruence.
  assert (nr'' = nr) as -> by congruence.
  exists remove_node, nr. split; [assumption|]. split; [assumption|].
  apply bind_Done_inv in H as ([[sp c] d0] & s1 & Hbranch & H).
  assert (c = remove_color /\ d0 = d) as [-> ->].
  { destruct (decide (remove_node = this)).
    - injection H as _ <- <- _. auto.
    - apply bind_Done_inv in H as (? & ? & _ & H).
      injection H as _ <- <- _. auto. }
  unfold promoted_child.
  destruct (_left nr) as [sl|] eqn:El.
  - apply bind_Done_inv in Hbranch as (c & s2 & Hg & Hbranch).
    apply get_Done_inv in Hg as (-> & nc & Hnc & ->).
    apply bind_Done_inv in Hbranch as (? & ? & _ & Hbranch).
    injection Hbranch as _ <- <- _. eauto.
  - destruct (_right nr) as [sr|] eqn:Er.
    + apply bind_Done_inv in Hbranch as (c & s2 & Hg & Hbranch).
      apply get_Done_inv in Hg as (-> & nc & Hnc & ->).
      apply bind_Done_inv in Hbranch as (? & ? & _ & Hbranch).
      injection Hbranch as _ <- <- _. eauto.
    + apply bind_Done_inv in Hbranch as (pp & s2 & Hg & Hbranch).
      apply get_Done_inv in Hg as (-> & np & Hnp & ->).
      apply bind_Done_inv in Hbranch as (? & ? & _ & Hbranch).
      apply bind_Done_inv in Hbranch as (? & ? & _ & Hbranch).
      apply bind_Done_inv in Hbranch as (? & ? & _ & Hbranch).
      injection Hbranch as _ <- _ _. reflexivity.
Qed.

Set Warnings "-clear-no-such-hyp".

(** ** Trees and contexts *)

Lemma inorder_fill f t :
  inorder (fill f t)
  = match f with
    | FL _ x r => inorder t ++ x :: inorder r
    | FR _ l x => inorder l ++ x :: inorder t
    end.
Proof. destruct f; reflexivity. Qed.

Lemma inorder_plug k t :
  inorder (plug k t) = cin_l k ++ inorder t ++ cin_r k.
Proof.
  revert t. induction k as [|f up IH]; intros t; simpl.
  - rewrite app_nil_r. reflexivity.
  - rewrite IH. destruct f; simpl; rewrite <- ?app_assoc; simpl;
      rewrite <- ?app_assoc; reflexivity.
Qed.

Lemma root_of_elem t x : root_of t = Some x -> x ∈ inorder t.
Proof. destruct t; simpl; [discriminate|]. intros [= ->]. set_solver. Qed.

Lemma root_of_fill f t : root_of (fill f t) = Some (frame_node f).
Proof. destruct f; reflexivity. Qed.

(** *** Heap updates away from a tree *)

Lemma rep_insert h t par x v :
  x ∉ inorder t -> rep (<[x := v]> h) t par <-> rep h t par.
Proof.
  revert par. induction t as [|c l IHl y r IHr]; intros par Hx; simpl; [tauto|].
  simpl in Hx. rewrite elem_of_app, elem_of_cons in Hx.
  rewrite lookup_insert_ne by tauto.
  rewrite IHl, IHr by tauto. tauto.
Qed.

Lemma rep_alter h t par x f :
  x ∉ inorder t -> rep (alter f x h) t par <-> rep h t par.
Proof.
  revert par. induction t as [|c l IHl y r IHr]; intros par Hx; simpl; [tauto|].
  simpl in Hx. rewrite elem_of_app, elem_of_cons in Hx.
  rewrite lookup_alter_ne by tauto.
  rewrite IHl, IHr by tauto. tauto.
Qed.

Lemma rep_alter_at h t par p f :
  (forall x, p = Some x -> x ∉ inorder t) ->
  rep (alter_at p f h) t par <-> rep h t par.
Proof.
  destruct p as [x|]; simpl; [|tauto]. intros H. apply rep_alter. auto.
Qed.

Lemma frep_insert h f hole par x v :
  x <> frame_node f ->
  x ∉ inorder (fill f E) ->
  frep (<[x := v]> h) f hole par <-> frep h f hole par.
Proof.
  destruct f; simpl; intros Hne Hx;
    rewrite lookup_insert_ne by congruence; rewrite rep_insert; set_solver.
Qed.

Lemma crep_insert h k hole x v :
  x ∉ (cin_l k ++ cin_r k) ->
  crep (<[x := v]> h) k hole <-> crep h k hole.
Proof.
  revert hole. induction k as [|f up IH]; intros hole Hx; simpl; [tauto|].
  rewrite IH by (destruct f; simpl in Hx; set_solver).
  rewrite frep_insert; [tauto| |]; destruct f; simpl in *; set_solver.
Qed.

Lemma crep_alter h k hole x f :
  x ∉ (cin_l k ++ cin_r k) ->
  crep (alter f x h) k hole <-> crep h k hole.
Proof.
  revert hole. induction k as [|fr up IH]; intros hole Hx; simpl; [tauto|].
  rewrite IH by (destruct fr; simpl in Hx; set_solver).
  destruct fr; simpl in *;
    rewrite lookup_alter_ne by set_solver; rewrite rep_alter by set_solver; tauto.
Qed.

Lemma crep_alter_at h k hole p f :
  (forall x, p = Some x -> x ∉ (cin_l k ++ cin_r k)) ->
  crep (alter_at p f h) k hole <-> crep h k hole.
Proof.
  destruct p as [x|]; simpl; [|tauto]. intros H. apply crep_alter. auto.
Qed.

(** The whole tree seen from the focus. *)
Lemma rep_plug h k t :
  rep h (plug k t) None <-> rep h t (cparent k) /\ crep h k (root_of t).
Proof.
  revert t. induction k as [|f up IH]; intros t; simpl; [tauto|].
  rewrite IH. destruct f; simpl; tauto.
Qed.

Lemma zrep_plug h k t :
  zrep h k t <-> rep h (plug k t) None /\ NoDup (inorder (plug k t)).
Proof. unfold zrep. rewrite rep_plug, inorder_plug. tauto. Qed.

(** Moving the focus up and down. *)
Lemma zrep_up h f up t : zrep h (f :: up) t <-> zrep h up (fill f t).
Proof. rewrite !zrep_plug. reflexivity. Qed.

(** Distinctness facts out of a duplicate-free in-order sequence. *)
Ltac nodup_facts H :=
  repeat first [ rewrite NoDup_app in H | rewrite NoDup_cons in H
               | rewrite elem_of_app in H | rewrite elem_of_cons in H ].

Lemma rep_root_lookup h t par x :
  rep h t par -> root_of t = Some x -> exists nd, h !! x = Some nd /\ _parent nd = par.
Proof.
  destruct t; simpl; [discriminate|]. intros (H & _) [= ->]. eauto.
Qed.

Lemma crep_parent_lookup h k hole p :
  crep h k hole -> cparent k = Some p -> exists nd, h !! p = Some nd.
Proof.
  destruct k as [|[]]; simpl; [discriminate|..]; intros ((H & _) & _) [= <-]; eauto.
Qed.

(** Giving the root of a tree a new parent. *)
Lemma rep_reroot h t par q :
  NoDup (inorder t) ->
  rep h t par ->
  rep (alter_at (root_of t) (with_parent q) h) t q.
Proof.
  destruct t as [|c l x r]; simpl; [tauto|].
  intros Hnd (Hx & Hl & Hr). nodup_facts Hnd.
  rewrite lookup_alter_eq, Hx. simpl.
  rewrite !rep_alter by set_solver. tauto.
Qed.

(** Pointing the innermost frame of a context at a new subtree root. *)
Lemma crep_rehole h k x c :
  NoDup (cin_l k ++ x :: cin_r k) ->
  crep h k (Some x) ->
  crep (alter_at (cparent k)
          (fun np => with_child (node_direction np (Some x)) (Some c) np) h)
    k (Some c).
Proof.
  destruct k as [|f up]; simpl; [tauto|].
  intros Hnd (Hf & Hup).
  rewrite crep_alter by (destruct f; simpl in *; nodup_facts Hnd; set_solver).
  split; [|assumption].
  destruct f as [cp p r|cp l p]; simpl in *; destruct Hf as (Hp & Hr).
  - rewrite lookup_alter_eq, Hp. simpl. unfold node_direction. simpl.
    rewrite decide_True by done. simpl.
    rewrite rep_alter by (nodup_facts Hnd; set_solver). tauto.
  - rewrite lookup_alter_eq, Hp. simpl. unfold node_direction. simpl.
    assert (Some x <> root_of l).
    { intros E. symmetry in E. apply root_of_elem in E.
      nodup_facts Hnd. set_solver. }
    rewrite decide_False by assumption. rewrite decide_True by done. simpl.
    rewrite rep_alter by (nodup_facts Hnd; set_solver). tauto.
Qed.

Lemma cparent_elem k p : cparent k = Some p -> p ∈ (cin_l k ++ cin_r k).
Proof.
  destruct k as [|[]]; simpl; [discriminate|..]; intros [= <-]; set_solver.
Qed.

(** Closing a distinctness goal from unfolded duplicate-freeness. *)
Tactic Notation "nd_solve" hyp(H) := solve [clear -H; set_solver].
Tactic Notation "nd_solve" hyp(H) hyp(H1) := solve [clear -H H1; set_solver].
Tactic Notation "nd_solve" hyp(H) hyp(H1) hyp(H2) :=
  solve [clear -H H1 H2; set_solver].

(** *** Rotation of the focused subtree *)

Lemma rotate_left_zrep h hk k cx a x cc b c d :
  zrep h k (T cx a x (T cc b c d)) ->
  exists h' hk',
    (forall B (kont : nat -> M B),
        bind (rotate x LEFT) kont (mkState h hk) = kont c (mkState h' hk')) /\
    zrep h' k (T cc (T cx a x b) c d).
Proof.
  intros (Hrep & Hcrep & Hnd). simpl in Hrep, Hnd.
  destruct Hrep as (Hx & Ha & Hc & Hb & Hd).
  pose proof Hnd as N. nodup_facts N.
  set (nx := mkNode cx (cparent k) (root_of a) (Some c)) in *.
  set (nc := mkNode cc (Some x) (root_of b) (root_of d)) in *.
  assert (Hpar : forall p, cparent k = Some p ->
                           p <> x /\ p <> c /\ (p ∉ inorder a) /\
                           (p ∉ inorder b) /\ (p ∉ inorder d)).
  { intros p Hp. apply cparent_elem in Hp. rewrite elem_of_app in Hp.
    repeat split; nd_solve N Hp. }
  assert (Hbi : forall i, root_of b = Some i ->
                          i <> x /\ i <> c /\ (i ∉ inorder a) /\
                          (i ∉ inorder d) /\ (i ∉ (cin_l k ++ cin_r k))).
  { intros i Hi. apply root_of_elem in Hi. rewrite elem_of_app.
    repeat split; nd_solve N Hi. }
  assert (Hxc : x <> c) by nd_solve N.
  exists (rotated h x LEFT c nx nc). eexists. split.
  { intros B kont. apply rotate_exec; try assumption; try done.
    - simpl. intros bi Hi. destruct (Hbi bi Hi) as (? & ? & ? & ? & Hk).
      destruct (rep_root_lookup _ _ _ _ Hb Hi) as (nb & Hnb & _).
      repeat split; eauto.
      intros E. apply cparent_elem in E. contradiction.
    - simpl. intros p Hp.
      destruct (crep_parent_lookup _ _ _ _ Hcrep Hp) as (np & Hnp).
      destruct (Hpar p Hp) as (? & ? & _). eauto. }
  assert (Hpx : cparent k <> Some x) by (intros E; destruct (Hpar _ E); tauto).
  assert (Hpc : cparent k <> Some c) by (intros E; destruct (Hpar _ E); tauto).
  assert (Hfa : rep (rotated h x LEFT c nx nc) a (Some x)).
  { unfold rotated. simpl.
    rewrite rep_alter_at by (intros i Hi; apply Hpar in Hi; tauto).
    rewrite !rep_insert by nd_solve N.
    rewrite rep_alter_at by (intros i Hi; apply Hbi in Hi; tauto).
    assumption. }
  assert (Hfd : rep (rotated h x LEFT c nx nc) d (Some c)).
  { unfold rotated. simpl.
    rewrite rep_alter_at by (intros i Hi; apply Hpar in Hi; tauto).
    rewrite !rep_insert by nd_solve N.
    rewrite rep_alter_at by (intros i Hi; apply Hbi in Hi; tauto).
    assumption. }
  assert (Hfb : rep (rotated h x LEFT c nx nc) b (Some x)).
  { unfold rotated. simpl.
    rewrite rep_alter_at by (intros i Hi; apply Hpar in Hi; tauto).
    rewrite !rep_insert by nd_solve N.
    eapply rep_reroot; [tauto|eassumption]. }
  split; [|split].
  - simpl. rewrite lookup_rotated_c, lookup_rotated_x by assumption.
    simpl. tauto.
  - unfold rotated. simpl. apply crep_rehole.
    + apply NoDup_app. split; [tauto|]. split.
      * intros i Hi. rewrite elem_of_cons. nd_solve N Hi.
      * apply NoDup_cons. split; [nd_solve N|tauto].
    + rewrite !crep_insert by (rewrite elem_of_app; nd_solve N).
      rewrite crep_alter_at by (intros i Hi; apply Hbi in Hi; tauto).
      assumption.
  - simpl. rewrite <- !app_assoc in *. simpl in *. rewrite <- !app_assoc in *.
    exact Hnd.
Qed.

Lemma rotate_right_zrep h hk k cx a x cc b c d :
  zrep h k (T cx (T cc a c b) x d) ->
  exists h' hk',
    (forall B (kont : nat -> M B),
        bind (rotate x RIGHT) kont (mkState h hk) = kont c (mkState h' hk')) /\
    zrep h' k (T cc a c (T cx b x d)).
Proof.
  intros (Hrep & Hcrep & Hnd). simpl in Hrep, Hnd.
  destruct Hrep as (Hx & (Hc & Ha & Hb) & Hd).
  pose proof Hnd as N. nodup_facts N.
  set (nx := mkNode cx (cparent k) (Some c) (root_of d)) in *.
  set (nc := mkNode cc (Some x) (root_of a) (root_of b)) in *.
  assert (Hpar : forall p, cparent k = Some p ->
                           p <> x /\ p <> c /\ (p ∉ inorder a) /\
                           (p ∉ inorder b) /\ (p ∉ inorder d)).
  { intros p Hp. apply cparent_elem in Hp. rewrite elem_of_app in Hp.
    repeat split; nd_solve N Hp. }
  assert (Hbi : forall i, root_of b = Some i ->
                          i <> x /\ i <> c /\ (i ∉ inorder a) /\
                          (i ∉ inorder d) /\ (i ∉ (cin_l k ++ cin_r k))).
  { intros i Hi. apply root_of_elem in Hi. rewrite elem_of_app.
    repeat split; nd_solve N Hi. }
  assert (Hxc : x <> c) by nd_solve N.
  exists (rotated h x RIGHT c nx nc). eexists. split.
  { intros B kont. apply rotate_exec; try assumption; try done.
    - simpl. intros bi Hi. destruct (Hbi bi Hi) as (? & ? & ? & ? & Hk).
      destruct (rep_root_lookup _ _ _ _ Hb Hi) as (nb & Hnb & _).
      repeat split; eauto.
      intros E. apply cparent_elem in E. contradiction.
    - simpl. intros p Hp.
      destruct (crep_parent_lookup _ _ _ _ Hcrep Hp) as (np & Hnp).
      destruct (Hpar p Hp) as (? & ? & _). eauto. }
  assert (Hpx : cparent k <> Some x) by (intros E; destruct (Hpar _ E); tauto).
  assert (Hpc : cparent k <> Some c) by (intros E; destruct (Hpar _ E); tauto).
  assert (Hfa : rep (rotated h x RIGHT c nx nc) a (Some c)).
  { unfold rotated. simpl.
    rewrite rep_alter_at by (intros i Hi; apply Hpar in Hi; tauto).
    rewrite !rep_insert by nd_solve N.
    rewrite rep_alter_at by (intros i Hi; apply Hbi in Hi; tauto).
    assumption. }
  assert (Hfd : rep (rotated h x RIGHT c nx nc) d (Some x)).
  { unfold rotated. simpl.
    rewrite rep_alter_at by (intros i Hi; apply Hpar in Hi; tauto).
    rewrite !rep_insert by nd_solve N.
    rewrite rep_alter_at by (intros i Hi; apply Hbi in Hi; tauto).
    assumption. }
  assert (Hfb : rep (rotated h x RIGHT c nx nc) b (Some x)).
  { unfold rotated. simpl.
    rewrite rep_alter_at by (intros i Hi; apply Hpar in Hi; tauto).
    rewrite !rep_insert by nd_solve N.
    eapply rep_reroot; [tauto|eassumption]. }
  split; [|split].
  - simpl. rewrite lookup_rotated_c, lookup_rotated_x by assumption.
    simpl. tauto.
  - unfold rotated. simpl. apply crep_rehole.
    + apply NoDup_app. split; [tauto|]. split.
      * intros i Hi. rewrite elem_of_cons. nd_solve N Hi.
      * apply NoDup_cons. split; [nd_solve N|tauto].
    + rewrite !crep_insert by (rewrite elem_of_app; nd_solve N).
      rewrite crep_alter_at by (intros i Hi; apply Hbi in Hi; tauto).
      assumption.
  - simpl. rewrite <- !app_assoc in *. simpl in *. rewrite <- !app_assoc in *.
    exact Hnd.
Qed.

(** *** Distinctness of the nodes written out in a tree *)

Lemma NoDup_mid {A} (l1 : list A) x l2 :
  NoDup (l1 ++ x :: l2) -> (x ∉ l1) /\ (x ∉ l2).
Proof.
  rewrite NoDup_app, NoDup_cons. intros (_ & H & ? & _). split; [|assumption].
  intros Hx. apply (H x Hx). left.
Qed.

Ltac list_normal_in H :=
  repeat first [ rewrite <- app_assoc in H | rewrite <- app_comm_cons in H
               | rewrite app_nil_l in H | rewrite app_nil_r in H ].

Ltac list_normal :=
  repeat first [ rewrite <- app_assoc | rewrite <- app_comm_cons
               | rewrite app_nil_l | rewrite app_nil_r ].

(** For each element written out in a duplicate-free list, record that it
    differs from the other elements and lies outside the other segments. *)
Ltac nd_atoms_go H pre L :=
  lazymatch L with
  | ?a ++ ?rest => nd_atoms_go H (pre ++ a) rest
  | ?x :: ?rest =>
      let F := fresh "Hnd" in
      assert (F : (x ∉ pre) /\ (x ∉ rest))
        by (apply NoDup_mid; list_normal; exact H);
      repeat first [ rewrite not_elem_of_app in F
                   | rewrite not_elem_of_cons in F ];
      destruct_and? F;
      nd_atoms_go H (pre ++ [x]) rest
  | _ => idtac
  end.

Ltac nd_atoms H :=
  list_normal_in H;
  lazymatch type of H with
  | NoDup ?L => nd_atoms_go H (@nil nat) L
  end.

Lemma crep_insert' h k hole x v :
  x ∉ cin_l k -> x ∉ cin_r k ->
  crep (<[x := v]> h) k hole <-> crep h k hole.
Proof. intros. apply crep_insert. rewrite not_elem_of_app. tauto. Qed.

(** The facts a focused representation consists of. *)
Ltac zrep_lookups Hz :=
  let R := fresh "R" in
  let C := fresh "C" in
  pose proof Hz as (R & C & _);
  simpl in R, C; destruct_and? R; destruct_and? C.

Ltac zrep_facts Hz :=
  let N := fresh "Hnodup" in
  zrep_lookups Hz;
  pose proof Hz as (_ & _ & N);
  simpl in N; nd_atoms N.

(** Lookup in a heap of updates on named nodes, with the distinctness facts
    at hand. *)
Ltac zlookup :=
  repeat first
    [ rewrite lookup_insert_eq
    | rewrite lookup_insert_ne by (first [assumption | congruence]) ];
  first [ eassumption | reflexivity ].

Lemma root_of_ne t x : x ∉ inorder t -> root_of t <> Some x.
Proof. intros H E. apply H. apply root_of_elem. assumption. Qed.

Lemma root_of_ne' t x : x ∉ inorder t -> Some x <> root_of t.
Proof. intros H E. apply H. apply root_of_elem. congruence. Qed.

Lemma cparent_ne k x : x ∉ cin_l k -> x ∉ cin_r k -> cparent k <> Some x.
Proof.
  intros H1 H2 E. apply cparent_elem in E. rewrite elem_of_app in E. tauto.
Qed.

Lemma node_direction_left c par l r x :
  l = Some x -> node_direction (mkNode c par l r) (Some x) = LEFT.
Proof. intros ->. unfold node_direction. simpl. rewrite decide_True; done. Qed.

Lemma node_direction_right c par l r x :
  l <> Some x -> r = Some x -> node_direction (mkNode c par l r) (Some x) = RIGHT.
Proof.
  intros Hl ->. unfold node_direction. simpl.
  rewrite decide_False by congruence. rewrite decide_True; done.
Qed.

(** Two pointers differ. *)
Ltac zne :=
  first [ assumption | congruence
        | apply root_of_ne; assumption
        | apply root_of_ne'; assumption
        | apply cparent_ne; assumption ].

Ltac zexec_step :=
  first
    [ rewrite bind_bind
    | rewrite bind_ret
    | rewrite bind_deref
    | erewrite bind_get by zlookup
    | erewrite bind_load by zlookup
    | erewrite bind_modify by zlookup
    | erewrite bind_structure_fixup by zlookup
    | rewrite node_direction_left by reflexivity
    | rewrite node_direction_right by (first [reflexivity | zne])
    | rewrite decide_True by reflexivity
    | rewrite decide_False by zne ].

Ltac zexec :=
  repeat (exec_unfold; repeat zexec_step; simpl;
          cbn [with_color with_parent with_left with_right with_child
               _color _parent _left _right]).

(** A focused representation on a heap of updates, from the facts of the
    representation before the updates. *)
Ltac zrep_solve :=
  unfold zrep; simpl;
  repeat match goal with
         | |- _ /\ _ => split
         | |- True => exact I
         | |- _ !! _ = Some _ => solve [zlookup]
         | |- rep _ _ _ => rewrite ?rep_insert by assumption; assumption
         | |- crep _ _ _ => rewrite ?crep_insert' by assumption; assumption
         | |- NoDup _ => list_normal; assumption
         end.

(** Running a rotation whose target is the root of the focused subtree
    [t0] in context [k0]. *)
Ltac zrotate k0 t0 :=
  lazymatch goal with
  | |- yields (bind (rotate ?x ?dir) _ (mkState ?H ?hk)) _ =>
      let Hz0 := fresh "Hz" in
      let Hz1 := fresh "Hz" in
      let h1 := fresh "h" in
      let hk1 := fresh "hk" in
      let Hexec := fresh "Hexec" in
      assert (Hz0 : zrep H k0 t0) by zrep_solve;
      lazymatch dir with
      | LEFT =>
          destruct (rotate_left_zrep _ hk _ _ _ _ _ _ _ _ Hz0)
            as (h1 & hk1 & Hexec & Hz1)
      | RIGHT =>
          destruct (rotate_right_zrep _ hk _ _ _ _ _ _ _ _ Hz0)
            as (h1 & hk1 & Hexec & Hz1)
      end;
      rewrite Hexec; clear Hexec Hz0;
      zrep_lookups Hz1
  end.

(** ** The insertion walk refines its tree version *)

Lemma insert_loop_unfold fuel xi :
  insert_loop fuel (Some xi)
  = (xp <- get _parent xi ;;
     red <- color_is xp RED ;;
     if negb red then ret tt
     else
       match fuel with
       | 0 => timeout
       | S fuel' =>
           p <- deref xp ;;
           pp <- get _parent p ;;
           match pp with
           | None => ret tt
           | Some g =>
               child_dir <- direction_of g (Some p) ;;
               let other_dir := flip child_dir in
               y <- child_at g other_dir ;;
               yred <- color_is y RED ;;
               if yred then
                 set_color p BLACK ;;;
                 yi <- deref y ;;
                 set_color yi BLACK ;;;
                 set_color g RED ;;;
                 insert_loop fuel' (Some g)
               else
                 pc <- child_at p other_dir ;;
                 x' <- (if decide (pc = Some xi)
                        then rotate p child_dir ;;; ret p
                        else ret xi) ;;
                 p1 <- get _parent x' ;;
                 p1 <- deref p1 ;;
                 set_color p1 BLACK ;;;
                 p2 <- get _parent x' ;;
                 p2 <- deref p2 ;;
                 g2 <- get _parent p2 ;;
                 g2 <- deref g2 ;;
                 set_color g2 RED ;;;
                 p3 <- get _parent x' ;;
                 p3 <- deref p3 ;;
                 g3 <- get _parent p3 ;;
                 g3 <- deref g3 ;;
                 rotate g3 other_dir ;;;
                 insert_loop fuel' (Some x')
           end
       end).
Proof. destruct fuel; reflexivity. Qed.

Lemma yields_exit {B} (kont : unit -> M B) Q h hk res t :
  (forall h' hk', rep h' res None -> yields (kont tt (mkState h' hk')) Q) ->
  rep h t None -> Some t = Some res ->
  yields (kont tt (mkState h hk)) Q.
Proof. intros HQ Hrep [= <-]. apply HQ. assumption. Qed.

Lemma zrep_rep h k t : zrep h k t -> rep h (plug k t) None.
Proof. rewrite zrep_plug. tauto. Qed.

Lemma insert_loop_refines fuel :
  forall k t x h hk res,
    root_of t = Some x ->
    zrep h k t ->
    ins_fix fuel k t = Some res ->
    forall B (kont : unit -> M B) Q,
      (forall h' hk', rep h' res None -> yields (kont tt (mkState h' hk')) Q) ->
      yields (bind (insert_loop fuel (Some x)) kont (mkState h hk)) Q.
Proof.
  induction fuel as [|fuel IH]; intros k t x h hk res Hroot Hz Hfix B kont Q HQ;
    (destruct t as [|xc xl x' xr]; [discriminate|]); injection Hroot as ->;
    rewrite insert_loop_unfold;
    (destruct k as [|f up];
     [zrep_facts Hz; zexec; eapply yields_exit; eauto using zrep_rep|]);
    simpl in Hfix;
    (destruct (frame_color f) eqn:Hfc;
     [|destruct f; simpl in Hfc; subst; zrep_facts Hz; zexec;
       eapply yields_exit; eauto using zrep_rep]);
    [discriminate|].
  destruct up as [|g up'].
  { destruct f; simpl in Hfc; subst; zrep_facts Hz; zexec;
      eapply yields_exit; eauto using zrep_rep. }
  destruct g as [gc g u|gc u g]; (destruct (color_of u) eqn:Hu).
  - (* parent on the left, uncle RED *)
    destruct u as [|uc ul y ur]; [discriminate|]. simpl in Hu. subst uc.
    destruct f as [pc p pr|pc pl p]; simpl in Hfc; subst pc;
      zrep_facts Hz; zexec; simpl in Hfix;
      (refine (IH _ _ _ _ _ _ _ _ Hfix _ _ _ HQ); [reflexivity|]);
      zrep_solve.
  - (* parent on the left, uncle BLACK *)
    destruct f as [pc p pr|pc pl p]; simpl in Hfc; subst pc.
    + (* straight line *)
      destruct u as [|uc ul y ur]; simpl in Hu; subst;
        zrep_facts Hz; zexec;
        [ zrotate up' (T RED (T BLACK (T xc xl x xr) p pr) g E)
        | zrotate up' (T RED (T BLACK (T xc xl x xr) p pr) g (T BLACK ul y ur)) ];
        rewrite insert_loop_unfold; zexec;
        eapply yields_exit; eauto using zrep_rep.
    + (* zig-zag: the parent is rotated first *)
      destruct u as [|uc ul y ur]; simpl in Hu; subst;
        zrep_facts Hz; zexec;
        [ zrotate (FL gc g E :: up') (T RED pl p (T xc xl x xr))
        | zrotate (FL gc g (T BLACK ul y ur) :: up') (T RED pl p (T xc xl x xr)) ];
        zexec;
        [ zrotate up' (T RED (T BLACK (T RED pl p xl) x xr) g E)
        | zrotate up' (T RED (T BLACK (T RED pl p xl) x xr) g (T BLACK ul y ur)) ];
        rewrite insert_loop_unfold; zexec;
        eapply yields_exit; eauto using zrep_rep.
  - (* parent on the right, uncle RED *)
    destruct u as [|uc ul y ur]; [discriminate|]. simpl in Hu. subst uc.
    destruct f as [pc p pr|pc pl p]; simpl in Hfc; subst pc;
      zrep_facts Hz; zexec; simpl in Hfix;
      (refine (IH _ _ _ _ _ _ _ _ Hfix _ _ _ HQ); [reflexivity|]);
      zrep_solve.
  - (* parent on the right, uncle BLACK *)
    destruct f as [pc p pr|pc pl p]; simpl in Hfc; subst pc.
    + (* zig-zag *)
      destruct u as [|uc ul y ur]; simpl in Hu; subst;
        zrep_facts Hz; zexec;
        [ zrotate (FR gc E g :: up') (T RED (T xc xl x xr) p pr)
        | zrotate (FR gc (T BLACK ul y ur) g :: up') (T RED (T xc xl x xr) p pr) ];
        zexec;
        [ zrotate up' (T RED E g (T BLACK xl x (T RED xr p pr)))
        | zrotate up' (T RED (T BLACK ul y ur) g (T BLACK xl x (T RED xr p pr))) ];
        rewrite insert_loop_unfold; zexec;
        eapply yields_exit; eauto using zrep_rep.
    + (* straight line *)
      destruct u as [|uc ul y ur]; simpl in Hu; subst;
        zrep_facts Hz; zexec;
        [ zrotate up' (T RED E g (T BLACK pl p (T xc xl x xr)))
        | zrotate up' (T RED (T BLACK ul y ur) g (T BLACK pl p (T xc xl x xr))) ];
        rewrite insert_loop_unfold; zexec;
        eapply yields_exit; eauto using zrep_rep.
Qed.

(** ** Invariants through contexts *)

Lemma bh_fill f t :
  bh (sibling f) = bh t -> bh (fill f t) = bh t + black (frame_color f).
Proof. destruct f; simpl; intros; lia. Qed.

Lemma balanced_plug k t :
  balanced (plug k t) <-> balanced t /\ cbal k (bh t).
Proof.
  revert t. induction k as [|f up IH]; intros t; simpl; [tauto|].
  rewrite IH. destruct f; simpl; split.
  - intros ((? & ? & ?) & Hc). repeat split; try assumption; try lia.
  - intros (? & ? & ? & ?). repeat split; try assumption; try lia.
  - intros ((? & ? & ?) & Hc). repeat split; try assumption; try lia.
    replace (bh t) with (bh l) by lia. assumption.
  - intros (? & ? & ? & Hc). repeat split; try assumption; try lia.
    replace (bh l) with (bh t) by lia. assumption.
Qed.

Lemma color_of_fill f t : color_of (fill f t) = frame_color f.
Proof. destruct f; reflexivity. Qed.

Lemma no_red_red_plug k t :
  no_red_red (plug k t) <-> no_red_red t /\ cnrr k (color_of t).
Proof.
  revert t. induction k as [|f up IH]; intros t; simpl; [tauto|].
  rewrite IH, color_of_fill. destruct f; simpl; tauto.
Qed.

Lemma no_red_red_blacken t : no_red_red t -> no_red_red (blacken t).
Proof. destruct t; simpl; [tauto|]. intros (_ & ? & ?). repeat split; congruence || assumption. Qed.

Lemma balanced_blacken t : balanced t <-> balanced (blacken t).
Proof. destruct t; simpl; tauto. Qed.

Lemma inorder_blacken t : inorder (blacken t) = inorder t.
Proof. destruct t; reflexivity. Qed.

Lemma cbal_eq k n m : n = m -> cbal k n -> cbal k m.
Proof. intros ->. tauto. Qed.

(** *** The insertion walk on trees *)

Lemma ins_fix_inorder fuel k t res :
  ins_fix fuel k t = Some res -> inorder res = inorder (plug k t).
Proof.
  revert k t res. induction fuel as [|fuel IH]; intros k t res H.
  - destruct k as [|f up]; simpl in H; [injection H as <-; reflexivity|].
    destruct (frame_color f); [discriminate|injection H as <-; reflexivity].
  - destruct k as [|f up]; simpl in H; [injection H as <-; reflexivity|].
    destruct (frame_color f) eqn:Hf; [|injection H as <-; reflexivity].
    destruct up as [|g up']; [injection H as <-; reflexivity|].
    destruct g as [gc g u|gc u g]; destruct (color_of u) eqn:Hu.
    + apply IH in H. rewrite H, !inorder_plug. simpl.
      destruct f, u; simpl; list_normal; reflexivity.
    + destruct f, t; try discriminate; injection H as <-;
        rewrite !inorder_plug; simpl; list_normal; reflexivity.
    + apply IH in H. rewrite H, !inorder_plug. simpl.
      destruct f, u; simpl; list_normal; reflexivity.
    + destruct f, t; try discriminate; injection H as <-;
        rewrite !inorder_plug; simpl; list_normal; reflexivity.
Qed.

Lemma ins_fix_ok fuel :
  forall k t,
    length k <= 2 * fuel ->
    color_of t = RED ->
    no_red_red t -> balanced t ->
    cbal k (bh t) -> cnrr k BLACK ->
    exists res, ins_fix fuel k t = Some res /\
                balanced res /\ no_red_red (blacken res).
Proof.
  induction fuel as [|fuel IH]; intros k t Hlen Hred Hnrr Hbal Hcb Hcn.
  - destruct k; simpl in Hlen; [|lia]. simpl. eexists. split; [reflexivity|].
    split; [assumption|]. apply no_red_red_blacken. assumption.
  - destruct t as [|xc xl x xr]; [discriminate|]. simpl in Hred. subst xc.
    destruct k as [|f up]; simpl.
    { eexists. split; [reflexivity|]. split; [assumption|].
      apply (no_red_red_blacken (T RED xl x xr)). assumption. }
    destruct (frame_color f) eqn:Hf.
    2:{ eexists. split; [reflexivity|]. split.
        - apply (balanced_plug (f :: up)). tauto.
        - apply no_red_red_blacken. apply (no_red_red_plug (f :: up)).
          split; [assumption|]. simpl in *. rewrite Hf in *.
          repeat split; try tauto; congruence. }
    destruct up as [|g up'].
    { eexists. split; [reflexivity|]. simpl in *. split.
      - destruct f; simpl in *; repeat split; try tauto; lia.
      - destruct f; simpl in *; repeat split; try tauto; congruence. }
    simpl in Hcb, Hcn, Hnrr, Hbal. rewrite Hf in *.
    destruct Hcn as (Hc1 & Hs1 & Hc2 & Hs2 & Hcn).
    destruct Hcb as (Hb1 & Hbs1 & Hb2 & Hbs2 & Hcb).
    assert (frame_color g = BLACK) as Hg
      by (destruct (frame_color g); [destruct (Hc2 eq_refl); discriminate|done]).
    rewrite Hg in *. simpl in Hcb.
    destruct (Hc1 eq_refl) as (_ & Hsb).
    destruct g as [gc g u|gc u g]; simpl in *; subst gc;
      destruct (color_of u) eqn:Hu.
    + destruct u as [|uc ul y ur]; [discriminate|]. simpl in Hu. subst uc.
      apply IH; simpl in *.
      * lia.
      * reflexivity.
      * destruct f; simpl in *; repeat split; try tauto; congruence.
      * destruct f; simpl in *; repeat split; try tauto; lia.
      * destruct f; simpl in *; rewrite ?Nat.add_0_r in *;
          (eapply cbal_eq; [|eassumption]); lia.
      * assumption.
    + destruct f as [pc p pr|pc pl p]; simpl in *; subst pc;
        (eexists; split; [reflexivity|]).
        all: destruct (proj1 Hnrr eq_refl) as (Hxl & Hxr).
        all: split;
          [ apply balanced_plug; split;
            [ simpl; intuition lia
            | simpl; (eapply cbal_eq; [|eassumption]); lia ]
          | apply no_red_red_blacken, no_red_red_plug; split;
            [ simpl; intuition congruence
            | simpl; assumption ] ].
    + destruct u as [|uc ul y ur]; [discriminate|]. simpl in Hu. subst uc.
      apply IH; simpl in *.
      * lia.
      * reflexivity.
      * destruct f; simpl in *; repeat split; try tauto; congruence.
      * destruct f; simpl in *; repeat split; try tauto; lia.
      * destruct f; simpl in *; rewrite ?Nat.add_0_r in *;
          (eapply cbal_eq; [|eassumption]); lia.
      * assumption.
    + destruct f as [pc p pr|pc pl p]; simpl in *; subst pc;
        (eexists; split; [reflexivity|]).
        all: destruct (proj1 Hnrr eq_refl) as (Hxl & Hxr).
        all: split;
          [ apply balanced_plug; split;
            [ simpl; intuition lia
            | simpl; (eapply cbal_eq; [|eassumption]); lia ]
          | apply no_red_red_blacken, no_red_red_plug; split;
            [ simpl; intuition congruence
            | simpl; assumption ] ].
Qed.

(** *** The path from a node to the root *)

Lemma plug_app k1 k2 t : plug (k1 ++ k2) t = plug k2 (plug k1 t).
Proof. revert t. induction k1 as [|f k1 IH]; intros t; simpl; [reflexivity|apply IH]. Qed.

(** Every node of a tree can be brought into focus. *)
Lemma focus_exists t x :
  x ∈ inorder t -> exists k c l r, plug k (T c l x r) = t.
Proof.
  induction t as [|c l IHl y r IHr]; simpl; [set_solver|].
  rewrite elem_of_app, elem_of_cons. intros [Hx|[->|Hx]].
  - destruct (IHl Hx) as (k & c' & l' & r' & <-).
    exists (k ++ [FL c y r]), c', l', r'. rewrite plug_app. reflexivity.
  - exists [], c, l, r. reflexivity.
  - destruct (IHr Hx) as (k & c' & l' & r' & <-).
    exists (k ++ [FR c l y]), c', l', r'. rewrite plug_app. reflexivity.
Qed.

Lemma length_inorder_plug k t :
  length k + length (inorder t) <= length (inorder (plug k t)).
Proof.
  revert t. induction k as [|f up IH]; intros t; simpl; [lia|].
  specialize (IH (fill f t)). destruct f; simpl in *;
    rewrite length_app in IH; simpl in IH; lia.
Qed.

Lemma root_of_plug k t x :
  root_of t = Some x ->
  root_of (plug k t) = Some (List.last (x :: map frame_node k) x).
Proof.
  revert t x. induction k as [|f up IH]; intros t x Hx; [assumption|].
  change (root_of (plug up (fill f t))
          = Some (List.last (x :: frame_node f :: map frame_node up) x)).
  rewrite (IH (fill f t) (frame_node f)) by (destruct f; reflexivity).
  f_equal. simpl. destruct (map frame_node up); [reflexivity|].
  apply last_nonempty_default.
Qed.

Lemma path_to_root_focus fuel h k t x :
  rep h t (cparent k) -> crep h k (root_of t) -> root_of t = Some x ->
  length k < fuel ->
  path_to_root fuel h x = Some (x :: map frame_node k).
Proof.
  revert k t x. induction fuel as [|fuel IH]; intros k t x Hr Hc Hx Hlen; [lia|].
  destruct t as [|c l y r]; [discriminate|]. injection Hx as ->.
  simpl in Hr. destruct Hr as (Hy & Hl & Hr). simpl. rewrite Hy. simpl.
  destruct k as [|f up]; [reflexivity|]. simpl.
  rewrite (IH up (fill f (T c l x r)) (frame_node f)).
  - reflexivity.
  - simpl in Hc. destruct f; simpl in *; tauto.
  - simpl in Hc. destruct f; simpl in *; tauto.
  - destruct f; reflexivity.
  - simpl in Hlen. lia.
Qed.

Lemma path_to_root_rep fuel h t x root :
  rep h t None -> root_of t = Some root -> x ∈ inorder t ->
  length (inorder t) <= fuel ->
  exists l, path_to_root fuel h x = Some l /\ List.last l x = root.
Proof.
  intros Hrep Hroot Hx Hfuel.
  destruct (focus_exists _ _ Hx) as (k & c & l & r & <-).
  apply rep_plug in Hrep as (Hr & Hc).
  exists (x :: map frame_node k). split.
  - eapply path_to_root_focus; try eassumption; [reflexivity|].
    pose proof (length_inorder_plug k (T c l x r)) as Hlen. simpl in Hlen.
    rewrite length_app in Hlen. simpl in Hlen. lia.
  - rewrite (root_of_plug k (T c l x r) x eq_refl) in Hroot. congruence.
Qed.

Lemma yields_Done {A} (o : outcome A) Q :
  yields o Q -> exists a s, o = Done a s /\ Q a s.
Proof. destruct o; simpl; [eauto|tauto..]. Qed.

Lemma rep_blacken_root h t x :
  NoDup (inorder t) -> rep h t None -> root_of t = Some x ->
  exists nd, h !! x = Some nd /\
             rep (<[x := with_color BLACK nd]> h) (blacken t) None.
Proof.
  destruct t as [|c l y r]; [discriminate|]. intros Hnd (Hy & Hl & Hr) [= ->].
  simpl in Hnd. nd_atoms Hnd. eexists. split; [eassumption|]. simpl.
  rewrite lookup_insert_eq. rewrite !rep_insert by assumption. tauto.
Qed.

(** *** [rebalance_after_insert] *)

(** The heap holds a red/black tree below [root]. *)
Lemma rebalance_after_insert_tree fuel k x h hk :
  zrep h k (T RED E x E) ->
  red_black (plug k E) ->
  length (inorder (plug k (T RED E x E))) <= fuel ->
  exists root s' t',
    rebalance_after_insert fuel x (mkState h hk) = Done root s' /\
    rep (heap s') t' None /\
    root_of t' = Some root /\
    red_black t' /\
    inorder t' = inorder (plug k (T RED E x E)).
Proof.
  intros Hz (_ & Hnrr & Hbal) Hfuel.
  apply no_red_red_plug in Hnrr as (_ & Hcn). simpl in Hcn.
  apply balanced_plug in Hbal as (_ & Hcb). simpl in Hcb.
  pose proof (length_inorder_plug k (T RED E x E)) as Hlen. simpl in Hlen.
  destruct (ins_fix_ok fuel k (T RED E x E)) as (res & Hfix & Hb & Hn);
    simpl; try tauto; try lia.
  pose proof (ins_fix_inorder _ _ _ _ Hfix) as Hin.
  assert (Hnd : NoDup (inorder res))
    by (rewrite Hin; apply zrep_plug in Hz; tauto).
  cut (yields (rebalance_after_insert fuel x (mkState h hk))
         (fun root s' => rep (heap s') (blacken res) None /\
                         root_of (blacken res) = Some root)).
  { intros Hy. apply yields_Done in Hy as (root & s' & Hrun & Hrep & Hroot).
    exists root, s', (blacken res).
    split; [assumption|]. split; [assumption|]. split; [assumption|].
    split; [|rewrite inorder_blacken; assumption].
    split; [destruct res; [discriminate|reflexivity]|].
    split; [assumption|apply -> balanced_blacken; assumption]. }
  unfold rebalance_after_insert.
  eapply (insert_loop_refines fuel k (T RED E x E) x h hk res eq_refl Hz Hfix).
  intros h' hk' Hrep'.
  assert (Hx : x ∈ inorder res).
  { rewrite Hin, inorder_plug. simpl. set_solver. }
  destruct res as [|c l rt r]; [simpl in Hx; set_solver|].
  destruct (path_to_root_rep fuel h' (T c l rt r) x rt Hrep' eq_refl Hx)
    as (path & Hpath & Hlast).
  { rewrite Hin. assumption. }
  unfold ripple_structure_fixup.
  rewrite (ripple_loop_exec _ _ _ _ _ _ _ Hpath). rewrite Hlast.
  destruct (rep_blacken_root h' (T c l rt r) rt Hnd Hrep' eq_refl)
    as (nd & Hnd' & Hrep'').
  unfold set_color. erewrite bind_modify by eassumption.
  simpl. split; [assumption|reflexivity].
Qed.

(** ** The removal walk refines its tree version *)

Lemma remove_loop_unfold fuel n p d :
  remove_loop (S fuel) n (Some p) d
  = (nred <- match n with
             | Some _ => color_is n RED
             | None => ret false
             end ;;
     if nred then
       ni <- deref n ;;
       set_color ni BLACK
     else
       right_side <- (if decide (d = NONE)
                      then dn <- direction_of p n ;;
                           ret (bool_decide (dn = RIGHT))
                      else ret (bool_decide (d = RIGHT))) ;;
       let near := if right_side then RIGHT else LEFT in
       let far := if right_side then LEFT else RIGHT in
       w <- child_at p far ;;
       w <- deref w ;;
       wc <- get _color w ;;
       w <- (if decide (wc = RED) then
               set_color w BLACK ;;;
               set_color p RED ;;;
               rotate p near ;;;
               w' <- child_at p far ;;
               deref w'
             else ret w) ;;
       wfc <- child_at w far ;;
       wnc <- child_at w near ;;
       nblack <- color_is wnc BLACK ;;
       both <- (if nblack then color_is wfc BLACK else ret false) ;;
       if both then
         set_color w RED ;;;
         pp <- get _parent p ;;
         remove_loop fuel (Some p) pp NONE
       else
         fblack <- color_is wfc BLACK ;;
         ww <- (if fblack then
                  wn <- child_at w near ;;
                  wn <- deref wn ;;
                  set_color wn BLACK ;;;
                  set_color w RED ;;;
                  rotate w far ;;;
                  w' <- child_at p far ;;
                  w' <- deref w' ;;
                  wfc' <- child_at w' far ;;
                  ret (w', wfc')
                else ret (w, wfc)) ;;
         let '(w, wfc) := ww in
         pc <- get _color p ;;
         set_color w pc ;;;
         set_color p BLACK ;;;
         wf <- deref wfc ;;
         set_color wf BLACK ;;;
         rotate p near ;;;
         ret tt).
Proof. reflexivity. Qed.

Lemma remove_loop_root fuel n d : remove_loop fuel n None d = ret tt.
Proof. destruct fuel; reflexivity. Qed.

Lemma yields_exit_plug {B} (kont : unit -> M B) Q h hk res up t :
  (forall h' hk', rep h' res None -> yields (kont tt (mkState h' hk')) Q) ->
  zrep h up t -> plug up t = res ->
  yields (kont tt (mkState h hk)) Q.
Proof. intros HQ Hz <-. apply HQ. apply zrep_rep. assumption. Qed.

Ltac zexit HQ :=
  eapply yields_exit_plug; [exact HQ | eassumption | simpl; congruence].

(** The loop body once the sibling [s1] of the node [tt], on the left of
    [p] in context [k1], is known to be BLACK or freshly rotated in. *)
Ltac del_step_L IH Hfix HQ k1 pc1 tt p s1 :=
  lazymatch s1 with
  | T _ ?wl1 ?w1 ?wr1 =>
      lazymatch wr1 with
      | T RED ?fl ?f ?fr =>
          zexec;
          zrotate k1 (T BLACK tt p (T pc1 wl1 w1 (T BLACK fl f fr)));
          zexit HQ
      | _ =>
          lazymatch wl1 with
          | T RED ?a ?y ?b =>
              zexec;
              zrotate (FR pc1 tt p :: k1) (T RED (T BLACK a y b) w1 wr1);
              zexec;
              zrotate k1 (T BLACK tt p (T pc1 a y (T BLACK b w1 wr1)));
              zexit HQ
          | _ =>
              zexec;
              refine (IH k1 (T pc1 tt p (T RED wl1 w1 wr1))
                        _ _ _ NONE _ _ Hfix _ _ _ HQ);
              [zrep_solve | reflexivity]
          end
      end
  end.

Ltac del_body_L IH Hz Hfix HQ :=
  simpl in Hfix; zrep_facts Hz;
  lazymatch type of Hz with
  | zrep _ (FL ?pc ?p (T RED ?wl ?w ?wr) :: ?up) ?tt =>
      zexec;
      zrotate up (T RED tt p (T BLACK wl w wr));
      del_step_L IH Hfix HQ (FL BLACK w wr :: up) RED tt p wl
  | zrep _ (FL ?pc ?p (T BLACK ?wl ?w ?wr) :: ?up) ?tt =>
      del_step_L IH Hfix HQ up pc tt p (T BLACK wl w wr)
  end.

Lemma remove_step_L fuel pc p s up t h hk res d :
  remove_loop_spec fuel ->
  zrep h (FL pc p s :: up) t -> dir_ok d (FL pc p s :: up) t ->
  del_fix (S fuel) (FL pc p s :: up) t = Some res ->
  forall B (kont : unit -> M B) Q,
    (forall h' hk', rep h' res None -> yields (kont tt (mkState h' hk')) Q) ->
    yields (bind (remove_loop (S fuel) (root_of t) (Some p) d) kont
              (mkState h hk)) Q.
Proof.
  intros IH Hz Hd Hfix B kont Q HQ. rewrite remove_loop_unfold.
  destruct t as [|[] tl n tr]; simpl in Hd; subst d.
  - (* an absent node short of one BLACK *)
    destruct s as [|[] wl w wr]; [discriminate| |].
    + destruct wl as [|c1 wl1 w1 wr1]; [discriminate|].
      destruct wl1 as [|[] a y b], wr1 as [|[] fl f fr];
        del_body_L IH Hz Hfix HQ.
    + destruct wl as [|[] a y b], wr as [|[] fl f fr];
        del_body_L IH Hz Hfix HQ.
  - (* a RED node: recoloured *)
    simpl in Hfix. zrep_facts Hz. zexec.
    eapply (yields_exit_plug _ _ _ _ _ (FL pc p s :: up) (T BLACK tl n tr));
      [exact HQ | zrep_solve | simpl in *; congruence].
  - (* a BLACK node short of one BLACK *)
    destruct s as [|[] wl w wr]; [discriminate| |].
    + destruct wl as [|c1 wl1 w1 wr1]; [discriminate|].
      destruct wl1 as [|[] a y b], wr1 as [|[] fl f fr];
        del_body_L IH Hz Hfix HQ.
    + destruct wl as [|[] a y b], wr as [|[] fl f fr];
        del_body_L IH Hz Hfix HQ.
Qed.

(** The mirror image: the node short of one BLACK is on the right of [p]. *)
Ltac del_step_R IH Hfix HQ k1 pc1 tt p s1 :=
  lazymatch s1 with
  | T _ ?wl1 ?w1 ?wr1 =>
      lazymatch wl1 with
      | T RED ?fl ?f ?fr =>
          zexec;
          zrotate k1 (T BLACK (T pc1 (T BLACK fl f fr) w1 wr1) p tt);
          zexit HQ
      | _ =>
          lazymatch wr1 with
          | T RED ?a ?y ?b =>
              zexec;
              zrotate (FL pc1 p tt :: k1) (T RED wl1 w1 (T BLACK a y b));
              zexec;
              zrotate k1 (T BLACK (T pc1 (T BLACK wl1 w1 a) y b) p tt);
              zexit HQ
          | _ =>
              zexec;
              refine (IH k1 (T pc1 (T RED wl1 w1 wr1) p tt)
                        _ _ _ NONE _ _ Hfix _ _ _ HQ);
              [zrep_solve | reflexivity]
          end
      end
  end.

Ltac del_body_R IH Hz Hfix HQ :=
  simpl in Hfix; zrep_facts Hz;
  lazymatch type of Hz with
  | zrep _ (FR ?pc (T RED ?wl ?w ?wr) ?p :: ?up) ?tt =>
      zexec;
      zrotate up (T RED (T BLACK wl w wr) p tt);
      del_step_R IH Hfix HQ (FR BLACK wl w :: up) RED tt p wr
  | zrep _ (FR ?pc (T BLACK ?wl ?w ?wr) ?p :: ?up) ?tt =>
      del_step_R IH Hfix HQ up pc tt p (T BLACK wl w wr)
  end.

Lemma remove_step_R fuel pc p s up t h hk res d :
  remove_loop_spec fuel ->
  zrep h (FR pc s p :: up) t -> dir_ok d (FR pc s p :: up) t ->
  del_fix (S fuel) (FR pc s p :: up) t = Some res ->
  forall B (kont : unit -> M B) Q,
    (forall h' hk', rep h' res None -> yields (kont tt (mkState h' hk')) Q) ->
    yields (bind (remove_loop (S fuel) (root_of t) (Some p) d) kont
              (mkState h hk)) Q.
Proof.
  intros IH Hz Hd Hfix B kont Q HQ. rewrite remove_loop_unfold.
  destruct t as [|[] tl n tr]; simpl in Hd; subst d.
  - (* an absent node short of one BLACK *)
    destruct s as [|[] wl w wr]; [discriminate| |].
    + destruct wr as [|c1 wl1 w1 wr1]; [discriminate|].
      destruct wl1 as [|[] fl f fr], wr1 as [|[] a y b];
        del_body_R IH Hz Hfix HQ.
    + destruct wl as [|[] fl f fr], wr as [|[] a y b];
        del_body_R IH Hz Hfix HQ.
  - (* a RED node: recoloured *)
    simpl in Hfix. zrep_facts Hz. zexec.
    eapply (yields_exit_plug _ _ _ _ _ (FR pc s p :: up) (T BLACK tl n tr));
      [exact HQ | zrep_solve | simpl in *; congruence].
  - (* a BLACK node short of one BLACK *)
    destruct s as [|[] wl w wr]; [discriminate| |].
    + destruct wr as [|c1 wl1 w1 wr1]; [discriminate|].
      destruct wl1 as [|[] fl f fr], wr1 as [|[] a y b];
        del_body_R IH Hz Hfix HQ.
    + destruct wl as [|[] fl f fr], wr as [|[] a y b];
        del_body_R IH Hz Hfix HQ.
Qed.

Lemma remove_loop_refines fuel : remove_loop_spec fuel.
Proof.
  induction fuel as [|fuel IH]; intros k t h hk res d Hz Hd Hfix B kont Q HQ.
  - destruct k as [|f up]; [|discriminate]. simpl in *. injection Hfix as <-.
    apply HQ. destruct Hz as (? & _). assumption.
  - destruct k as [|[pc p s|pc s p] up].
    + simpl in Hfix. injection Hfix as <-. rewrite remove_loop_root.
      rewrite bind_ret. apply HQ. destruct Hz as (? & _). assumption.
    + eapply remove_step_L; eassumption.
    + eapply remove_step_R; eassumption.
Qed.

(** ** The removal walk on trees *)

Lemma del_rotate_L_inorder pc t p s res :
  del_rotate_L pc t p s = Some res ->
  inorder res = inorder t ++ p :: inorder s.
Proof.
  unfold del_rotate_L. destruct s as [|wc wl w wr]; [discriminate|].
  destruct (color_of wr) eqn:Hc.
  - destruct wr as [|? fl f fr]; [discriminate|].
    intros [= <-]. simpl. list_normal. reflexivity.
  - destruct wl as [|? a y b]; [discriminate|].
    intros [= <-]. simpl. list_normal. reflexivity.
Qed.

Lemma del_rotate_R_inorder pc t p s res :
  del_rotate_R pc s p t = Some res ->
  inorder res = inorder s ++ p :: inorder t.
Proof.
  unfold del_rotate_R. destruct s as [|wc wl w wr]; [discriminate|].
  destruct (color_of wl) eqn:Hc.
  - destruct wl as [|? fl f fr]; [discriminate|].
    intros [= <-]. simpl. list_normal. reflexivity.
  - destruct wr as [|? a y b]; [discriminate|].
    intros [= <-]. simpl. list_normal. reflexivity.
Qed.

Lemma del_fix_inorder fuel k t res :
  del_fix fuel k t = Some res -> inorder res = inorder (plug k t).
Proof.
  revert k t res. induction fuel as [|fuel IH]; intros k t res H.
  - destruct k; [injection H as <-; reflexivity|discriminate].
  - destruct k as [|f up]; [injection H as <-; reflexivity|].
    simpl in H.
    assert (Hgo :
      match f with
      | FL pc p s =>
          match s with
          | E => None
          | T wc wl w wr =>
              let '(pc1, s1, up1) :=
                match wc with
                | RED => (RED, wl, FL BLACK w wr :: up)
                | BLACK => (pc, s, up)
                end in
              match s1 with
              | E => None
              | T _ wl1 w1 wr1 =>
                  match color_of wl1, color_of wr1 with
                  | BLACK, BLACK =>
                      del_fix fuel up1 (T pc1 t p (T RED wl1 w1 wr1))
                  | _, _ => plug up1 <$> del_rotate_L pc1 t p s1
                  end
              end
          end
      | FR pc s p =>
          match s with
          | E => None
          | T wc wl w wr =>
              let '(pc1, s1, up1) :=
                match wc with
                | RED => (RED, wr, FR BLACK wl w :: up)
                | BLACK => (pc, s, up)
                end in
              match s1 with
              | E => None
              | T _ wl1 w1 wr1 =>
                  match color_of wr1, color_of wl1 with
                  | BLACK, BLACK =>
                      del_fix fuel up1 (T pc1 (T RED wl1 w1 wr1) p t)
                  | _, _ => plug up1 <$> del_rotate_R pc1 s1 p t
                  end
              end
          end
      end = Some res -> inorder res = inorder (plug (f :: up) t)).
    { clear H. intros H. destruct f as [pc p s|pc s p].
      - destruct s as [|wc wl w wr]; [discriminate|].
        destruct wc.
        + destruct wl as [|c1 wl1 w1 wr1]; [discriminate|].
          destruct (color_of wl1) eqn:E1, (color_of wr1) eqn:E2;
            try (apply IH in H; rewrite H, !inorder_plug; simpl;
                 list_normal; reflexivity);
            (destruct (del_rotate_L RED t p (T c1 wl1 w1 wr1)) as [r|] eqn:Er;
             [|discriminate]; simpl in H; injection H as <-;
             apply del_rotate_L_inorder in Er;
             rewrite !inorder_plug; simpl; rewrite ?Er; simpl; list_normal; reflexivity).
        + destruct (color_of wl) eqn:E1, (color_of wr) eqn:E2;
            try (apply IH in H; rewrite H, !inorder_plug; simpl;
                 list_normal; reflexivity);
            (destruct (del_rotate_L pc t p (T BLACK wl w wr)) as [r|] eqn:Er;
             [|discriminate]; simpl in H; injection H as <-;
             apply del_rotate_L_inorder in Er;
             rewrite !inorder_plug; simpl; rewrite ?Er; simpl; list_normal; reflexivity).
      - destruct s as [|wc wl w wr]; [discriminate|].
        destruct wc.
        + destruct wr as [|c1 wl1 w1 wr1]; [discriminate|].
          destruct (color_of wl1) eqn:E1, (color_of wr1) eqn:E2;
            try (apply IH in H; rewrite H, !inorder_plug; simpl;
                 list_normal; reflexivity);
            (destruct (del_rotate_R RED (T c1 wl1 w1 wr1) p t) as [r|] eqn:Er;
             [|discriminate]; simpl in H; injection H as <-;
             apply del_rotate_R_inorder in Er;
             rewrite !inorder_plug; simpl; rewrite ?Er; simpl; list_normal; reflexivity).
        + destruct (color_of wl) eqn:E1, (color_of wr) eqn:E2;
            try (apply IH in H; rewrite H, !inorder_plug; simpl;
                 list_normal; reflexivity);
            (destruct (del_rotate_R pc (T BLACK wl w wr) p t) as [r|] eqn:Er;
             [|discriminate]; simpl in H; injection H as <-;
             apply del_rotate_R_inorder in Er;
             rewrite !inorder_plug; simpl; rewrite ?Er; simpl; list_normal; reflexivity). }
    destruct t as [|[] tl n tr]; [exact (Hgo H)| |exact (Hgo H)].
    injection H as <-. simpl. rewrite !inorder_plug. destruct f; reflexivity.
Qed.

Lemma cnrr_black k c : cnrr k c -> cnrr k BLACK.
Proof.
  destruct k as [|f up]; simpl; [tauto|].
  intros (H & ? & ?). repeat split; try assumption; apply H; assumption.
Qed.

Lemma no_red_red_of_blacken t :
  color_of t = BLACK -> no_red_red (blacken t) -> no_red_red t.
Proof. destruct t as [|c l x r]; simpl; [tauto|]. intros ->. tauto. Qed.

Ltac rb_crush :=
  simpl in *;
  repeat match goal with
         | H : _ /\ _ |- _ => destruct H
         | H : RED = RED -> _ |- _ => specialize (H eq_refl)
         | H : BLACK = BLACK -> _ |- _ => specialize (H eq_refl)
         | H : BLACK = RED -> _ |- _ => clear H
         | H : RED = BLACK -> _ |- _ => clear H
         | H : RED = BLACK |- _ => discriminate H
         | H : BLACK = RED |- _ => discriminate H
         | H : ?c = BLACK |- _ => is_var c; subst c; simpl in *
         | H : ?c = RED |- _ => is_var c; subst c; simpl in *
         end;
  repeat match goal with
         | |- _ /\ _ => split
         | |- RED = RED -> _ => intros _
         | |- BLACK = BLACK -> _ => intros _
         | |- BLACK = RED -> _ => intros ?; discriminate
         | |- RED = BLACK -> _ => intros ?; discriminate
         end;
  try assumption; try reflexivity; try lia;
  try (eapply cbal_eq; [|eassumption]; lia);
  try (eapply cnrr_black; eassumption).

(** The parent of a RED sibling is BLACK. *)
Ltac parent_black pc Hcn :=
  let H := fresh in
  assert (H : pc = BLACK)
    by (destruct pc; [destruct (proj1 Hcn eq_refl); discriminate|reflexivity]);
  subst pc.

Lemma del_fix_ok fuel :
  forall k t,
    length k < fuel ->
    balanced t -> cbal k (S (bh t)) ->
    no_red_red (blacken t) -> cnrr k BLACK ->
    exists res, del_fix fuel k t = Some res /\
                balanced res /\ no_red_red (blacken res).
Proof.
  induction fuel as [|fuel IH]; intros k t Hlen Hb Hcb Hn Hcn; [lia|].
  destruct k as [|f up].
  { simpl. eauto. }
  assert (Hfuel : exists fuel', fuel = S fuel')
    by (destruct fuel; [simpl in Hlen; lia|eauto]).
  destruct t as [|[] tl n tr].
  2:{ clear IH. simpl. eexists. split; [reflexivity|].
      split.
      - apply (balanced_plug (f :: up)). rb_crush.
      - apply no_red_red_blacken, (no_red_red_plug (f :: up)). rb_crush. }
  - destruct f as [pc p s|pc s p]; (destruct s as [|[] wl w wr]; [simpl in Hcb; lia| |]).
    + destruct wl as [|c1 wl1 w1 wr1]; [simpl in Hcb; lia|].
      destruct Hfuel as (fuel' & ->). clear IH. parent_black pc Hcn.
      destruct wl1 as [|[] a y b], wr1 as [|[] fl f fr]; simpl;
        (eexists; split; [reflexivity|]).
      all: split; [ first [apply (balanced_plug (_ :: up)) | apply balanced_plug]
                  | apply no_red_red_blacken;
                    first [apply (no_red_red_plug (_ :: up)) | apply no_red_red_plug] ].
      all: rb_crush.
    + clear Hfuel.
      destruct wl as [|[] a y b], wr as [|[] fl f fr]; simpl;
        first
          [ (eexists; split; [reflexivity|]); clear IH;
            (split; [ apply balanced_plug
                    | apply no_red_red_blacken, no_red_red_plug ]);
            rb_crush
          | apply IH; clear IH; rb_crush ].
    + destruct wr as [|c1 wl1 w1 wr1]; [simpl in Hcb; lia|].
      destruct Hfuel as (fuel' & ->). clear IH. parent_black pc Hcn.
      destruct wl1 as [|[] fl f fr], wr1 as [|[] a y b]; simpl;
        (eexists; split; [reflexivity|]).
      all: split; [ first [apply (balanced_plug (_ :: up)) | apply balanced_plug]
                  | apply no_red_red_blacken;
                    first [apply (no_red_red_plug (_ :: up)) | apply no_red_red_plug] ].
      all: rb_crush.
    + clear Hfuel.
      destruct wl as [|[] fl f fr], wr as [|[] a y b]; simpl;
        first
          [ (eexists; split; [reflexivity|]); clear IH;
            (split; [ apply balanced_plug
                    | apply no_red_red_blacken, no_red_red_plug ]);
            rb_crush
          | apply IH; clear IH; rb_crush ].
  - destruct f as [pc p s|pc s p]; (destruct s as [|[] wl w wr]; [simpl in Hcb; lia| |]).
    + destruct wl as [|c1 wl1 w1 wr1]; [simpl in Hcb; lia|].
      destruct Hfuel as (fuel' & ->). clear IH. parent_black pc Hcn.
      destruct wl1 as [|[] a y b], wr1 as [|[] fl f fr]; simpl;
        (eexists; split; [reflexivity|]).
      all: split; [ first [apply (balanced_plug (_ :: up)) | apply balanced_plug]
                  | apply no_red_red_blacken;
                    first [apply (no_red_red_plug (_ :: up)) | apply no_red_red_plug] ].
      all: rb_crush.
    + clear Hfuel.
      destruct wl as [|[] a y b], wr as [|[] fl f fr]; simpl;
        first
          [ (eexists; split; [reflexivity|]); clear IH;
            (split; [ apply balanced_plug
                    | apply no_red_red_blacken, no_red_red_plug ]);
            rb_crush
          | apply IH; clear IH; rb_crush ].
    + destruct wr as [|c1 wl1 w1 wr1]; [simpl in Hcb; lia|].
      destruct Hfuel as (fuel' & ->). clear IH. parent_black pc Hcn.
      destruct wl1 as [|[] fl f fr], wr1 as [|[] a y b]; simpl;
        (eexists; split; [reflexivity|]).
      all: split; [ first [apply (balanced_plug (_ :: up)) | apply balanced_plug]
                  | apply no_red_red_blacken;
                    first [apply (no_red_red_plug (_ :: up)) | apply no_red_red_plug] ].
      all: rb_crush.
    + clear Hfuel.
      destruct wl as [|[] fl f fr], wr as [|[] a y b]; simpl;
        first
          [ (eexists; split; [reflexivity|]); clear IH;
            (split; [ apply balanced_plug
                    | apply no_red_red_blacken, no_red_red_plug ]);
            rb_crush
          | apply IH; clear IH; rb_crush ].
Qed.

(** With the black heights alone the walk never goes through an absent
    node. *)
Lemma del_fix_safe fuel :
  forall k t,
    length k < fuel ->
    balanced t -> cbal k (S (bh t)) ->
    exists res, del_fix fuel k t = Some res.
Proof.
  induction fuel as [|fuel IH]; intros k t Hlen Hb Hcb; [lia|].
  destruct k as [|f up].
  { simpl. eauto. }
  assert (Hfuel : exists fuel', fuel = S fuel')
    by (destruct fuel; [simpl in Hlen; lia|eauto]).
  destruct t as [|[] tl n tr].
  2:{ simpl. eauto. }
  - destruct f as [pc p s|pc s p]; (destruct s as [|[] wl w wr]; [simpl in Hcb; lia| |]).
    + destruct wl as [|c1 wl1 w1 wr1]; [simpl in Hcb; lia|].
      destruct Hfuel as (fuel' & ->). clear IH.
      destruct wl1 as [|[] a y b], wr1 as [|[] fl f fr]; simpl; eauto.
    + clear Hfuel.
      destruct wl as [|[] a y b], wr as [|[] fl f fr]; simpl;
        first [ solve [eauto] | apply IH; clear IH; rb_crush ].
    + destruct wr as [|c1 wl1 w1 wr1]; [simpl in Hcb; lia|].
      destruct Hfuel as (fuel' & ->). clear IH.
      destruct wl1 as [|[] fl f fr], wr1 as [|[] a y b]; simpl; eauto.
    + clear Hfuel.
      destruct wl as [|[] fl f fr], wr as [|[] a y b]; simpl;
        first [ solve [eauto] | apply IH; clear IH; rb_crush ].
  - destruct f as [pc p s|pc s p]; (destruct s as [|[] wl w wr]; [simpl in Hcb; lia| |]).
    + destruct wl as [|c1 wl1 w1 wr1]; [simpl in Hcb; lia|].
      destruct Hfuel as (fuel' & ->). clear IH.
      destruct wl1 as [|[] a y b], wr1 as [|[] fl f fr]; simpl; eauto.
    + clear Hfuel.
      destruct wl as [|[] a y b], wr as [|[] fl f fr]; simpl;
        first [ solve [eauto] | apply IH; clear IH; rb_crush ].
    + destruct wr as [|c1 wl1 w1 wr1]; [simpl in Hcb; lia|].
      destruct Hfuel as (fuel' & ->). clear IH.
      destruct wl1 as [|[] fl f fr], wr1 as [|[] a y b]; simpl; eauto.
    + clear Hfuel.
      destruct wl as [|[] fl f fr], wr as [|[] a y b]; simpl;
        first [ solve [eauto] | apply IH; clear IH; rb_crush ].
Qed.

(** ** [rebalance_after_remove] *)

Lemma anchor_elem k t this :
  anchor_of k t = Some this -> this ∈ inorder (plug k t).
Proof.
  rewrite inorder_plug. destruct t as [|c l x r]; simpl.
  - intros H. apply cparent_elem in H. set_solver.
  - intros [= ->]. set_solver.
Qed.

Lemma anchor_lookup h k t this :
  zrep h k t -> anchor_of k t = Some this ->
  exists nd, h !! this = Some nd /\
             (t <> E -> _parent nd = cparent k).
Proof.
  intros (Hr & Hc & _) Ha. destruct t as [|c l x r]; simpl in *.
  - destruct (crep_parent_lookup _ _ _ _ Hc Ha) as (nd & Hnd).
    exists nd. split; [assumption|congruence].
  - injection Ha as <-. destruct Hr as (Hx & _). eauto.
Qed.

(** The rebalancing after the removal of a BLACK node, followed from the
    tree version of the walk: the heap ends up holding the tree [res] and
    the root of [res] is returned. *)
Lemma rebalance_after_remove_black fuel k t this d h hk res :
  zrep h k t -> dir_ok d k t -> anchor_of k t = Some this ->
  del_fix fuel k t = Some res ->
  length (inorder (plug k t)) <= fuel ->
  forall B (kont : nat -> M B) Q,
    (forall h' hk' root, rep h' res None -> root_of res = Some root ->
                         yields (kont root (mkState h' hk')) Q) ->
    yields (bind (rebalance_after_remove fuel this BLACK d) kont
              (mkState h hk)) Q.
Proof.
  intros Hz Hd Ha Hfix Hfuel B kont Q HQ.
  pose proof (del_fix_inorder _ _ _ _ Hfix) as Hin.
  destruct (anchor_lookup _ _ _ _ Hz Ha) as (nd & Hnd & Hpar).
  pose proof (anchor_elem _ _ _ Ha) as Hthis.
  assert (Hloop : forall B (kont : unit -> M B) Q,
    (forall h' hk', rep h' res None -> yields (kont tt (mkState h' hk')) Q) ->
    yields (bind (parent <- get _parent this ;;
                  if decide (NONE = d)
                  then remove_loop fuel (Some this) parent d
                  else remove_loop fuel None (Some this) d) kont
              (mkState h hk)) Q).
  { intros B' kont' Q' HQ'. rewrite bind_bind.
    erewrite bind_get by eassumption.
    destruct t as [|c l x r]; simpl in Hd, Ha.
    - destruct k as [|f up]; [discriminate|]. injection Ha as <-. subst d.
      rewrite decide_False by (destruct f; discriminate).
      exact (remove_loop_refines fuel (f :: up) E h hk res (frame_side f)
               Hz eq_refl Hfix B' kont' Q' HQ').
    - injection Ha as <-. subst d. rewrite decide_True by reflexivity.
      rewrite Hpar by discriminate.
      exact (remove_loop_refines fuel k (T c l x r) h hk res NONE
               Hz eq_refl Hfix B' kont' Q' HQ'). }
  unfold rebalance_after_remove. rewrite decide_True by reflexivity.
  rewrite bind_bind. apply Hloop. intros h' hk' Hrep.
  destruct res as [|c l rt r].
  { rewrite <- Hin in Hthis. simpl in Hthis. set_solver. }
  destruct (path_to_root_rep fuel h' (T c l rt r) this rt Hrep eq_refl)
    as (path & Hpath & Hlast).
  { rewrite Hin. assumption. }
  { rewrite Hin. assumption. }
  unfold ripple_structure_fixup.
  rewrite (ripple_loop_exec _ _ _ _ _ _ _ Hpath). rewrite Hlast.
  apply HQ; [assumption|reflexivity].
Qed.

(** C10. In [rebalance_after_remove] with removed colour BLACK, run on a
    tree that was balanced before a BLACK node was taken off the position
    the walk starts from, no absent pointer is dereferenced: the sibling is
    present where its colour is read and its far child is present where it
    is recoloured, so the run ends normally (the model turns any dereference
    of an absent pointer into [Fault]).  The heap then holds a tree with the
    same in-order sequence, and its root is returned. *)
Theorem rebalance_after_remove_no_null (fuel : nat) (k : list frame)
  (t before : tree) (this : nat) (d : Direction) (h : gmap nat RBNode)
  (hk : list HookCall) :
  zrep h k t -> dir_ok d k t -> anchor_of k t = Some this ->
  balanced (plug k before) -> bh before = S (bh t) -> balanced t ->
  length (inorder (plug k t)) < fuel ->
  exists root s' res,
    rebalance_after_remove fuel this BLACK d (mkState h hk) = Done root s' /\
    rep (heap s') res None /\
    root_of res = Some root /\
    inorder res = inorder (plug k t).
Proof.
  intros Hz Hd Ha Hbefore Hbh Hb Hfuel.
  apply balanced_plug in Hbefore as (_ & Hcb). rewrite Hbh in Hcb.
  pose proof (length_inorder_plug k t) as Hlen.
  destruct (del_fix_safe fuel k t) as (res & Hfix); [lia|assumption..|].
  pose proof (del_fix_inorder _ _ _ _ Hfix) as Hin.
  cut (yields (rebalance_after_remove fuel this BLACK d (mkState h hk))
         (fun root s' => rep (heap s') res None /\ root_of res = Some root)).
  { intros Hy. apply yields_Done in Hy as (root & s' & Hrun & Hrep & Hroot).
    exists root, s', res. tauto. }
  rewrite <- bind_ret_r.
  eapply rebalance_after_remove_black; try eassumption; [lia|].
  intros h' hk' root Hrep Hroot. simpl. tauto.
Qed.

Lemma rebalance_after_remove_no_null_witness :
  exists root s' res,
    rebalance_after_remove 3 10 BLACK LEFT (mkState clipped_heap [])
    = Done root s' /\
    rep (heap s') res None /\
    root_of res = Some root /\
    inorder res = inorder (plug [FL BLACK 10 (T BLACK E 15 E)] E).
Proof.
  apply (rebalance_after_remove_no_null 3 [FL BLACK 10 (T BLACK E 15 E)]
           E (T BLACK E 5 E) 10 LEFT clipped_heap []).
  - repeat split. apply (bool_decide_unpack _). vm_compute. reflexivity.
  - reflexivity.
  - reflexivity.
  - simpl. tauto.
  - reflexivity.
  - exact I.
  - simpl. lia.
Defined.

(** ** Splicing a node out of a tree *)

Lemma zrep_app h k1 k2 t : zrep h (k1 ++ k2) t <-> zrep h k2 (plug k1 t).
Proof. rewrite !zrep_plug, plug_app. reflexivity. Qed.

Lemma cin_l_app k1 k2 : cin_l (k1 ++ k2) = cin_l k2 ++ cin_l k1.
Proof.
  induction k1 as [|f k1 IH]; simpl; [rewrite app_nil_r; reflexivity|].
  destruct f; [assumption|]. rewrite IH. list_normal. reflexivity.
Qed.

Lemma cin_r_app k1 k2 : cin_r (k1 ++ k2) = cin_r k1 ++ cin_r k2.
Proof.
  induction k1 as [|f k1 IH]; simpl; [reflexivity|].
  destruct f; [|assumption]. rewrite IH. list_normal. reflexivity.
Qed.

(** One list is the other with some elements left out. *)
Ltac sublist_solve :=
  list_normal;
  repeat first
    [ reflexivity
    | apply sublist_nil_l
    | apply sublist_app; [reflexivity|]
    | apply sublist_skip
    | apply sublist_cons
    | apply sublist_inserts_l ].

Lemma NoDup_replace_mid {A} (l1 l2 : list A) x s :
  NoDup (l1 ++ x :: l2) -> s ∉ l1 -> s ∉ l2 -> NoDup (l1 ++ s :: l2).
Proof.
  rewrite !NoDup_app, !NoDup_cons. intros (? & H & ? & ?) ? ?.
  repeat split; try assumption.
  intros i Hi. specialize (H i Hi). rewrite not_elem_of_cons in *.
  split; [|tauto]. intros ->. contradiction.
Qed.

(** Clipping a leaf off its parent: [set_child(nullptr, d)] on the parent. *)
Lemma clip_leaf h hk f up ct t :
  zrep h (f :: up) (T ct E t E) ->
  exists h',
    (forall B (kont : ptr -> M B),
        bind (set_child (frame_node f) None (frame_side f)) kont (mkState h hk)
        = kont None (mkState h' hk)) /\
    zrep h' (f :: up) E /\
    h' !! t = h !! t.
Proof.
  intros Hz. destruct f as [pc p s|pc s p]; zrep_facts Hz.
  - eexists. split; [intros B kont; unfold set_child; zexec; reflexivity|].
    split; [|zlookup]. unfold zrep. simpl. split; [exact I|].
    split; [split; [split; [zlookup|]|]|].
    + rewrite rep_insert by assumption. assumption.
    + rewrite crep_insert' by assumption. assumption.
    + eapply sublist_NoDup; [exact Hnodup|]. sublist_solve.
  - eexists. split; [intros B kont; unfold set_child; zexec; reflexivity|].
    split; [|zlookup]. unfold zrep. simpl. split; [exact I|].
    split; [split; [split; [zlookup|]|]|].
    + rewrite rep_insert by assumption. assumption.
    + rewrite crep_insert' by assumption. assumption.
    + eapply sublist_NoDup; [exact Hnodup|]. sublist_solve.
Qed.

Lemma other_than_ne n l : l <> Some n -> other_than n l = l.
Proof. intros H. unfold other_than. rewrite decide_False by assumption. reflexivity. Qed.

Lemma other_than_eq n : other_than n (Some n) = None.
Proof. unfold other_than. rewrite decide_True by reflexivity. reflexivity. Qed.

(** [x.replace_with(s)] for a node [s] outside the tree: [s] takes the
    place, the colour and the subtrees of [x]. *)
Lemma replace_detached h hk k c l x r s ns :
  zrep h k (T c l x r) ->
  h !! s = Some ns ->
  s ∉ inorder (plug k (T c l x r)) ->
  exists h',
    (forall B (kont : unit -> M B),
        bind (replace_with x s) kont (mkState h hk) = kont tt (mkState h' hk)) /\
    zrep h' k (T c l s r).
Proof.
  intros Hz Hs Hout. rewrite inorder_plug in Hout. simpl in Hout.
  list_normal_in Hout.
  repeat first [rewrite not_elem_of_app in Hout | rewrite not_elem_of_cons in Hout].
  destruct Hout as (Hs1 & Hs2 & Hs3 & Hs4 & Hs5).
  pose proof Hz as (Hrep & Hcrep & Hnd). simpl in Hrep, Hnd.
  destruct Hrep as (Hx & Hl & Hr).
  pose proof Hnd as N. nodup_facts N.
  set (nt := mkNode c (cparent k) (root_of l) (root_of r)) in *.
  assert (Hpar : forall p, cparent k = Some p ->
                           p <> x /\ p <> s /\ (p ∉ inorder l) /\ (p ∉ inorder r)).
  { intros p Hp. apply cparent_elem in Hp. rewrite elem_of_app in Hp.
    repeat split; try nd_solve N Hp. intros ->. tauto. }
  assert (Hch : forall i, root_of l = Some i \/ root_of r = Some i ->
                          i <> x /\ i <> s /\ (i ∉ (cin_l k ++ cin_r k)) /\
                          is_Some (h !! i)).
  { intros i [Hi|Hi]; pose proof (root_of_elem _ _ Hi) as Hin.
    - destruct (rep_root_lookup _ _ _ _ Hl Hi) as (? & ? & _).
      rewrite elem_of_app. repeat split; eauto; try nd_solve N Hin.
      intros ->. tauto.
    - destruct (rep_root_lookup _ _ _ _ Hr Hi) as (? & ? & _).
      rewrite elem_of_app. repeat split; eauto; try nd_solve N Hin.
      intros ->. tauto. }
  assert (Hxs : x <> s) by congruence.
  exists (replaced h x s nt). split.
  { intros B kont. eapply replace_with_exec; try eassumption.
    - simpl. intros p Hp.
      destruct (crep_parent_lookup _ _ _ _ Hcrep Hp) as (np & Hnp).
      destruct (Hpar p Hp) as (? & ? & _). eauto.
    - simpl. intros i Hi. destruct (Hch i Hi) as (? & ? & Hk & ?).
      repeat split; try assumption.
      intros E. apply cparent_elem in E. contradiction. }
  assert (Hol : other_than s (root_of l) = root_of l)
    by (apply other_than_ne, root_of_ne; assumption).
  assert (Hor : other_than s (root_of r) = root_of r)
    by (apply other_than_ne, root_of_ne; assumption).
  assert (Hdisj_lr : forall i, root_of r = Some i -> i ∉ inorder l).
  { intros i Hi. apply root_of_elem in Hi. nd_solve N Hi. }
  assert (Hdisj_rl : forall i, root_of l = Some i -> i ∉ inorder r).
  { intros i Hi. apply root_of_elem in Hi. nd_solve N Hi. }
  unfold replaced, nt. simpl. rewrite Hol, Hor.
  split; [|split].
  - simpl. split; [|split].
    + rewrite lookup_insert_ne by congruence.
      rewrite !lookup_alter_at_ne
        by (first [apply root_of_ne; assumption]).
      apply lookup_insert_eq.
    + rewrite rep_insert by nd_solve N.
      rewrite rep_alter_at by assumption.
      eapply rep_reroot; [tauto|].
      rewrite rep_insert by assumption.
      rewrite rep_alter_at by (intros p Hp; apply Hpar in Hp; tauto).
      eassumption.
    + rewrite rep_insert by nd_solve N.
      eapply rep_reroot; [tauto|].
      rewrite rep_alter_at by assumption.
      rewrite rep_insert by assumption.
      rewrite rep_alter_at by (intros p Hp; apply Hpar in Hp; tauto).
      eassumption.
  - rewrite crep_insert' by nd_solve N.
    rewrite !crep_alter_at
      by (intros i Hi; eapply Hch; eauto).
    rewrite crep_insert' by assumption.
    apply crep_rehole; [|assumption].
    eapply sublist_NoDup; [exact Hnd|]. sublist_solve.
  - simpl. list_normal. list_normal_in Hnd.
    rewrite app_assoc. apply (NoDup_replace_mid _ _ x).
    + rewrite <- app_assoc. assumption.
    + rewrite not_elem_of_app. tauto.
    + rewrite not_elem_of_app. tauto.
Qed.

(** [t.replace_with(y)] for the only child [y] of [t]: [y] takes the place
    and the colour of [t], and loses its own children. *)
Lemma replace_only_child h hk k ct cy yl y yr t tree_t :
  tree_t = T ct (T cy yl y yr) t E \/ tree_t = T ct E t (T cy yl y yr) ->
  zrep h k tree_t ->
  exists h',
    (forall B (kont : unit -> M B),
        bind (replace_with t y) kont (mkState h hk) = kont tt (mkState h' hk)) /\
    zrep h' k (T ct E y E) /\
    is_Some (h' !! t).
Proof.
  intros Hshape Hz.
  assert (Hgen : exists nt,
    h !! t = Some nt /\ _color nt = ct /\ _parent nt = cparent k /\
    (_left nt = Some y /\ _right nt = None \/
     _left nt = None /\ _right nt = Some y) /\
    is_Some (h !! y) /\ t <> y /\
    crep h k (Some t) /\
    (t ∉ cin_l k) /\ (t ∉ cin_r k) /\ (y ∉ cin_l k) /\ (y ∉ cin_r k) /\
    NoDup (cin_l k ++ t :: cin_r k) /\ NoDup (cin_l k ++ y :: cin_r k)).
  { destruct Hshape as [-> | ->]; zrep_facts Hz; eexists;
      (split; [eassumption|]); simpl;
      repeat match goal with |- _ /\ _ => split end;
      try reflexivity; try assumption; eauto;
      try (eapply sublist_NoDup; [exact Hnodup|]; sublist_solve). }
  destruct Hgen as (nt & Ht & Hc & Hp & Hch & [ny Hy] & Hty & Hcrep &
                    Ht1 & Ht2 & Hy1 & Hy2 & Hnd1 & Hnd2).
  assert (Hpar : forall p, cparent k = Some p -> p <> t /\ p <> y).
  { intros p Hpp. apply cparent_elem in Hpp. rewrite elem_of_app in Hpp.
    split; intros ->; tauto. }
  exists (replaced h t y nt). split.
  { intros B kont. eapply replace_with_exec; try eassumption.
    - rewrite Hp. intros p Hpp.
      destruct (crep_parent_lookup _ _ _ _ Hcrep Hpp) as (np & Hnp).
      destruct (Hpar p Hpp). eauto.
    - intros i Hi. rewrite Hp.
      assert (i = y) as -> by (destruct Hch as [(? & ?)|(? & ?)], Hi; congruence).
      repeat split; eauto. intros E. destruct (Hpar _ E). congruence. }
  assert (Hrep : replaced h t y nt
                 = <[t := with_left None (with_right None nt)]>
                     (<[y := mkNode ct (cparent k) None None]>
                        (alter_at (cparent k)
                           (fun np => with_child (node_direction np (Some t))
                                        (Some y) np) h))).
  { unfold replaced. rewrite Hc, Hp.
    destruct Hch as [(-> & ->)|(-> & ->)];
      rewrite other_than_eq; unfold other_than;
      rewrite decide_False by discriminate; reflexivity. }
  rewrite Hrep. split; [|rewrite lookup_insert_eq; eauto].
  split; [|split].
  - simpl. rewrite lookup_insert_ne by congruence.
    rewrite lookup_insert_eq. tauto.
  - simpl. rewrite !crep_insert' by assumption.
    apply crep_rehole; assumption.
  - simpl. assumption.
Qed.

(** ** The end of [remove]: rebalancing and the root forced BLACK *)

Lemma red_black_blacken t :
  balanced t -> no_red_red (blacken t) -> t <> E -> red_black (blacken t).
Proof.
  intros Hb Hn Ht. split; [destruct t; [congruence|reflexivity]|].
  split; [assumption|apply -> balanced_blacken; assumption].
Qed.

Lemma remove_finish fuel k t this c d h hk :
  zrep h k t -> dir_ok d k t -> anchor_of k t = Some this ->
  (c = RED -> balanced (plug k t) /\ no_red_red (blacken (plug k t))) ->
  (c = BLACK -> balanced t /\ cbal k (S (bh t)) /\
                no_red_red (blacken t) /\ cnrr k BLACK) ->
  length (inorder (plug k t)) < fuel ->
  yields (bind (rebalance_after_remove fuel this c d)
            (fun root => set_color root BLACK ;;; ret (Some root))
            (mkState h hk))
    (fun r s' => exists t', rep (heap s') t' None /\ root_of t' = r /\
                            red_black t' /\
                            inorder t' = inorder (plug k t)).
Proof.
  intros Hz Hd Ha Hred Hblack Hfuel.
  pose proof (length_inorder_plug k t) as Hlen.
  assert (Hnd : NoDup (inorder (plug k t))) by (apply zrep_plug in Hz; tauto).
  assert (Hfin : forall res h' hk' root,
    rep h' res None -> root_of res = Some root ->
    balanced res -> no_red_red (blacken res) ->
    inorder res = inorder (plug k t) ->
    yields (bind (set_color root BLACK) (fun _ => ret (Some root))
              (mkState h' hk'))
      (fun r s' => exists t', rep (heap s') t' None /\ root_of t' = r /\
                              red_black t' /\
                              inorder t' = inorder (plug k t))).
  { intros res h' hk' root Hrep Hroot Hb Hn Hin.
    destruct (rep_blacken_root h' res root) as (nd & Hnd' & Hrep');
      [rewrite Hin; assumption|assumption..|].
    unfold set_color. erewrite bind_modify by eassumption. simpl.
    exists (blacken res). split; [assumption|].
    split; [destruct res; [discriminate|assumption]|].
    split; [apply red_black_blacken; try assumption;
            destruct res; [discriminate|congruence]|].
    rewrite inorder_blacken. assumption. }
  destruct c.
  - (* RED: the hooks only *)
    destruct (Hred eq_refl) as (Hb & Hn).
    unfold rebalance_after_remove. rewrite decide_False by discriminate.
    rewrite !bind_bind, bind_ret.
    pose proof (anchor_elem _ _ _ Ha) as Hthis.
    pose proof (zrep_rep _ _ _ Hz) as Hrep.
    destruct (plug k t) as [|cr l rt r] eqn:Hplug; [simpl in Hthis; set_solver|].
    destruct (path_to_root_rep fuel h (T cr l rt r) this rt Hrep eq_refl Hthis)
      as (path & Hpath & Hlast); [lia|].
    unfold ripple_structure_fixup.
    rewrite (ripple_loop_exec _ _ _ _ _ _ _ Hpath), Hlast.
    eapply Hfin; try eassumption; reflexivity.
  - destruct (Hblack eq_refl) as (Hb & Hcb & Hn & Hcn).
    destruct (del_fix_ok fuel k t) as (res & Hfix & Hbr & Hnr);
      try assumption; [lia|].
    eapply rebalance_after_remove_black; try eassumption; [lia|].
    intros h' hk' root Hrep Hroot.
    eapply Hfin; try eassumption.
    eapply del_fix_inorder; eassumption.
Qed.

(** ** The successor of a node with two children *)

(** Every tree has a left-most node, reached through left links only. *)
Lemma left_spine r :
  r <> E ->
  exists kr cs s sr,
    r = plug kr (T cs E s sr) /\ Forall (fun f => frame_side f = LEFT) kr.
Proof.
  induction r as [|c l IHl x rr _]; [congruence|]. intros _.
  destruct l as [|cl ll y lr].
  - exists [], c, x, rr. split; [reflexivity|constructor].
  - destruct IHl as (kr & cs & s & sr & Heq & Hall); [discriminate|].
    exists (kr ++ [FL c x rr]), cs, s, sr. split.
    + rewrite plug_app, <- Heq. reflexivity.
    + apply Forall_app. split; [assumption|]. repeat constructor.
Qed.

Lemma root_of_plug_is_Some k c l x r : is_Some (root_of (plug k (T c l x r))).
Proof. rewrite (root_of_plug k (T c l x r) x eq_refl). eauto. Qed.

Lemma left_most_descendant_exec h hk kr :
  forall fuel par cs s sr ri,
    Forall (fun f => frame_side f = LEFT) kr ->
    rep h (plug kr (T cs E s sr)) par ->
    root_of (plug kr (T cs E s sr)) = Some ri ->
    length kr <= fuel ->
    forall B (kont : nat -> M B),
      bind (left_most_descendant fuel ri) kont (mkState h hk)
      = kont s (mkState h hk).
Proof.
  induction kr as [|f kr IH] using rev_ind;
    intros fuel par cs s sr ri Hall Hrep Hri Hfuel B kont.
  - simpl in *. injection Hri as <-. destruct Hrep as (Hs & _).
    destruct fuel; simpl; rewrite bind_bind; erewrite bind_get by eassumption;
      simpl; rewrite bind_ret; reflexivity.
  - rewrite plug_app in Hrep, Hri. simpl in Hrep, Hri.
    apply Forall_app in Hall as (Hall & Hf).
    apply Forall_inv in Hf.
    destruct f as [cf xf rf|cf lf xf]; [|discriminate Hf].
    simpl in Hrep, Hri. injection Hri as <-.
    destruct Hrep as (Hx & Hl & _).
    destruct (root_of_plug_is_Some kr cs E s sr) as (li & Hli).
    rewrite Hli in Hx.
    rewrite length_app in Hfuel. simpl in Hfuel.
    destruct fuel as [|fuel]; [lia|].
    simpl. rewrite bind_bind. erewrite bind_get by eassumption. simpl.
    eapply IH; try eassumption. lia.
Qed.

Lemma left_spine_cin_l kr :
  Forall (fun f => frame_side f = LEFT) kr -> cin_l kr = [].
Proof.
  induction 1 as [|f kr Hf _ IH]; [reflexivity|].
  destruct f; [assumption|discriminate].
Qed.

(** ** The shape of the nodes with an absent child *)

Lemma bh_zero_shape t :
  balanced t -> no_red_red t -> bh t = 0 ->
  t = E \/ exists y, t = T RED E y E.
Proof.
  destruct t as [|c l y r]; [left; reflexivity|]. simpl.
  intros (Hlr & Hl & Hr) (Hc & Hnl & Hnr) Hbh. right. exists y.
  destruct c; simpl in Hbh; [|lia].
  destruct (Hc eq_refl) as (Hcl & Hcr).
  destruct l as [|[] ? ? ?]; simpl in *; try discriminate; try lia.
  destruct r as [|[] ? ? ?]; simpl in *; try discriminate; try lia.
  reflexivity.
Qed.

(** A node with one child only: the node is BLACK and the child is a RED
    leaf. *)
Lemma one_child_left c l x :
  balanced (T c l x E) -> no_red_red (T c l x E) -> l <> E ->
  c = BLACK /\ exists y, l = T RED E y E.
Proof.
  simpl. intros (Hlr & Hl & _) (Hc & Hnl & _) Hne.
  destruct (bh_zero_shape l Hl Hnl Hlr) as [->|(y & ->)]; [congruence|].
  split; [|eauto]. destruct c; [|reflexivity].
  destruct (Hc eq_refl) as (Hcl & _). discriminate.
Qed.

Lemma one_child_right c x r :
  balanced (T c E x r) -> no_red_red (T c E x r) -> r <> E ->
  c = BLACK /\ exists y, r = T RED E y E.
Proof.
  simpl. intros (Hlr & _ & Hr) (Hc & _ & Hnr) Hne.
  destruct (bh_zero_shape r Hr Hnr (eq_sym Hlr)) as [->|(y & ->)]; [congruence|].
  split; [|eauto]. destruct c; [|reflexivity].
  destruct (Hc eq_refl) as (_ & Hcr). discriminate.
Qed.

(** The balance and the colouring of a context do not depend on the names
    of its nodes. *)
Lemma cbal_rename k1 k2 f f' n :
  sibling f = sibling f' -> frame_color f = frame_color f' ->
  cbal (k1 ++ f :: k2) n -> cbal (k1 ++ f' :: k2) n.
Proof.
  intros Hs Hc. revert n. induction k1 as [|g k1 IH]; intros n; simpl.
  - rewrite Hs, Hc. tauto.
  - intros (? & ? & ?). auto.
Qed.

Lemma cnrr_rename k1 k2 f f' hc :
  sibling f = sibling f' -> frame_color f = frame_color f' ->
  cnrr (k1 ++ f :: k2) hc -> cnrr (k1 ++ f' :: k2) hc.
Proof.
  intros Hs Hc. revert hc. induction k1 as [|g k1 IH]; intros hc; simpl.
  - rewrite Hs, Hc. tauto.
  - intros (? & ? & ?). auto.
Qed.

(** ** [remove]: the node taken out and the node put in its place *)

(** A focused representation on a heap of updates, some nodes of the tree
    left out. *)
Ltac zrep_sub N :=
  unfold zrep; simpl;
  repeat match goal with
         | |- _ /\ _ => split
         | |- True => exact I
         | |- _ !! _ = Some _ => solve [zlookup]
         | |- rep _ _ _ => rewrite ?rep_insert by assumption; assumption
         | |- crep _ _ _ => rewrite ?crep_insert' by assumption; assumption
         | |- NoDup _ => eapply sublist_NoDup; [exact N|]; sublist_solve
         end.

(** The target is a leaf below a parent: it is clipped off. *)
Lemma remove_splice_leaf fuel h hk f up c x B (kont : _ -> M B) Q :
  zrep h (f :: up) (T c E x E) ->
  (forall h', zrep h' (f :: up) E ->
              yields (kont (frame_node f, c, frame_side f) (mkState h' hk)) Q) ->
  yields (bind (remove_splice fuel x) kont (mkState h hk)) Q.
Proof.
  intros Hz HQ. destruct f as [pc p s|pc s p]; zrep_facts Hz;
    unfold remove_splice, remove_target; zexec; apply HQ; zrep_sub Hnodup.
Qed.

(** The target has one child: the child takes its place. *)
Lemma remove_splice_one_child fuel h hk k c cy yl y yr x tree_t
    B (kont : _ -> M B) Q :
  tree_t = T c (T cy yl y yr) x E \/ tree_t = T c E x (T cy yl y yr) ->
  zrep h k tree_t ->
  (forall h', zrep h' k (T c E y E) ->
              yields (kont (y, cy, NONE) (mkState h' hk)) Q) ->
  yields (bind (remove_splice fuel x) kont (mkState h hk)) Q.
Proof.
  intros Hs Hz HQ.
  destruct (replace_only_child h hk k c cy yl y yr x tree_t Hs Hz)
    as (h' & Hexec & Hz' & _).
  destruct Hs as [-> | ->]; zrep_facts Hz;
    unfold remove_splice, remove_target; zexec; rewrite Hexec; zexec;
    apply HQ; assumption.
Qed.

Lemma zrep_successor h k c l x kr t :
  zrep h k (T c l x (plug kr t)) <-> zrep h (kr ++ FR c l x :: k) t.
Proof. rewrite zrep_app. rewrite zrep_up. reflexivity. Qed.

Lemma cin_l_successor k c l x kr :
  x ∈ cin_l (kr ++ FR c l x :: k).
Proof. rewrite cin_l_app. simpl. set_solver. Qed.

(** The target has two children and its successor has a right child: the
    child takes the place of the successor, and the successor the place of
    the target. *)
Lemma remove_splice_successor_child fuel h hk k c l x kr cs s cz zl z zr
    B (kont : _ -> M B) Q :
  zrep h k (T c l x (plug kr (T cs E s (T cz zl z zr)))) ->
  l <> E -> Forall (fun f => frame_side f = LEFT) kr -> length kr <= fuel ->
  (forall h', zrep h' (kr ++ FR c l s :: k) (T cs E z E) ->
              yields (kont (z, cz, NONE) (mkState h' hk)) Q) ->
  yields (bind (remove_splice fuel x) kont (mkState h hk)) Q.
Proof.
  intros Hz Hl Hall Hfuel HQ.
  pose proof Hz as ((Hx & _ & Hr) & _ & _).
  destruct (root_of_plug_is_Some kr cs E s (T cz zl z zr)) as (ri & Hri).
  destruct l as [|cl ll y lr]; [congruence|]. simpl in Hx. rewrite Hri in Hx.
  pose proof (cin_l_successor k c (T cl ll y lr) x kr) as Hxin.
  apply zrep_successor in Hz.
  remember (kr ++ FR c (T cl ll y lr) x :: k) as K eqn:HK.
  destruct (replace_only_child h hk K cs cz zl z zr s _ (or_intror eq_refl) Hz)
    as (h1 & Hexec1 & Hz1 & (ns & Hs1)).
  pose proof Hz1 as Hz1'. rewrite HK in Hz1'. apply zrep_successor in Hz1'.
  assert (Hout : s ∉ inorder (plug k (T c (T cl ll y lr) x
                                        (plug kr (T cs E z E))))).
  { change (s ∉ inorder (plug (FR c (T cl ll y lr) x :: k)
                           (plug kr (T cs E z E)))).
    rewrite <- plug_app, <- HK, inorder_plug. simpl.
    zrep_facts Hz. set_solver. }
  destruct (replace_detached h1 hk k c _ x _ s ns Hz1' Hs1 Hout)
    as (h2 & Hexec2 & Hz2).
  apply zrep_successor in Hz2.
  zrep_facts Hz.
  assert (s <> x) by (intros ->; contradiction).
  assert (z <> x) by (intros ->; contradiction).
  unfold remove_splice, remove_target. zexec.
  rewrite (left_most_descendant_exec h hk kr fuel (Some x) cs s _ ri Hall Hr Hri
             Hfuel).
  zexec. rewrite Hexec1. zexec. rewrite Hexec2. zexec.
  apply HQ. assumption.
Qed.

(** The target has two children and its successor is a leaf: the successor
    is clipped off and takes the place of the target. *)
Lemma remove_splice_successor_leaf fuel h hk k c l x kr cs s
    B (kont : _ -> M B) Q :
  zrep h k (T c l x (plug kr (T cs E s E))) ->
  l <> E -> Forall (fun f => frame_side f = LEFT) kr -> length kr <= fuel ->
  (forall h' a d,
      zrep h' (kr ++ FR c l s :: k) E ->
      anchor_of (kr ++ FR c l s :: k) E = Some a ->
      dir_ok d (kr ++ FR c l s :: k) E ->
      yields (kont (a, cs, d) (mkState h' hk)) Q) ->
  yields (bind (remove_splice fuel x) kont (mkState h hk)) Q.
Proof.
  intros Hz Hl Hall Hfuel HQ.
  pose proof Hz as ((Hx & _ & Hr) & _ & _).
  destruct (root_of_plug_is_Some kr cs E s E) as (ri & Hri).
  destruct l as [|cl ll y lr]; [congruence|]. simpl in Hx. rewrite Hri in Hx.
  pose proof (cin_l_successor k c (T cl ll y lr) x kr) as Hxin.
  apply zrep_successor in Hz.
  assert (Hout : forall h1,
    zrep h1 (kr ++ FR c (T cl ll y lr) x :: k) E ->
    h1 !! s = h !! s ->
    exists h2,
      (forall B (kont : unit -> M B),
          bind (replace_with x s) kont (mkState h1 hk)
          = kont tt (mkState h2 hk)) /\
      zrep h2 (kr ++ FR c (T cl ll y lr) s :: k) E).
  { intros h1 Hz1 Hs1. pose proof Hz as ((Hs & _) & _ & Hnd).
    rewrite <- Hs1 in Hs. apply zrep_successor in Hz1.
    destruct (replace_detached h1 hk k c _ x _ s _ Hz1 Hs)
      as (h2 & Hexec2 & Hz2).
    - change (s ∉ inorder (plug (FR c (T cl ll y lr) x :: k) (plug kr E))).
      rewrite <- plug_app, inorder_plug. simpl. simpl in Hnd.
      nd_atoms Hnd. set_solver.
    - exists h2. split; [assumption|]. apply zrep_successor. assumption. }
  pose proof (left_most_descendant_exec h hk kr fuel (Some x) cs s E ri Hall Hr
                Hri Hfuel) as Hlmd.
  destruct kr as [|f kr].
  - simpl in *. injection Hri as <-.
    zrep_facts Hz.
    assert (s <> x) by congruence.
    destruct (Hout (<[x := mkNode c (cparent k) (Some y) None]> h))
      as (h2 & Hexec2 & Hz2).
    { zrep_sub Hnodup. }
    { zlookup. }
    unfold remove_splice, remove_target. zexec. rewrite Hlmd. zexec.
    rewrite Hexec2. zexec. apply (HQ h2 s RIGHT); [assumption|reflexivity..].
  - apply Forall_cons in Hall as (Hf & Hall').
    destruct f as [cf p sib|]; [|discriminate Hf].
    simpl in Hz, Hxin, Hr, Hri, Hout, HQ |- *.
    remember (kr ++ FR c (T cl ll y lr) x :: k) as up eqn:Hup.
    zrep_facts Hz.
    assert (s <> x) by (intros ->; contradiction).
    assert (p <> x) by (intros ->; contradiction).
    destruct (Hout (<[p := mkNode cf (cparent up) None (root_of sib)]> h))
      as (h2 & Hexec2 & Hz2).
    { zrep_sub Hnodup. }
    { zlookup. }
    unfold remove_splice, remove_target. zexec. rewrite Hlmd. zexec. rewrite Hexec2. zexec. apply (HQ h2 p LEFT); [assumption|reflexivity..].
Qed.

(** ** [remove] *)

Lemma yields_mono {A} (o : outcome A) (Q Q' : A -> State -> Prop) :
  (forall a s, Q a s -> Q' a s) -> yields o Q -> yields o Q'.
Proof. destruct o; simpl; auto. Qed.

Lemma plug_valid k t :
  balanced t -> cbal k (bh t) -> no_red_red t -> cnrr k (color_of t) ->
  balanced (plug k t) /\ no_red_red (blacken (plug k t)).
Proof.
  intros. split; [apply balanced_plug; tauto|].
  apply no_red_red_blacken, no_red_red_plug. tauto.
Qed.

Ltac len_solve H :=
  rewrite ?inorder_plug, ?length_app;
  rewrite ?inorder_plug, ?length_app in H;
  cbn [inorder app length] in H |- *;
  rewrite ?length_app in H |- *;
  cbn [inorder app length] in H |- *;
  lia.

Lemma plug_successor k c l x kr t :
  plug (kr ++ FR c l x :: k) t = plug k (T c l x (plug kr t)).
Proof. rewrite plug_app. reflexivity. Qed.

Lemma inorder_successor k c l x kr t :
  Forall (fun f => frame_side f = LEFT) kr ->
  inorder (plug (kr ++ FR c l x :: k) t)
  = cin_l k ++ inorder l ++ x :: inorder t ++ cin_r kr ++ cin_r k.
Proof.
  intros Hall. rewrite inorder_plug, cin_l_app, cin_r_app.
  rewrite (left_spine_cin_l kr Hall). simpl. list_normal. reflexivity.
Qed.

(** The general case of [remove]: the target is not a root with an absent
    child. *)
Lemma remove_general fuel h hk k c l x r :
  zrep h k (T c l x r) ->
  balanced (plug k (T c l x r)) -> no_red_red (plug k (T c l x r)) ->
  k <> [] \/ (l <> E /\ r <> E) ->
  length (inorder (plug k (T c l x r))) <= fuel ->
  yields (bind (remove_splice fuel x)
            (fun anchor =>
               let '(splice_node, remove_color, d) := anchor in
               root <- rebalance_after_remove fuel splice_node remove_color d ;;
               set_color root BLACK ;;;
               ret (Some root))
            (mkState h hk))
    (fun r' s' => exists t', rep (heap s') t' None /\ root_of t' = r' /\
                             red_black t' /\
                             inorder t' = cin_l k ++ inorder l ++ inorder r
                                                  ++ cin_r k).
Proof.
  intros Hz Hbal Hnrr Hcase Hfuel.
  pose proof Hbal as Hb. apply balanced_plug in Hb as (Hbt & Hcb).
  pose proof Hnrr as Hn. apply no_red_red_plug in Hn as (Hnt & Hcn).
  assert (Hre : r = E \/ r <> E) by (destruct r; [left|right]; congruence).
  destruct l as [|cl ll y lr]; [destruct r as [|cr rl z rr]|
                                destruct Hre as [->|Hre]].
  - (* a leaf *)
    destruct k as [|f up]; [destruct Hcase as [?|(? & _)]; congruence|].
    eapply remove_splice_leaf; [eassumption|]. intros h' Hz'.
    eapply yields_mono;
      [|eapply (remove_finish fuel (f :: up) E (frame_node f) c (frame_side f))].
    + intros a s (t' & ? & ? & ? & Hin). exists t'.
      split; [assumption|split; [assumption|split; [assumption|]]].
      rewrite Hin, inorder_plug. reflexivity.
    + assumption.
    + reflexivity.
    + reflexivity.
    + intros ->. apply plug_valid; simpl in *; tauto.
    + intros ->. simpl in *. repeat split; try tauto.
    + len_solve Hfuel.
  - (* a right child only *)
    destruct (one_child_right _ _ _ Hbt Hnt) as (-> & y & [= -> -> -> ->]);
      [discriminate|].
    eapply remove_splice_one_child; [right; reflexivity|eassumption|].
    intros h' Hz'.
    eapply yields_mono;
      [|eapply (remove_finish fuel k (T BLACK E y E) y RED NONE)].
    + intros a s (t' & ? & ? & ? & Hin). exists t'.
      split; [assumption|split; [assumption|split; [assumption|]]].
      rewrite Hin, inorder_plug. reflexivity.
    + assumption.
    + reflexivity.
    + reflexivity.
    + intros _. apply plug_valid; simpl in *; tauto.
    + discriminate.
    + len_solve Hfuel.
  - (* a left child only *)
    destruct (one_child_left _ _ _ Hbt Hnt) as (-> & z & [= -> -> -> ->]);
      [discriminate|].
    eapply remove_splice_one_child; [left; reflexivity|eassumption|].
    intros h' Hz'.
    eapply yields_mono;
      [|eapply (remove_finish fuel k (T BLACK E z E) z RED NONE)].
    + intros a s (t' & ? & ? & ? & Hin). exists t'.
      split; [assumption|split; [assumption|split; [assumption|]]].
      rewrite Hin, inorder_plug. simpl. list_normal. reflexivity.
    + assumption.
    + reflexivity.
    + reflexivity.
    + intros _. apply plug_valid; simpl in *; tauto.
    + discriminate.
    + len_solve Hfuel.
  - (* two children: the successor is taken out *)
    destruct (left_spine r Hre) as (kr & cs & s & sr & -> & Hall).
    clear Hbt Hcb Hnt Hcn Hre Hcase.
    set (l := T cl ll y lr) in *.
    rewrite <- plug_successor in Hbal, Hnrr, Hfuel.
    pose proof (length_inorder_plug (kr ++ FR c l x :: k) (T cs E s sr)) as Hlen.
    assert (Hkr : length kr <= fuel) by (rewrite length_app in Hlen; lia).
    clear Hlen.
    rewrite inorder_successor in Hfuel by assumption.
    apply balanced_plug in Hbal as (Hbs & Hcb).
    apply no_red_red_plug in Hnrr as (Hns & Hcn).
    assert (Hcb' := cbal_rename kr k (FR c l x) (FR c l s) _ eq_refl eq_refl Hcb).
    assert (Hcn' := cnrr_rename kr k (FR c l x) (FR c l s) _ eq_refl eq_refl Hcn).
    destruct (bh_zero_shape sr) as [->|(z & ->)];
      [simpl in Hbs, Hns; first [tauto|symmetry; tauto]..| |].
    + eapply remove_splice_successor_leaf;
        [eassumption|discriminate|assumption|assumption|].
      intros h' a d Hz' Ha Hd.
      eapply yields_mono;
        [|eapply (remove_finish fuel (kr ++ FR c l s :: k) E a cs d)].
      * intros a' s' (t' & ? & ? & ? & Hin). exists t'.
        split; [assumption|split; [assumption|split; [assumption|]]].
        rewrite Hin, inorder_plug, inorder_plug, cin_l_app, cin_r_app.
        rewrite (left_spine_cin_l kr Hall). simpl. list_normal. reflexivity.
      * assumption.
      * assumption.
      * assumption.
      * intros ->. apply plug_valid; [exact I|exact Hcb'|exact I|].
        eapply cnrr_black. exact Hcn'.
      * intros ->. split; [exact I|]. split; [exact Hcb'|].
        split; [exact I|exact Hcn'].
      * rewrite inorder_plug, cin_l_app, cin_r_app, (left_spine_cin_l kr Hall).
        rewrite !length_app in *. simpl in Hfuel |- *.
        rewrite !length_app in *. simpl in Hfuel |- *. lia.
    + assert (cs = BLACK) as ->.
      { destruct cs; [|reflexivity]. simpl in Hns.
        destruct Hns as (Hc & _). destruct (Hc eq_refl). discriminate. }
      eapply remove_splice_successor_child;
        [eassumption|discriminate|assumption|assumption|].
      intros h' Hz'.
      eapply yields_mono;
        [|eapply (remove_finish fuel (kr ++ FR c l s :: k) (T BLACK E z E) z
                    RED NONE)].
      * intros a' s' (t' & ? & ? & ? & Hin). exists t'.
        split; [assumption|split; [assumption|split; [assumption|]]].
        rewrite Hin, inorder_plug, inorder_plug, cin_l_app, cin_r_app.
        rewrite (left_spine_cin_l kr Hall). simpl. list_normal. reflexivity.
      * assumption.
      * reflexivity.
      * reflexivity.
      * intros _. apply plug_valid; [simpl; tauto|exact Hcb'|simpl; tauto|].
        exact Hcn'.
      * discriminate.
      * rewrite inorder_plug, cin_l_app, cin_r_app, (left_spine_cin_l kr Hall).
        rewrite !length_app in *. simpl in Hfuel |- *.
        rewrite !length_app in *. simpl in Hfuel |- *. lia.
Qed.

(** [remove] on a red/black tree: the heap ends up holding a red/black tree
    below the node returned, made of the other nodes in their order. *)
Lemma remove_tree fuel t x h hk :
  rep h t None -> NoDup (inorder t) -> red_black t ->
  x ∈ inorder t -> length (inorder t) <= fuel ->
  exists root s' t',
    remove fuel x (mkState h hk) = Done root s' /\
    rep (heap s') t' None /\ root_of t' = root /\ red_black t' /\
    exists l1 l2, inorder t = l1 ++ x :: l2 /\ inorder t' = l1 ++ l2.
Proof.
  intros Hrep Hnd (Hroot & Hn & Hb) Hx Hfuel.
  destruct (focus_exists _ _ Hx) as (k & c & l & r & <-).
  assert (Hz : zrep h k (T c l x r)) by (apply zrep_plug; split; assumption).
  assert (Hin : inorder (plug k (T c l x r))
                = (cin_l k ++ inorder l) ++ x :: (inorder r ++ cin_r k))
    by (rewrite inorder_plug; simpl; list_normal; reflexivity).
  assert (Hgen : k <> [] \/ (l <> E /\ r <> E) ->
    exists root s' t',
      remove fuel x (mkState h hk) = Done root s' /\
      rep (heap s') t' None /\ root_of t' = root /\ red_black t' /\
      exists l1 l2, inorder (plug k (T c l x r)) = l1 ++ x :: l2 /\
                    inorder t' = l1 ++ l2).
  { intros Hcase.
    pose proof (remove_general fuel h hk k c l x r Hz Hb Hn Hcase Hfuel) as Hy.
    apply yields_Done in Hy as (a & s & Heq & t' & Hr' & Ha & Hrb & Hin').
    exists a, s, t'. split.
    - rewrite <- Heq. unfold remove. pose proof Hz as ((Hxl & _) & _).
      erewrite bind_load by exact Hxl. simpl.
      destruct Hcase as [Hk|(Hl & Hr)].
      + destruct k; [congruence|]. reflexivity.
      + destruct l; [congruence|]. destruct r; [congruence|]. simpl.
        destruct (cparent k); reflexivity.
    - split; [assumption|]. split; [assumption|]. split; [assumption|].
      exists (cin_l k ++ inorder l), (inorder r ++ cin_r k).
      split; [assumption|]. rewrite Hin'. list_normal. reflexivity. }
  destruct k as [|f up]; [|apply Hgen; left; discriminate].
  simpl in Hroot, Hn, Hb.
  destruct l as [|cl ll y lr], r as [|cr rl z rr].
  - (* the only node of the tree *)
    exists None, (mkState h hk), E. split.
    + unfold remove. destruct Hz as ((Hxl & _) & _).
      erewrite bind_load by exact Hxl. reflexivity.
    + split; [exact I|]. split; [reflexivity|].
      split; [repeat split|]. exists [], []. split; reflexivity.
  - (* the root, with a right child only *)
    destruct (one_child_right c x _ Hb Hn) as (-> & y & [= -> -> -> ->]);
      [discriminate|].
    zrep_facts Hz.
    eexists (Some y), _, (T BLACK E y E). split.
    + unfold remove. zexec. reflexivity.
    + simpl. split; [split; [zlookup|tauto]|]. split; [reflexivity|].
      split; [repeat split; discriminate|].
      exists [], [y]. split; reflexivity.
  - (* the root, with a left child only *)
    destruct (one_child_left c _ x Hb Hn) as (-> & z & [= -> -> -> ->]);
      [discriminate|].
    zrep_facts Hz.
    eexists (Some z), _, (T BLACK E z E). split.
    + unfold remove. zexec. reflexivity.
    + simpl. split; [split; [zlookup|tauto]|]. split; [reflexivity|].
      split; [repeat split; discriminate|].
      exists [z], []. split; reflexivity.
  - apply Hgen. right. split; discriminate.
Qed.

(** ** [remove]: the colour handed to [rebalance_after_remove] *)

(** Lines 204-242 of [remove] run to their end on every node of a
    consistently linked tree that is not a root with an absent child. *)
Lemma remove_splice_runs fuel h hk k c l x r :
  zrep h k (T c l x r) ->
  k <> [] \/ (l <> E /\ r <> E) ->
  length (inorder (plug k (T c l x r))) <= fuel ->
  exists res s1, remove_splice fuel x (mkState h hk) = Done res s1.
Proof.
  intros Hz Hcase Hfuel.
  cut (yields (bind (remove_splice fuel x) ret (mkState h hk))
         (fun _ _ => True)).
  { intros Hy. apply yields_Done in Hy as (res & s1 & Hrun & _).
    rewrite bind_ret_r in Hrun. eauto. }
  assert (Hre : r = E \/ r <> E) by (destruct r; [left|right]; congruence).
  destruct l as [|cl ll y lr]; [destruct r as [|cr rl z rr]|
                                destruct Hre as [->|Hre]].
  - destruct k as [|f up]; [destruct Hcase as [?|(? & _)]; congruence|].
    eapply remove_splice_leaf; [eassumption|]. intros; exact I.
  - eapply remove_splice_one_child; [right; reflexivity|eassumption|].
    intros; exact I.
  - eapply remove_splice_one_child; [left; reflexivity|eassumption|].
    intros; exact I.
  - destruct (left_spine r Hre) as (kr & cs & s & sr & -> & Hall).
    assert (Hkr : length kr <= fuel).
    { rewrite <- plug_successor in Hfuel.
      pose proof (length_inorder_plug (kr ++ FR c (T cl ll y lr) x :: k)
                    (T cs E s sr)) as Hlen.
      rewrite length_app in Hlen. lia. }
    destruct sr as [|cz zl z zr].
    + eapply remove_splice_successor_leaf;
        [eassumption|discriminate|assumption|assumption|].
      intros; exact I.
    + eapply remove_splice_successor_child;
        [eassumption|discriminate|assumption|assumption|].
      intros; exact I.
Qed.

(** C2. [remove], on a node of a consistently linked tree that is not a
    root with an absent child, reaches the call of [rebalance_after_remove],
    and the colour it passes there is the original colour of the promoted
    child when the node physically detached has a child (the direction
    passed is then NONE), whatever the colour of the detached node, and the
    colour of the detached node itself when it has no child. *)
Theorem remove_color_is_lost_color (fuel : nat) (t : tree) (x : nat)
    (h : gmap nat RBNode) (hk : list HookCall) (nx : RBNode) :
  rep h t None -> NoDup (inorder t) -> x ∈ inorder t ->
  length (inorder t) <= fuel ->
  h !! x = Some nx ->
  is_Some (_parent nx) \/ (is_Some (_left nx) /\ is_Some (_right nx)) ->
  exists remove_node nr splice_node remove_color d s1,
    remove_target fuel x (mkState h hk) = Done remove_node (mkState h hk) /\
    h !! remove_node = Some nr /\
    remove_splice fuel x (mkState h hk)
    = Done (splice_node, remove_color, d) s1 /\
    remove fuel x (mkState h hk)
    = (root <- rebalance_after_remove fuel splice_node remove_color d ;;
       set_color root BLACK ;;;
       ret (Some root)) s1 /\
    match promoted_child nr with
    | Some child =>
        exists nc, h !! child = Some nc /\
                   remove_color = _color nc /\ d = NONE
    | None => remove_color = _color nr
    end.
Proof.
  intros Hrep Hnd Hx Hfuel Hnx Hcase.
  destruct (focus_exists _ _ Hx) as (k & c & l & r & <-).
  assert (Hz : zrep h k (T c l x r)) by (apply zrep_plug; split; assumption).
  pose proof Hz as ((Hxl & _) & _). rewrite Hnx in Hxl. injection Hxl as ->.
  simpl in Hcase.
  assert (Hcase' : k <> [] \/ (l <> E /\ r <> E)).
  { destruct Hcase as [(p & Hp)|((li & Hl) & (ri & Hr))].
    - left. intros ->. discriminate.
    - right. split; intros ->; discriminate. }
  destruct (remove_splice_runs fuel h hk k c l x r Hz Hcase' Hfuel)
    as ([[splice_node remove_color] d] & s1 & Hrun).
  destruct (remove_splice_color _ _ _ _ _ _ _ Hrun)
    as (remove_node & nr & Htarget & Hnr & Hcolor).
  exists remove_node, nr, splice_node, remove_color, d, s1.
  split; [assumption|]. split; [assumption|]. split; [assumption|].
  split; [|assumption].
  unfold remove. erewrite bind_load by eassumption. simpl.
  assert (Hbind : forall B (kont : nat * Color * Direction -> M B),
            bind (remove_splice fuel x) kont (mkState h hk)
            = kont (splice_node, remove_color, d) s1)
    by (intros B kont; unfold bind; rewrite Hrun; reflexivity).
  destruct Hcase as [(p & Hp)|((li & Hl) & (ri & Hr))].
  - rewrite Hp. rewrite Hbind. reflexivity.
  - rewrite Hl, Hr. destruct (cparent k); rewrite Hbind; reflexivity.
Qed.

Lemma remove_color_is_lost_color_witness :
  exists remove_node nr splice_node remove_color d s1,
    remove_target 8 15 demo = Done remove_node demo /\
    demo_heap !! remove_node = Some nr /\
    remove_splice 8 15 demo = Done (splice_node, remove_color, d) s1 /\
    remove 8 15 demo
    = (root <- rebalance_after_remove 8 splice_node remove_color d ;;
       set_color root BLACK ;;;
       ret (Some root)) s1 /\
    match promoted_child nr with
    | Some child =>
        exists nc, demo_heap !! child = Some nc /\
                   remove_color = _color nc /\ d = NONE
    | None => remove_color = _color nr
    end.
Proof.
  apply (remove_color_is_lost_color 8 demo_tree 15 demo_heap []
           (mkNode BLACK (Some 10) (Some 12) None)).
  - repeat split.
  - apply (bool_decide_unpack _). vm_compute. reflexivity.
  - apply (bool_decide_unpack _). vm_compute. reflexivity.
  - simpl. lia.
  - reflexivity.
  - left. eexists. reflexivity.
Defined.

(** ** The invariants are kept by every operation *)

(** *** Black height, path by path *)

Lemma bh_black_counts t : S (bh t) ∈ black_counts t.
Proof.
  induction t as [|c l IHl x r _]; simpl; [left|].
  rewrite map_app. apply elem_of_app. left.
  apply list_elem_of_In.
  change (In ((fun n => n + black c) (S (bh l)))
            (map (fun n => n + black c) (black_counts l))).
  apply in_map, list_elem_of_In. exact IHl.
Qed.

Lemma balanced_black_counts t :
  balanced t -> Forall (fun m => m = S (bh t)) (black_counts t).
Proof.
  induction t as [|c l IHl x r IHr]; simpl; [repeat constructor|].
  intros (Hlr & Hl & Hr). apply Forall_map, Forall_app. split.
  - eapply Forall_impl; [exact (IHl Hl)|]. simpl. intros m ->. reflexivity.
  - eapply Forall_impl; [exact (IHr Hr)|]. simpl. intros m ->. lia.
Qed.

Lemma balanced_uniform t : balanced t -> uniform_black_height t.
Proof. intros H. exists (S (bh t)). apply balanced_black_counts. assumption. Qed.

Lemma uniform_balanced t : uniform_black_height t -> balanced t.
Proof.
  induction t as [|c l IHl x r IHr]; simpl; [trivial|].
  intros (n & Hn). apply Forall_map, Forall_app in Hn as (Hl & Hr).
  rewrite Forall_forall in Hl, Hr. simpl in Hl, Hr.
  pose proof (Hl _ (bh_black_counts l)) as Hbl.
  pose proof (Hr _ (bh_black_counts r)) as Hbr.
  split; [lia|]. split.
  - apply IHl. exists (S (bh l)). apply Forall_forall. intros m Hm.
    specialize (Hl m Hm). lia.
  - apply IHr. exists (S (bh r)). apply Forall_forall. intros m Hm.
    specialize (Hr m Hm). lia.
Qed.

(** *** Key order *)

(** The nodes of a tree in order are what a traversal of the heap through
    the left and right links yields. *)
Lemma inorder_from_rep h t :
  forall par fuel,
    rep h t par -> length (inorder t) <= fuel ->
    inorder_from fuel h (root_of t) = inorder t.
Proof.
  induction t as [|c l IHl x r IHr]; intros par fuel Hrep Hfuel.
  - destruct fuel; reflexivity.
  - simpl in Hrep, Hfuel. destruct Hrep as (Hx & Hl & Hr).
    rewrite length_app in Hfuel. simpl in Hfuel.
    destruct fuel as [|fuel]; [lia|]. simpl. rewrite Hx. simpl.
    rewrite (IHl (Some x)), (IHr (Some x)) by (assumption || lia).
    reflexivity.
Qed.

Lemma StronglySorted_sublist {A} (R : A -> A -> Prop) l1 l2 :
  l1 `sublist_of` l2 -> StronglySorted R l2 -> StronglySorted R l1.
Proof.
  induction 1 as [|a l1 l2 Hsub IH|a l1 l2 Hsub IH]; intros Hs.
  - constructor.
  - apply StronglySorted_inv in Hs as (Hs & Hall). constructor; [auto|].
    rewrite Forall_forall in *. intros b Hb. apply Hall.
    eapply elem_of_sublist; eassumption.
  - apply StronglySorted_inv in Hs as (Hs & _). auto.
Qed.

Lemma StronglySorted_NoDup {A} (R : A -> A -> Prop) `{!Irreflexive R} l :
  StronglySorted R l -> NoDup l.
Proof.
  induction 1 as [|a l Hs IH Hall]; constructor; [|assumption].
  intros Ha. rewrite Forall_forall in Hall.
  exact (irreflexivity R a (Hall a Ha)).
Qed.

Lemma ascending_NoDup {K} (lt : K -> K -> Prop) `{!StrictOrder lt} key t :
  ascending lt key t -> NoDup (inorder t).
Proof.
  intros H. apply (NoDup_fmap_1 key).
  change (NoDup (map key (inorder t))).
  apply (StronglySorted_NoDup lt), Sorted_StronglySorted; [apply _|exact H].
Qed.

Lemma ascending_without {K} (lt : K -> K -> Prop) `{!StrictOrder lt} key
    t t' l1 x l2 :
  inorder t = l1 ++ x :: l2 -> inorder t' = l1 ++ l2 ->
  ascending lt key t -> ascending lt key t'.
Proof.
  unfold ascending. intros -> -> H.
  apply StronglySorted_Sorted.
  apply Sorted_StronglySorted in H; [|apply _].
  eapply StronglySorted_sublist; [|exact H].
  change (key <$> l1 ++ l2 `sublist_of` key <$> l1 ++ x :: l2).
  apply fmap_sublist. apply sublist_app; [reflexivity|]. apply sublist_cons.
  reflexivity.
Qed.

Lemma red_black_invariants {K} (lt : K -> K -> Prop) key h root t :
  rb_invariants lt key h root t <->
  rep h t None /\ root_of t = root /\ ascending lt key t /\ red_black t.
Proof.
  unfold rb_invariants, red_black. split.
  - intros (? & ? & ? & ? & ? & Hu). apply uniform_balanced in Hu. tauto.
  - intros (? & ? & ? & ? & ? & Hb). apply balanced_uniform in Hb. tauto.
Qed.

(** C1: each single operation keeps the red/black invariants.  For
    [rebalance_after_insert], called on a node [x] that was linked as a RED
    leaf at the place of its key into a tree satisfying the invariants, and
    for [remove], called on a node [x] of a tree satisfying the invariants:
    with fuel for as many loop rounds as the tree has nodes the call returns,
    and the heap then holds, below the node returned and with consistent
    parent and child links, a tree whose keys read in order are strictly
    ascending, whose root is BLACK, in which no RED node has a RED child, and
    in which every path from the root to an absent child counts the same
    number of BLACK nodes.  The tree returned is made of the same nodes in
    the same order, with [x] among them after the insertion and without [x]
    after the removal.  The invariants that hold after one operation are the
    ones required before the next, so they hold after each operation of any
    sequence. *)
Theorem rb_invariants_preserved {K : Type} (lt : K -> K -> Prop)
    (Hlt : StrictOrder lt) (key : nat -> K) :
  (forall fuel k x h hk,
      leaf_linked lt key h k x ->
      length (inorder (plug k (T RED E x E))) <= fuel ->
      exists root s' t',
        rebalance_after_insert fuel x (mkState h hk) = Done root s' /\
        rb_invariants lt key (heap s') (Some root) t' /\
        inorder t' = inorder (plug k (T RED E x E))) /\
  (forall fuel t x h hk root,
      rb_invariants lt key h root t ->
      x ∈ inorder t ->
      length (inorder t) <= fuel ->
      exists root' s' t',
        remove fuel x (mkState h hk) = Done root' s' /\
        rb_invariants lt key (heap s') root' t' /\
        exists l1 l2, inorder t = l1 ++ x :: l2 /\ inorder t' = l1 ++ l2).
Proof.
  split.
  - intros fuel k x h hk (Hz & Hasc & Hc & Hn & Hu) Hfuel.
    apply uniform_balanced in Hu.
    destruct (rebalance_after_insert_tree fuel k x h hk Hz) as
      (root & s' & t' & Hrun & Hrep & Hroot & Hrb & Hin);
      [split; [assumption|split; assumption]|assumption|].
    exists root, s', t'. split; [assumption|]. split; [|assumption].
    apply red_black_invariants. split; [assumption|]. split; [assumption|].
    split; [|assumption]. unfold ascending. rewrite Hin. exact Hasc.
  - intros fuel t x h hk root Hinv Hx Hfuel.
    apply red_black_invariants in Hinv as (Hrep & Hroot & Hasc & Hrb).
    destruct (remove_tree fuel t x h hk Hrep) as
      (root' & s' & t' & Hrun & Hrep' & Hroot' & Hrb' & l1 & l2 & Hin & Hin');
      [eapply ascending_NoDup; eassumption|assumption..|].
    exists root', s', t'. split; [assumption|]. split; [|eauto].
    apply red_black_invariants. split; [assumption|]. split; [assumption|].
    split; [|assumption]. eapply ascending_without; eassumption.
Qed.

(** Witness of C1: the node 1 linked below 3 in the demo tree and handed to
    [rebalance_after_insert], and the node 5 of the demo tree removed; the
    keys are the node numbers. *)
Lemma rb_invariants_preserved_witness :
  (exists root s' t',
      rebalance_after_insert 9 1 (mkState linked_heap []) = Done root s' /\
      rb_invariants lt id (heap s') (Some root) t' /\
      inorder t'
      = inorder (plug [FL BLACK 3 E;
                       FL RED 5 (T BLACK (T RED E 6 E) 7 (T RED E 8 E));
                       FL BLACK 10 (T BLACK (T RED E 12 E) 15 E)]
                   (T RED E 1 E))) /\
  (exists root' s' t',
      remove 8 5 demo = Done root' s' /\
      rb_invariants lt id (heap s') root' t' /\
      exists l1 l2, inorder demo_tree = l1 ++ 5 :: l2 /\ inorder t' = l1 ++ l2).
Proof.
  destruct (rb_invariants_preserved lt Nat.lt_strorder id) as [Hins Hrem].
  split.
  - apply (Hins 9 [FL BLACK 3 E;
                   FL RED 5 (T BLACK (T RED E 6 E) 7 (T RED E 8 E));
                   FL BLACK 10 (T BLACK (T RED E 12 E) 15 E)]
             1 linked_heap []).
    + split; [|split; [|split; [|split]]].
      * repeat split. apply (bool_decide_unpack _). vm_compute. reflexivity.
      * unfold ascending. simpl. repeat (constructor; try lia).
      * reflexivity.
      * simpl. repeat split; discriminate.
      * exists 3. simpl. repeat constructor.
    + simpl. lia.
  - apply (Hrem 8 demo_tree 5 demo_heap [] (Some 10)).
    + split; [|split; [|split; [|split; [|split]]]].
      * repeat split.
      * reflexivity.
      * unfold ascending. simpl. repeat (constructor; try lia).
      * reflexivity.
      * simpl. repeat split; discriminate.
      * exists 3. simpl. repeat constructor.
    + apply (bool_decide_unpack _). vm_compute. reflexivity.
    + simpl. lia.
Defined.

(** ** Further properties of the members of [RBTree.cc] *)

(** *** [left_most_descendant] and the node [remove] detaches *)

Lemma rep_plug_inner h k t :
  forall par, rep h (plug k t) par -> exists par', rep h t par'.
Proof.
  revert t. induction k as [|f up IH]; intros t par Hrep; [eauto|].
  simpl in Hrep. destruct (IH _ _ Hrep) as (par' & Hf).
  destruct f; simpl in Hf; exists (Some x); tauto.
Qed.

(** The walk down the left links ends on the first node of the tree in
    order. *)
Lemma left_most_first fuel h hk t par ri :
  rep h t par -> root_of t = Some ri -> length (inorder t) <= fuel ->
  exists s rest nd,
    (forall B (kont : nat -> M B),
        bind (left_most_descendant fuel ri) kont (mkState h hk)
        = kont s (mkState h hk)) /\
    inorder t = s :: rest /\ h !! s = Some nd /\ _left nd = None.
Proof.
  intros Hrep Hroot Hfuel.
  destruct (left_spine t) as (kr & cs & s & sr & -> & Hall);
    [intros ->; discriminate|].
  pose proof (length_inorder_plug kr (T cs E s sr)) as Hlen.
  destruct (rep_plug_inner _ _ _ _ Hrep) as (par' & Hs & _).
  exists s, (inorder sr ++ cin_r kr), (mkNode cs par' None (root_of sr)).
  split; [|split; [|split; [assumption|reflexivity]]].
  - intros B kont. eapply left_most_descendant_exec; try eassumption. lia.
  - rewrite inorder_plug, (left_spine_cin_l kr Hall). reflexivity.
Qed.

(** X1. [left_most_descendant], called on the root of a consistently linked
    subtree, returns the first node of that subtree in order, a node with no
    left child, and changes nothing. *)
Theorem left_most_descendant_first (fuel : nat) (h : gmap nat RBNode)
    (hk : list HookCall) (t : tree) (par : ptr) (ri : nat) :
  rep h t par -> root_of t = Some ri -> length (inorder t) <= fuel ->
  exists s rest nd,
    left_most_descendant fuel ri (mkState h hk) = Done s (mkState h hk) /\
    inorder t = s :: rest /\ h !! s = Some nd /\ _left nd = None.
Proof.
  intros Hrep Hroot Hfuel.
  destruct (left_most_first fuel h hk t par ri Hrep Hroot Hfuel)
    as (s & rest & nd & Hrun & Hin & Hs & Hl).
  exists s, rest, nd. split; [|tauto].
  rewrite <- bind_ret_r. apply Hrun.
Qed.

Lemma left_most_descendant_first_witness :
  exists s rest nd,
    left_most_descendant 8 10 demo = Done s demo /\
    inorder demo_tree = s :: rest /\ demo_heap !! s = Some nd /\
    _left nd = None.
Proof.
  apply (left_most_descendant_first 8 demo_heap [] demo_tree None 10).
  - repeat split.
  - reflexivity.
  - simpl. lia.
Defined.

(** X2. Line 204 of [remove]: for a node of a consistently linked tree that
    has both children, the node chosen to be detached is its successor, the
    node that follows it in order; nothing is changed by the choice. *)
Theorem remove_target_successor (fuel : nat) (h : gmap nat RBNode)
    (hk : list HookCall) (t : tree) (x : nat) (nd : RBNode) :
  rep h t None -> x ∈ inorder t -> h !! x = Some nd ->
  is_Some (_left nd) -> is_Some (_right nd) ->
  length (inorder t) <= fuel ->
  exists s l1 l2,
    remove_target fuel x (mkState h hk) = Done s (mkState h hk) /\
    inorder t = l1 ++ x :: s :: l2.
Proof.
  intros Hrep Hx Hnd (li & Hli) (ri & Hri) Hfuel.
  destruct (focus_exists _ _ Hx) as (k & c & l & r & <-).
  pose proof Hrep as Hrep'. apply rep_plug in Hrep' as ((Hxl & Hl & Hr) & _).
  rewrite Hnd in Hxl. injection Hxl as ->. simpl in Hli, Hri.
  rewrite inorder_plug in Hfuel |- *. simpl inorder in Hfuel |- *.
  repeat first [rewrite length_app in Hfuel | progress simpl in Hfuel].
  destruct (left_most_first fuel h hk r (Some x) ri Hr Hri)
    as (s & rest & ns & Hrun & Hin & _); [lia|].
  exists s, (cin_l k ++ inorder l), (rest ++ cin_r k). split.
  - unfold remove_target. rewrite <- bind_ret_r, !bind_bind.
    erewrite bind_get by eassumption. simpl.
    rewrite bind_bind. erewrite bind_get by eassumption. simpl.
    rewrite Hli, Hri. apply Hrun.
  - rewrite Hin. list_normal. reflexivity.
Qed.

Lemma remove_target_successor_witness :
  exists s l1 l2,
    remove_target 8 5 demo = Done s demo /\
    inorder demo_tree = l1 ++ 5 :: s :: l2.
Proof.
  apply (remove_target_successor 8 demo_heap [] demo_tree 5
           (mkNode RED (Some 10) (Some 3) (Some 7))).
  - repeat split.
  - apply (bool_decide_unpack _). vm_compute. reflexivity.
  - reflexivity.
  - eexists. reflexivity.
  - eexists. reflexivity.
  - simpl. lia.
Defined.

(** *** [ripple_structure_fixup] *)

(** X3. [ripple_structure_fixup], called on a node of a consistently linked
    tree, calls the hook once on the node and once on each of its ancestors,
    from the node upwards, changes no node, and returns the root of the
    tree. *)
Theorem ripple_structure_fixup_root (fuel : nat) (h : gmap nat RBNode)
    (hk : list HookCall) (k : list frame) (c : Color) (l : tree) (x : nat)
    (r : tree) :
  rep h (plug k (T c l x r)) None -> length k < fuel ->
  exists root,
    ripple_structure_fixup fuel x (mkState h hk)
    = Done root (mkState h (hk ++ map (hook_of h) (x :: map frame_node k))) /\
    root_of (plug k (T c l x r)) = Some root.
Proof.
  intros Hrep Hfuel. apply rep_plug in Hrep as (Hr & Hc).
  pose proof (path_to_root_focus fuel h k (T c l x r) x Hr Hc eq_refl Hfuel)
    as Hpath.
  exists (List.last (x :: map frame_node k) x). split.
  - unfold ripple_structure_fixup. rewrite <- bind_ret_r.
    rewrite (ripple_loop_exec _ _ _ _ _ _ _ Hpath). reflexivity.
  - apply root_of_plug. reflexivity.
Qed.

Lemma ripple_structure_fixup_root_witness :
  exists root,
    ripple_structure_fixup 4 6 demo
    = Done root
        (mkState demo_heap
           ([] ++ map (hook_of demo_heap)
                    (6 :: map frame_node
                            [FL BLACK 7 (T RED E 8 E);
                             FR RED (T BLACK E 3 E) 5;
                             FL BLACK 10 (T BLACK (T RED E 12 E) 15 E)]))) /\
    root_of (plug [FL BLACK 7 (T RED E 8 E);
                   FR RED (T BLACK E 3 E) 5;
                   FL BLACK 10 (T BLACK (T RED E 12 E) 15 E)]
               (T RED E 6 E)) = Some root.
Proof.
  apply (ripple_structure_fixup_root 4 demo_heap []
           [FL BLACK 7 (T RED E 8 E);
            FR RED (T BLACK E 3 E) 5;
            FL BLACK 10 (T BLACK (T RED E 12 E) 15 E)]
           RED E 6 E).
  - repeat split.
  - simpl. lia.
Defined.

(** *** [rotate] *)

(** X4. A rotation keeps the links consistent and the nodes in order: in a
    consistently linked tree, [rotate] toward LEFT on a node [x] with right
    child [c] returns [c] and leaves the tree in which [c] stands in the
    place of [x], [x] is the left child of [c], and the former left subtree
    of [c] is the right subtree of [x]; every node keeps its colour and the
    sequence of the nodes in order is the same.  Likewise toward RIGHT. *)
Theorem rotate_keeps_tree (h : gmap nat RBNode) (hk : list HookCall)
    (k : list frame) :
  (forall cx a x cc b c d,
      rep h (plug k (T cx a x (T cc b c d))) None ->
      NoDup (inorder (plug k (T cx a x (T cc b c d)))) ->
      exists h' hk',
        rotate x LEFT (mkState h hk) = Done c (mkState h' hk') /\
        rep h' (plug k (T cc (T cx a x b) c d)) None /\
        inorder (plug k (T cc (T cx a x b) c d))
        = inorder (plug k (T cx a x (T cc b c d)))) /\
  (forall cx a x cc b c d,
      rep h (plug k (T cx (T cc b c d) x a)) None ->
      NoDup (inorder (plug k (T cx (T cc b c d) x a))) ->
      exists h' hk',
        rotate x RIGHT (mkState h hk) = Done c (mkState h' hk') /\
        rep h' (plug k (T cc b c (T cx d x a))) None /\
        inorder (plug k (T cc b c (T cx d x a)))
        = inorder (plug k (T cx (T cc b c d) x a))).
Proof.
  split; intros cx a x cc b c d Hrep Hnd.
  - assert (Hz : zrep h k (T cx a x (T cc b c d)))
      by (apply zrep_plug; split; assumption).
    destruct (rotate_left_zrep h hk k cx a x cc b c d Hz)
      as (h' & hk' & Hrun & Hz').
    exists h', hk'. split; [rewrite <- bind_ret_r; apply Hrun|].
    split; [apply zrep_plug in Hz'; tauto|].
    rewrite !inorder_plug. simpl. list_normal. reflexivity.
  - assert (Hz : zrep h k (T cx (T cc b c d) x a))
      by (apply zrep_plug; split; assumption).
    destruct (rotate_right_zrep h hk k cx b x cc d c a Hz)
      as (h' & hk' & Hrun & Hz').
    exists h', hk'. split; [rewrite <- bind_ret_r; apply Hrun|].
    split; [apply zrep_plug in Hz'; tauto|].
    rewrite !inorder_plug. simpl. list_normal. reflexivity.
Qed.

Lemma rotate_keeps_tree_witness :
  (exists h' hk',
      rotate 5 LEFT demo = Done 7 (mkState h' hk') /\
      rep h' (plug [FL BLACK 10 (T BLACK (T RED E 12 E) 15 E)]
                (T BLACK (T RED (T BLACK E 3 E) 5 (T RED E 6 E)) 7
                   (T RED E 8 E))) None /\
      inorder (plug [FL BLACK 10 (T BLACK (T RED E 12 E) 15 E)]
                 (T BLACK (T RED (T BLACK E 3 E) 5 (T RED E 6 E)) 7
                    (T RED E 8 E)))
      = inorder (plug [FL BLACK 10 (T BLACK (T RED E 12 E) 15 E)]
                   (T RED (T BLACK E 3 E) 5
                      (T BLACK (T RED E 6 E) 7 (T RED E 8 E))))) /\
  (exists h' hk',
      rotate 10 RIGHT demo = Done 5 (mkState h' hk') /\
      rep h' (plug []
                (T RED (T BLACK E 3 E) 5
                   (T BLACK (T BLACK (T RED E 6 E) 7 (T RED E 8 E)) 10
                      (T BLACK (T RED E 12 E) 15 E)))) None /\
      inorder (plug []
                 (T RED (T BLACK E 3 E) 5
                    (T BLACK (T BLACK (T RED E 6 E) 7 (T RED E 8 E)) 10
                       (T BLACK (T RED E 12 E) 15 E))))
      = inorder (plug []
                   (T BLACK
                      (T RED (T BLACK E 3 E) 5
                         (T BLACK (T RED E 6 E) 7 (T RED E 8 E)))
                      10 (T BLACK (T RED E 12 E) 15 E)))).
Proof.
  split.
  - apply (proj1 (rotate_keeps_tree demo_heap []
                    [FL BLACK 10 (T BLACK (T RED E 12 E) 15 E)])
             RED (T BLACK E 3 E) 5 BLACK (T RED E 6 E) 7 (T RED E 8 E)).
    + repeat split.
    + apply (bool_decide_unpack _). vm_compute. reflexivity.
  - apply (proj2 (rotate_keeps_tree demo_heap [] [])
             BLACK (T BLACK (T RED E 12 E) 15 E) 10 RED (T BLACK E 3 E) 5
             (T BLACK (T RED E 6 E) 7 (T RED E 8 E))).
    + repeat split.
    + apply (bool_decide_unpack _). vm_compute. reflexivity.
Defined.

(** *** [replace_with] inside a tree *)

(** X5. [x.replace_with(s)] for a node [x] of a consistently linked tree and
    a node [s] outside the tree: the tree stays consistently linked, with
    [s] at the place of [x] and with the colour of [x]; every other node
    keeps its place and its colour, and no hook is called. *)
Theorem replace_with_in_tree (h : gmap nat RBNode) (hk : list HookCall)
    (k : list frame) (c : Color) (l : tree) (x : nat) (r : tree) (s : nat)
    (ns : RBNode) :
  rep h (plug k (T c l x r)) None ->
  NoDup (inorder (plug k (T c l x r))) ->
  h !! s = Some ns ->
  s ∉ inorder (plug k (T c l x r)) ->
  exists h',
    replace_with x s (mkState h hk) = Done tt (mkState h' hk) /\
    rep h' (plug k (T c l s r)) None /\
    NoDup (inorder (plug k (T c l s r))).
Proof.
  intros Hrep Hnd Hs Hout.
  assert (Hz : zrep h k (T c l x r)) by (apply zrep_plug; split; assumption).
  destruct (replace_detached h hk k c l x r s ns Hz Hs Hout)
    as (h' & Hrun & Hz').
  exists h'. split; [rewrite <- bind_ret_r; apply Hrun|].
  apply zrep_plug. assumption.
Qed.

Lemma replace_with_in_tree_witness :
  exists h',
    replace_with 7 20
      (mkState (<[20 := mkNode RED None None None]> demo_heap) [])
    = Done tt (mkState h' []) /\
    rep h' (plug [FR RED (T BLACK E 3 E) 5;
                  FL BLACK 10 (T BLACK (T RED E 12 E) 15 E)]
              (T BLACK (T RED E 6 E) 20 (T RED E 8 E))) None /\
    NoDup (inorder (plug [FR RED (T BLACK E 3 E) 5;
                          FL BLACK 10 (T BLACK (T RED E 12 E) 15 E)]
                      (T BLACK (T RED E 6 E) 20 (T RED E 8 E)))).
Proof.
  apply (replace_with_in_tree (<[20 := mkNode RED None None None]> demo_heap)
           [] [FR RED (T BLACK E 3 E) 5;
               FL BLACK 10 (T BLACK (T RED E 12 E) 15 E)]
           BLACK (T RED E 6 E) 7 (T RED E 8 E) 20
           (mkNode RED None None None)).
  - repeat split.
  - apply (bool_decide_unpack _). vm_compute. reflexivity.
  - reflexivity.
  - apply (bool_decide_unpack _). vm_compute. reflexivity.
Defined.

(** *** [remove] *)

(** X6. [remove] on a root that has at most one child (lines 180-191): the
    child, if there is one, is returned as the new root and it alone is
    changed (it gets no parent and the colour BLACK); for the only node of a
    tree the absent root is returned and nothing is changed.  No hook is
    called, and the removed node keeps its colour and its links. *)
Theorem remove_at_root (fuel : nat) (h : gmap nat RBNode) (hk : list HookCall)
    (x : nat) (nd : RBNode) :
  h !! x = Some nd -> _parent nd = None ->
  _left nd = None \/ _right nd = None ->
  (forall c, promoted_child nd = Some c -> c <> x /\ is_Some (h !! c)) ->
  remove fuel x (mkState h hk)
  = Done (promoted_child nd)
      (mkState (alter_at (promoted_child nd)
                  (fun nc => with_color BLACK (with_parent None nc)) h) hk) /\
  alter_at (promoted_child nd)
    (fun nc => with_color BLACK (with_parent None nc)) h !! x = Some nd.
Proof.
  intros Hx Hp Hcase Hc. unfold promoted_child in *.
  destruct nd as [cx px lx rx]. simpl in *. subst px.
  destruct lx as [l|], rx as [r|]; simpl in *.
  - destruct Hcase; discriminate.
  - destruct (Hc l eq_refl) as (Hne & nl & Hl). split.
    + unfold remove. erewrite bind_load by eassumption. simpl. exec.
      f_equal. f_equal. heap_eq.
    + rewrite lookup_alter_ne by assumption. assumption.
  - destruct (Hc r eq_refl) as (Hne & nr & Hr). split.
    + unfold remove. erewrite bind_load by eassumption. simpl. exec.
      f_equal. f_equal. heap_eq.
    + rewrite lookup_alter_ne by assumption. assumption.
  - split; [|assumption].
    unfold remove. erewrite bind_load by eassumption. reflexivity.
Qed.

Lemma remove_at_root_witness :
  remove 2 10 (mkState clipped_heap [])
  = Done (promoted_child (mkNode BLACK None None (Some 15)))
      (mkState (alter_at (promoted_child (mkNode BLACK None None (Some 15)))
                  (fun nc => with_color BLACK (with_parent None nc))
                  clipped_heap) []) /\
  alter_at (promoted_child (mkNode BLACK None None (Some 15)))
    (fun nc => with_color BLACK (with_parent None nc)) clipped_heap !! 10
  = Some (mkNode BLACK None None (Some 15)).
Proof.
  apply (remove_at_root 2 clipped_heap [] 10
           (mkNode BLACK None None (Some 15))).
  - reflexivity.
  - reflexivity.
  - left. reflexivity.
  - intros c [= <-]. split; [discriminate|]. eexists. reflexivity.
Defined.

Lemma filter_ne_id (x : nat) (l : list nat) :
  x ∉ l -> filter (fun y => y <> x) l = l.
Proof.
  induction l as [|a l IH]; [reflexivity|].
  rewrite not_elem_of_cons. intros (Hne & Hl).
  rewrite filter_cons_True by congruence. rewrite IH by assumption.
  reflexivity.
Qed.

Lemma filter_ne_mid (x : nat) (l1 l2 : list nat) :
  NoDup (l1 ++ x :: l2) -> filter (fun y => y <> x) (l1 ++ x :: l2) = l1 ++ l2.
Proof.
  intros Hnd. apply NoDup_mid in Hnd as (H1 & H2).
  rewrite filter_app, filter_cons_False by (intros H; apply H; reflexivity).
  rewrite !filter_ne_id by assumption. reflexivity.
Qed.

(** X7. After [remove] on a node [x] of a red/black tree, the traversal of
    the links from the root returned visits the nodes that the traversal
    from the former root visited, in the same order, without [x]: the node
    removed is out of reach and no other node is lost. *)
Theorem remove_traversal (fuel : nat) (t : tree) (x : nat)
    (h : gmap nat RBNode) (hk : list HookCall) :
  rep h t None -> NoDup (inorder t) -> red_black t ->
  x ∈ inorder t -> length (inorder t) <= fuel ->
  exists root' s',
    remove fuel x (mkState h hk) = Done root' s' /\
    inorder_from fuel (heap s') root'
    = filter (fun y => y <> x) (inorder_from fuel h (root_of t)).
Proof.
  intros Hrep Hnd Hrb Hx Hfuel.
  destruct (remove_tree fuel t x h hk Hrep Hnd Hrb Hx Hfuel)
    as (root' & s' & t' & Hrun & Hrep' & Hroot' & _ & l1 & l2 & Hin & Hin').
  exists root', s'. split; [assumption|].
  rewrite (inorder_from_rep h t None fuel Hrep Hfuel).
  rewrite <- Hroot'. rewrite (inorder_from_rep _ t' None fuel Hrep').
  - rewrite Hin, Hin'. rewrite Hin in Hnd. symmetry. apply filter_ne_mid.
    assumption.
  - rewrite Hin'. rewrite Hin in Hfuel. rewrite length_app in *.
    simpl in Hfuel. lia.
Qed.

Lemma remove_traversal_witness :
  exists root' s',
    remove 8 5 demo = Done root' s' /\
    inorder_from 8 (heap s') root'
    = filter (fun y => y <> 5) (inorder_from 8 demo_heap (root_of demo_tree)).
Proof.
  apply (remove_traversal 8 demo_tree 5 demo_heap []).
  - repeat split.
  - apply (bool_decide_unpack _). vm_compute. reflexivity.
  - split; [reflexivity|]. split; simpl; repeat split; discriminate.
  - apply (bool_decide_unpack _). vm_compute. reflexivity.
  - simpl. lia.
Defined.

Lemma rep_fields h t :
  forall par y ny,
    rep h t par -> y ∈ inorder t -> h !! y = Some ny ->
    (_parent ny = par \/ exists p, _parent ny = Some p /\ p ∈ inorder t) /\
    (forall c, _left ny = Some c -> c ∈ inorder t) /\
    (forall c, _right ny = Some c -> c ∈ inorder t).
Proof.
  induction t as [|c l IHl x r IHr]; intros par y ny Hrep Hy Hny;
    [simpl in Hy; set_solver|].
  simpl in Hrep, Hy |- *. destruct Hrep as (Hx & Hl & Hr).
  rewrite elem_of_app, elem_of_cons in Hy.
  destruct Hy as [Hy|[->|Hy]].
  - destruct (IHl _ _ _ Hl Hy Hny) as (Hp & Hcl & Hcr).
    split; [|split].
    + right. destruct Hp as [Hp|(p & Hp & Hin)];
        [exists x|exists p]; (split; [assumption|set_solver]).
    + intros c' Hc'. specialize (Hcl c' Hc'). set_solver.
    + intros c' Hc'. specialize (Hcr c' Hc'). set_solver.
  - rewrite Hx in Hny. injection Hny as <-. simpl.
    split; [left; reflexivity|]. split; intros c' Hc'.
    + apply root_of_elem in Hc'. set_solver.
    + apply root_of_elem in Hc'. set_solver.
  - destruct (IHr _ _ _ Hr Hy Hny) as (Hp & Hcl & Hcr).
    split; [|split].
    + right. destruct Hp as [Hp|(p & Hp & Hin)];
        [exists x|exists p]; (split; [assumption|set_solver]).
    + intros c' Hc'. specialize (Hcl c' Hc'). set_solver.
    + intros c' Hc'. specialize (Hcr c' Hc'). set_solver.
Qed.

(** X8. After [remove] on a node [x] of a red/black tree, nothing in the
    tree below the root returned refers to [x]: the root is another node,
    and no node of the tree has [x] as its parent, its left child or its
    right child. *)
Theorem remove_unlinks (fuel : nat) (t : tree) (x : nat)
    (h : gmap nat RBNode) (hk : list HookCall) :
  rep h t None -> NoDup (inorder t) -> red_black t ->
  x ∈ inorder t -> length (inorder t) <= fuel ->
  exists root' s' t',
    remove fuel x (mkState h hk) = Done root' s' /\
    rep (heap s') t' None /\ root_of t' = root' /\
    root' <> Some x /\
    forall y ny,
      y ∈ inorder t' -> heap s' !! y = Some ny ->
      _parent ny <> Some x /\ _left ny <> Some x /\ _right ny <> Some x.
Proof.
  intros Hrep Hnd Hrb Hx Hfuel.
  destruct (remove_tree fuel t x h hk Hrep Hnd Hrb Hx Hfuel)
    as (root' & s' & t' & Hrun & Hrep' & Hroot' & _ & l1 & l2 & Hin & Hin').
  assert (Hout : x ∉ inorder t').
  { rewrite Hin'. rewrite Hin in Hnd. apply NoDup_mid in Hnd.
    rewrite not_elem_of_app. exact Hnd. }
  exists root', s', t'. split; [assumption|]. split; [assumption|].
  split; [assumption|]. split.
  - rewrite <- Hroot'. apply root_of_ne. assumption.
  - intros y ny Hy Hny.
    destruct (rep_fields _ _ _ _ _ Hrep' Hy Hny) as (Hp & Hl & Hr).
    split; [|split].
    + destruct Hp as [->|(p & -> & Hpin)]; [discriminate|].
      intros [= ->]. contradiction.
    + intros E. apply Hout, Hl. assumption.
    + intros E. apply Hout, Hr. assumption.
Qed.

Lemma remove_unlinks_witness :
  exists root' s' t',
    remove 8 5 demo = Done root' s' /\
    rep (heap s') t' None /\ root_of t' = root' /\
    root' <> Some 5 /\
    forall y ny,
      y ∈ inorder t' -> heap s' !! y = Some ny ->
      _parent ny <> Some 5 /\ _left ny <> Some 5 /\ _right ny <> Some 5.
Proof.
  apply (remove_unlinks 8 demo_tree 5 demo_heap []).
  - repeat split.
  - apply (bool_decide_unpack _). vm_compute. reflexivity.
  - split; [reflexivity|]. split; simpl; repeat split; discriminate.
  - apply (bool_decide_unpack _). vm_compute. reflexivity.
  - simpl. lia.
Defined.

(** *** Insertion followed by removal *)

Lemma NoDup_split_eq (x : nat) (l1 l2 l1' l2' : list nat) :
  NoDup (l1 ++ x :: l2) -> l1 ++ x :: l2 = l1' ++ x :: l2' ->
  l1 = l1' /\ l2 = l2'.
Proof.
  revert l1'. induction l1 as [|a l1 IH]; intros l1' Hnd Heq.
  - destruct l1' as [|b l1']; simpl in *.
    + injection Heq as <-. tauto.
    + injection Heq as <- ->. apply NoDup_cons in Hnd as (Hx & _).
      exfalso. apply Hx. set_solver.
  - destruct l1' as [|b l1']; simpl in *.
    + injection Heq as -> <-. apply NoDup_cons in Hnd as (Hx & _).
      exfalso. apply Hx. set_solver.
    + injection Heq as <- Heq. apply NoDup_cons in Hnd as (_ & Hnd).
      destruct (IH l1' Hnd Heq) as (-> & ->). tauto.
Qed.

(** X9. Insertion followed by removal of the same node: when
    [rebalance_after_insert] has run on a node [x] linked as a RED leaf into
    a red/black tree, [remove] on [x] gives back a red/black tree made of
    the nodes the tree had before [x] was linked, in the same order. *)
Theorem insert_remove_round_trip {K : Type} (lt : K -> K -> Prop)
    (Hlt : StrictOrder lt) (key : nat -> K) (fuel : nat) (k : list frame)
    (x : nat) (h : gmap nat RBNode) (hk : list HookCall) :
  leaf_linked lt key h k x ->
  length (inorder (plug k (T RED E x E))) <= fuel ->
  exists root s1 root' s2 t2,
    rebalance_after_insert fuel x (mkState h hk) = Done root s1 /\
    remove fuel x s1 = Done root' s2 /\
    rb_invariants lt key (heap s2) root' t2 /\
    inorder t2 = inorder (plug k E).
Proof.
  intros (Hz & Hasc & Hc & Hn & Hu) Hfuel.
  apply uniform_balanced in Hu.
  destruct (rebalance_after_insert_tree fuel k x h hk Hz) as
    (root & s1 & t1 & Hrun1 & Hrep1 & Hroot1 & Hrb1 & Hin1);
    [split; [assumption|split; assumption]|assumption|].
  assert (Hnd : NoDup (inorder (plug k (T RED E x E))))
    by (apply zrep_plug in Hz; tauto).
  destruct s1 as [h1 hk1]. simpl in Hrep1.
  destruct (remove_tree fuel t1 x h1 hk1 Hrep1) as
    (root' & s2 & t2 & Hrun2 & Hrep2 & Hroot2 & Hrb2 & l1 & l2 & Hl & Hl');
    [rewrite Hin1; assumption|assumption| |rewrite Hin1; assumption|].
  { rewrite Hin1, inorder_plug. simpl. set_solver. }
  exists root, (mkState h1 hk1), root', s2, t2.
  split; [assumption|]. split; [assumption|].
  rewrite Hin1 in Hl. rewrite inorder_plug in Hl, Hnd. simpl in Hl, Hnd.
  destruct (NoDup_split_eq x (cin_l k) (cin_r k) l1 l2 Hnd Hl) as (<- & <-).
  assert (Hin2 : inorder t2 = inorder (plug k E))
    by (rewrite inorder_plug; exact Hl').
  split; [|assumption].
  apply red_black_invariants. split; [assumption|]. split; [assumption|].
  split; [|assumption].
  eapply (ascending_without lt key (plug k (T RED E x E)) t2 (cin_l k) x
            (cin_r k)); [|assumption|assumption].
  rewrite inorder_plug. reflexivity.
Qed.

Lemma insert_remove_round_trip_witness :
  exists root s1 root' s2 t2,
    rebalance_after_insert 9 1 (mkState linked_heap []) = Done root s1 /\
    remove 9 1 s1 = Done root' s2 /\
    rb_invariants lt id (heap s2) root' t2 /\
    inorder t2
    = inorder (plug [FL BLACK 3 E;
                     FL RED 5 (T BLACK (T RED E 6 E) 7 (T RED E 8 E));
                     FL BLACK 10 (T BLACK (T RED E 12 E) 15 E)] E).
Proof.
  apply (insert_remove_round_trip lt Nat.lt_strorder id 9
           [FL BLACK 3 E;
            FL RED 5 (T BLACK (T RED E 6 E) 7 (T RED E 8 E));
            FL BLACK 10 (T BLACK (T RED E 12 E) 15 E)]
           1 linked_heap []).
  - split; [|split; [|split; [|split]]].
    + repeat split. apply (bool_decide_unpack _). vm_compute. reflexivity.
    + unfold ascending. simpl. repeat (constructor; try lia).
    + reflexivity.
    + simpl. repeat split; discriminate.
    + exists 3. simpl. repeat constructor.
  - simpl. lia.
Defined.

(** *** [rebalance_after_insert] below a BLACK parent *)

Lemma path_to_root_last h fuel :
  forall x path,
    path_to_root fuel h x = Some path -> is_Some (h !! List.last path x).
Proof.
  induction fuel as [|fuel IH]; intros x path Hpath; [discriminate|].
  simpl in Hpath. destruct (h !! x) as [nd|] eqn:Hx; [|discriminate].
  destruct (_parent nd) as [p|].
  - destruct (path_to_root fuel h p) as [l|] eqn:Hl; [|discriminate].
    injection Hpath as <-. specialize (IH p l Hl).
    destruct l as [|a l]; [simpl; eauto|].
    change (List.last (x :: a :: l) x) with (List.last (a :: l) x).
    rewrite (last_nonempty_default a l x p). assumption.
  - injection Hpath as <-. simpl. eauto.
Qed.

(** X10. [rebalance_after_insert] on a node that has no parent or a BLACK
    parent restructures nothing: the hook is called on the node and on each
    of its ancestors, from the node upwards, the root is returned, and the
    one change to the nodes is the colour BLACK written to the root. *)
Theorem rebalance_after_insert_black_parent (fuel : nat)
    (h : gmap nat RBNode) (hk : list HookCall) (x : nat) (nx : RBNode)
    (path : list nat) :
  h !! x = Some nx ->
  (forall p, _parent nx = Some p ->
             exists np, h !! p = Some np /\ _color np = BLACK) ->
  path_to_root fuel h x = Some path ->
  rebalance_after_insert fuel x (mkState h hk)
  = Done (List.last path x)
      (mkState (alter (with_color BLACK) (List.last path x) h)
         (hk ++ map (hook_of h) path)).
Proof.
  intros Hx Hp Hpath.
  destruct (path_to_root_last _ _ _ _ Hpath) as (nr & Hr).
  unfold rebalance_after_insert. rewrite insert_loop_unfold.
  rewrite !bind_bind. erewrite bind_get by eassumption.
  assert (Hskip : forall B (kont : bool -> M B) st,
    heap st = h ->
    bind (color_is (_parent nx) RED) kont st = kont false st).
  { intros B kont [h0 hk0] Hh. simpl in Hh. subst h0.
    destruct (_parent nx) as [p|] eqn:Hpp.
    - destruct (Hp p eq_refl) as (np & Hnp & Hc).
      unfold color_is, color. rewrite bind_bind.
      erewrite bind_get by eassumption. rewrite bind_ret, Hc. reflexivity.
    - unfold color_is. rewrite bind_ret. reflexivity. }
  cbv beta. rewrite !bind_bind.
  rewrite Hskip by reflexivity. simpl. rewrite bind_ret.
  unfold ripple_structure_fixup. rewrite ?bind_bind.
  rewrite (ripple_loop_exec _ _ _ _ _ _ _ Hpath).
  unfold set_color. erewrite bind_modify by eassumption.
  unfold ret. f_equal. f_equal. apply map_eq. intros i.
  destruct (decide (i = List.last path x)) as [->|Hne].
  - rewrite lookup_insert_eq, lookup_alter_eq, Hr. reflexivity.
  - rewrite lookup_insert_ne, lookup_alter_ne by congruence. reflexivity.
Qed.

Lemma rebalance_after_insert_black_parent_witness :
  rebalance_after_insert 4 6 demo
  = Done (List.last [6; 7; 5; 10] 6)
      (mkState (alter (with_color BLACK) (List.last [6; 7; 5; 10] 6) demo_heap)
         ([] ++ map (hook_of demo_heap) [6; 7; 5; 10])).
Proof.
  apply (rebalance_after_insert_black_parent 4 demo_heap [] 6
           (mkNode RED (Some 7) None None) [6; 7; 5; 10]).
  - reflexivity.
  - intros p [= <-]. eexists. split; reflexivity.
  - reflexivity.
Defined.

(** *** [rebalance_after_remove] after the loss of a BLACK node *)

(** X11. [rebalance_after_remove] with removed colour BLACK restores the
    balance: called with the anchor and the direction [remove] computes, on
    a consistently linked tree in which the subtree [t] at the place of the
    removal stands where a subtree [before] with a BLACK root and one more
    BLACK node on every path stood in a red/black arrangement, it returns the
    root of a consistently linked tree with the same nodes in the same order
    in which every path from the root to an absent child counts the same
    number of BLACK nodes and, the colour of the root apart, no RED node has
    a RED child. *)
Theorem rebalance_after_remove_restores (fuel : nat) (k : list frame)
    (t before : tree) (this : nat) (d : Direction) (h : gmap nat RBNode)
    (hk : list HookCall) :
  zrep h k t -> dir_ok d k t -> anchor_of k t = Some this ->
  balanced (plug k before) -> no_red_red (plug k before) ->
  color_of before = BLACK -> bh before = S (bh t) ->
  balanced t -> no_red_red (blacken t) ->
  length (inorder (plug k t)) < fuel ->
  exists root s' res,
    rebalance_after_remove fuel this BLACK d (mkState h hk) = Done root s' /\
    rep (heap s') res None /\ root_of res = Some root /\
    uniform_black_height res /\ no_red_red (blacken res) /\
    inorder res = inorder (plug k t).
Proof.
  intros Hz Hd Ha Hbal Hnrr Hcol Hbh Hb Hn Hfuel.
  apply balanced_plug in Hbal as (_ & Hcb). rewrite Hbh in Hcb.
  apply no_red_red_plug in Hnrr as (_ & Hcn). rewrite Hcol in Hcn.
  pose proof (length_inorder_plug k t) as Hlen.
  destruct (del_fix_ok fuel k t) as (res & Hfix & Hbr & Hnr);
    [lia|assumption..|].
  pose proof (del_fix_inorder _ _ _ _ Hfix) as Hin.
  cut (yields (rebalance_after_remove fuel this BLACK d (mkState h hk))
         (fun root s' => rep (heap s') res None /\ root_of res = Some root)).
  { intros Hy. apply yields_Done in Hy as (root & s' & Hrun & Hrep & Hroot).
    exists root, s', res. split; [assumption|]. split; [assumption|].
    split; [assumption|]. split; [apply balanced_uniform; assumption|].
    split; assumption. }
  rewrite <- bind_ret_r.
  eapply rebalance_after_remove_black; try eassumption; [lia|].
  intros h' hk' root Hrep Hroot. simpl. tauto.
Qed.

Lemma rebalance_after_remove_restores_witness :
  exists root s' res,
    rebalance_after_remove 3 10 BLACK LEFT (mkState clipped_heap [])
    = Done root s' /\
    rep (heap s') res None /\ root_of res = Some root /\
    uniform_black_height res /\ no_red_red (blacken res) /\
    inorder res = inorder (plug [FL BLACK 10 (T BLACK E 15 E)] E).
Proof.
  apply (rebalance_after_remove_restores 3 [FL BLACK 10 (T BLACK E 15 E)]
           E (T BLACK E 5 E) 10 LEFT clipped_heap []).
  - repeat split. apply (bool_decide_unpack _). vm_compute. reflexivity.
  - reflexivity.
  - reflexivity.
  - simpl. tauto.
  - simpl. repeat split; discriminate.
  - reflexivity.
  - reflexivity.
  - exact I.
  - exact I.
  - simpl. lia.
Defined.

(** *** The traversal after [rebalance_after_insert] *)

(** X12. [rebalance_after_insert] neither loses nor reorders a node: run on
    a node linked as a RED leaf into a red/black tree, it returns a root
    from which the traversal of the links visits the nodes the traversal
    from the former root visited, in the same order. *)
Theorem rebalance_after_insert_traversal (fuel : nat) (k : list frame)
    (x : nat) (h : gmap nat RBNode) (hk : list HookCall) :
  zrep h k (T RED E x E) -> red_black (plug k E) ->
  length (inorder (plug k (T RED E x E))) <= fuel ->
  exists root s',
    rebalance_after_insert fuel x (mkState h hk) = Done root s' /\
    inorder_from fuel (heap s') (Some root)
    = inorder_from fuel h (root_of (plug k (T RED E x E))).
Proof.
  intros Hz Hrb Hfuel.
  destruct (rebalance_after_insert_tree fuel k x h hk Hz Hrb Hfuel) as
    (root & s' & t' & Hrun & Hrep & Hroot & _ & Hin).
  exists root, s'. split; [assumption|].
  rewrite <- Hroot.
  rewrite (inorder_from_rep _ t' None fuel Hrep) by (rewrite Hin; assumption).
  rewrite (inorder_from_rep h _ None fuel (zrep_rep _ _ _ Hz) Hfuel).
  assumption.
Qed.

Lemma rebalance_after_insert_traversal_witness :
  exists root s',
    rebalance_after_insert 9 1 (mkState linked_heap []) = Done root s' /\
    inorder_from 9 (heap s') (Some root)
    = inorder_from 9 linked_heap
        (root_of (plug [FL BLACK 3 E;
                        FL RED 5 (T BLACK (T RED E 6 E) 7 (T RED E 8 E));
                        FL BLACK 10 (T BLACK (T RED E 12 E) 15 E)]
                    (T RED E 1 E))).
Proof.
  apply (rebalance_after_insert_traversal 9
           [FL BLACK 3 E;
            FL RED 5 (T BLACK (T RED E 6 E) 7 (T RED E 8 E));
            FL BLACK 10 (T BLACK (T RED E 12 E) 15 E)]
           1 linked_heap []).
  - repeat split. apply (bool_decide_unpack _). vm_compute. reflexivity.
  - split; [reflexivity|]. split; simpl; repeat split; discriminate.
  - simpl. lia.
Defined.

(** *** The depth of the tree after an operation *)

Lemma size_bh t : balanced t -> 2 ^ bh t <= S (length (inorder t)).
Proof.
  induction t as [|c l IHl x r IHr]; simpl; [lia|].
  intros (Hlr & Hl & Hr). specialize (IHl Hl). specialize (IHr Hr).
  rewrite <- Hlr in IHr. rewrite length_app. simpl.
  destruct c; simpl; rewrite ?Nat.add_0_r, ?Nat.add_1_r; simpl; lia.
Qed.

Lemma height_bh t :
  no_red_red t -> balanced t ->
  height t <= 2 * bh t + (if color_of t is RED then 1 else 0).
Proof.
  induction t as [|c l IHl x r IHr]; simpl; [lia|].
  intros (Hc & Hnl & Hnr) (Hlr & Hl & Hr).
  specialize (IHl Hnl Hl). specialize (IHr Hnr Hr). rewrite <- Hlr in IHr.
  destruct c; simpl.
  - destruct (Hc eq_refl) as (Hcl & Hcr). rewrite Hcl in IHl.
    rewrite Hcr in IHr. lia.
  - destruct (color_of l), (color_of r); lia.
Qed.

Lemma red_black_height t :
  red_black t -> height t <= 2 * Nat.log2 (S (length (inorder t))).
Proof.
  intros (Hc & Hn & Hb).
  pose proof (height_bh t Hn Hb) as Hh. rewrite Hc in Hh.
  pose proof (size_bh t Hb) as Hs.
  apply Nat.log2_le_pow2 in Hs; lia.
Qed.

(** X13. The tree stays shallow: after [rebalance_after_insert] on a node
    linked as a RED leaf into a red/black tree, and after [remove] on a node
    of a red/black tree, no path from the root returned to an absent child
    has more than twice the binary logarithm of the number of nodes plus
    one. *)
Theorem depth_logarithmic (fuel : nat) (h : gmap nat RBNode)
    (hk : list HookCall) (x : nat) :
  (forall k,
      zrep h k (T RED E x E) -> red_black (plug k E) ->
      length (inorder (plug k (T RED E x E))) <= fuel ->
      exists root s' t',
        rebalance_after_insert fuel x (mkState h hk) = Done root s' /\
        rep (heap s') t' None /\ root_of t' = Some root /\
        height t' <= 2 * Nat.log2 (S (length (inorder t')))) /\
  (forall t,
      rep h t None -> NoDup (inorder t) -> red_black t ->
      x ∈ inorder t -> length (inorder t) <= fuel ->
      exists root' s' t',
        remove fuel x (mkState h hk) = Done root' s' /\
        rep (heap s') t' None /\ root_of t' = root' /\
        height t' <= 2 * Nat.log2 (S (length (inorder t')))).
Proof.
  split.
  - intros k Hz Hrb Hfuel.
    destruct (rebalance_after_insert_tree fuel k x h hk Hz Hrb Hfuel) as
      (root & s' & t' & Hrun & Hrep & Hroot & Hrb' & _).
    exists root, s', t'. split; [assumption|]. split; [assumption|].
    split; [assumption|]. apply red_black_height. assumption.
  - intros t Hrep Hnd Hrb Hx Hfuel.
    destruct (remove_tree fuel t x h hk Hrep Hnd Hrb Hx Hfuel)
      as (root' & s' & t' & Hrun & Hrep' & Hroot' & Hrb' & _).
    exists root', s', t'. split; [assumption|]. split; [assumption|].
    split; [assumption|]. apply red_black_height. assumption.
Qed.

Lemma depth_logarithmic_witness :
  (exists root s' t',
      rebalance_after_insert 9 1 (mkState linked_heap []) = Done root s' /\
      rep (heap s') t' None /\ root_of t' = Some root /\
      height t' <= 2 * Nat.log2 (S (length (inorder t')))) /\
  (exists root' s' t',
      remove 9 5 (mkState demo_heap []) = Done root' s' /\
      rep (heap s') t' None /\ root_of t' = root' /\
      height t' <= 2 * Nat.log2 (S (length (inorder t')))).
Proof.
  split.
  - apply (proj1 (depth_logarithmic 9 linked_heap [] 1)
             [FL BLACK 3 E;
              FL RED 5 (T BLACK (T RED E 6 E) 7 (T RED E 8 E));
              FL BLACK 10 (T BLACK (T RED E 12 E) 15 E)]).
    + repeat split. apply (bool_decide_unpack _). vm_compute. reflexivity.
    + split; [reflexivity|]. split; simpl; repeat split; discriminate.
    + simpl. lia.
  - apply (proj2 (depth_logarithmic 9 demo_heap [] 5) demo_tree).
    + repeat split.
    + apply (bool_decide_unpack _). vm_compute. reflexivity.
    + split; [reflexivity|]. split; simpl; repeat split; discriminate.
    + apply (bool_decide_unpack _). vm_compute. reflexivity.
    + simpl. lia.
Defined.

(** *** [rebalance_after_remove] without a sibling *)

(** X14. [rebalance_after_remove] relies on its caller for the sibling: with
    removed colour BLACK and a direction LEFT or RIGHT, called on a node
    whose child on the other side is absent, it reads the colour of that
    absent child (line 289), which the model reports as a fault. *)
Theorem rebalance_after_remove_absent_sibling (fuel : nat) (this : nat)
    (d : Direction) (s : State) (nd : RBNode) :
  heap s !! this = Some nd ->
  (d = LEFT /\ _right nd = None) \/ (d = RIGHT /\ _left nd = None) ->
  rebalance_after_remove (S fuel) this BLACK d s = Fault.
Proof.
  intros Hnd Hcase. destruct s as [h hk]. simpl in Hnd.
  unfold rebalance_after_remove. rewrite decide_True by reflexivity.
  rewrite !bind_bind. erewrite bind_get by eassumption. cbv beta.
  destruct Hcase as [(-> & Hr)|(-> & Hl)].
  - rewrite decide_False by discriminate. rewrite remove_loop_unfold.
    rewrite !bind_bind, bind_ret. simpl. rewrite !bind_bind, bind_ret.
    unfold child_at. rewrite !bind_bind. erewrite bind_load by eassumption.
    rewrite bind_ret. simpl. rewrite Hr. reflexivity.
  - rewrite decide_False by discriminate. rewrite remove_loop_unfold.
    rewrite !bind_bind, bind_ret. simpl. rewrite !bind_bind, bind_ret.
    unfold child_at. rewrite !bind_bind. erewrite bind_load by eassumption.
    rewrite bind_ret. simpl. rewrite Hl. reflexivity.
Qed.

Lemma rebalance_after_remove_absent_sibling_witness :
  rebalance_after_remove (S 3) 15 BLACK LEFT demo = Fault.
Proof.
  apply (rebalance_after_remove_absent_sibling 3 15 LEFT demo
           (mkNode BLACK (Some 10) (Some 12) None)).
  - reflexivity.
  - left. split; reflexivity.
Defined.
